(** * DeckFlix: search ranking, stream resolution and player launch

    A shallow embedding of the ranking pipeline of [src/app.js]
    ([preprocessSearchTerm], [calculateRelevanceScore],
    [detectFranchiseBoost], [getSecondaryScore], [processSearchResults],
    [groupFranchiseResults]) and of the stream resolver and player launcher
    of the Tauri backend ([extract_torrent_hash],
    [find_video_file_in_hash_dir], [play_video_external],
    [launch_external_player], [start_stream]), followed by the parts of
    the frontend around them: the search box ([handleSearchInput],
    [clearSearch]), the results view ([validateAndFilterSearchResults],
    [displaySearchResults]), the movie shelf ([loadMovies]), the
    continue-watching list ([addToContinueWatching]), the stream list
    ([extractQuality], [playStream], [tryExternalPlayer]) and the
    keyboard navigation ([handleKeyboard], [handleModalKeyboard]); and by
    the magnet links of the addon client and the first player launcher.

    Conventions of the embedding.
    - A JavaScript string is the sequence of its UTF-16 code units; the
      embedding covers the strings whose code units lie in U+0000..U+00FF,
      one [ascii] per code unit.
    - A JavaScript Number is an IEEE 754 binary64 value, [spec_float] with
      [prec = 53] and [emax = 1024].  Relevance scores and array indices are
      small integers and are kept in [Z] and [nat].
    - An exception is an explicit [Throws] outcome.
    - Where a statement is about one run after another, the arrays that
      outlive a call are held in a store ([Runs]): [push] and [sort] write
      the array they are called on, [map], [filter] and array literals
      make a new one.
    - [DEBUG.log] only writes to the console and to the debug panel; its
      calls are left out.
    - Behaviour that belongs to the host engine and not to the program (the
      regular-expression engine on patterns in which the query itself
      contributes syntax characters, the text of the members inherited from
      [Object.prototype]) is a field of the [Host] record, over which every
      statement is quantified. *)

From Stdlib Require Import ZArith NArith List Bool String Ascii Lia.
From Stdlib Require Import Permutation Sorted SpecFloat.
Import ListNotations.

Local Open Scope string_scope.
Local Open Scope Z_scope.

(* ===================================================================== *)
(** * JavaScript strings *)
(* ===================================================================== *)

Module JsString.

Definition codeUnit (c : ascii) : N := N_of_ascii c.

Definition between (lo hi : N) (c : ascii) : bool :=
  ((lo <=? codeUnit c) && (codeUnit c <=? hi))%N.

(** WhiteSpace and LineTerminator code points below U+0100: TAB, LF, VT,
    FF, CR, SP and NBSP.  This is the set removed by [trim] and matched by
    the class escape [\s]. *)
Definition isWhiteSpace (c : ascii) : bool :=
  between 9 13 c || (codeUnit c =? 32)%N || (codeUnit c =? 160)%N.

(** LineTerminator code points below U+0100, which [.] does not match. *)
Definition isLineTerminator (c : ascii) : bool :=
  (codeUnit c =? 10)%N || (codeUnit c =? 13)%N.

(** [String.prototype.toLowerCase] on one code unit: A-Z and the
    capital letters U+00C0..U+00DE (except the multiplication sign
    U+00D7) move up by 32. *)
Definition lowerUnit (c : ascii) : ascii :=
  if between 65 90 c || (between 192 222 c && negb (codeUnit c =? 215)%N)
  then ascii_of_N (codeUnit c + 32) else c.

(** Canonicalize of a case-insensitive, non-unicode RegExp: the code
    unit of the upper-case form when that is a single code unit.  The two
    letters whose upper-case form leaves U+0000..U+00FF (U+00B5, U+00FF)
    stay distinct from every other code unit and are kept. *)
Definition canonUnit (c : ascii) : ascii :=
  if between 97 122 c || (between 224 254 c && negb (codeUnit c =? 247)%N)
  then ascii_of_N (codeUnit c - 32) else c.

Fixpoint mapUnits (f : ascii -> ascii) (s : string) : string :=
  match s with
  | EmptyString => EmptyString
  | String c r => String (f c) (mapUnits f r)
  end.

Definition toLowerCase (s : string) : string := mapUnits lowerUnit s.

Fixpoint trimStart (s : string) : string :=
  match s with
  | EmptyString => EmptyString
  | String c r => if isWhiteSpace c then trimStart r else s
  end.

Fixpoint trimEnd (s : string) : string :=
  match s with
  | EmptyString => EmptyString
  | String c r =>
      match trimEnd r with
      | EmptyString => if isWhiteSpace c then EmptyString
                       else String c EmptyString
      | r' => String c r'
      end
  end.

Definition trim (s : string) : string := trimEnd (trimStart s).

(** [s.startsWith(p)] *)
Fixpoint startsWith (s p : string) : bool :=
  match p, s with
  | EmptyString, _ => true
  | String _ _, EmptyString => false
  | String a p', String b s' => Ascii.eqb a b && startsWith s' p'
  end.

(** [s.includes(p)] *)
Fixpoint includes (s p : string) : bool :=
  startsWith s p ||
  match s with
  | EmptyString => false
  | String _ r => includes r p
  end.

(** [s.slice(n)]: [s] without its first [n] code units. *)
Fixpoint drop (n : nat) (s : string) : string :=
  match n, s with
  | O, _ => s
  | S n', String _ r => drop n' r
  | S _, EmptyString => EmptyString
  end.

(** A string is falsy exactly when it is empty. *)
Definition truthy (s : string) : bool :=
  match s with EmptyString => false | _ => true end.

(** [a || b] on values that are strings, [undefined] or [null]. *)
Definition orElse (a : option string) (b : option string) : option string :=
  match a with
  | Some s => if truthy s then a else b
  | None => b
  end.

(** [s.split(/[:\-]/)]: the first part, and whether there are more. *)
Fixpoint splitFirst (s : string) : string * bool :=
  match s with
  | EmptyString => (EmptyString, false)
  | String c r =>
      if Ascii.eqb c ":" || Ascii.eqb c "-" then (EmptyString, true)
      else let '(p, more) := splitFirst r in (String c p, more)
  end.

End JsString.

(* ===================================================================== *)
(** * Regular expressions *)
(* ===================================================================== *)

Module RegExp.
Import JsString.

(** The fragment of the pattern language that the program's own pattern
    text uses: literal code units, [.], sequence, [|], [*] and [+]. *)
Inductive regex : Type :=
| Never : regex
| Eps : regex
| Chr : ascii -> regex
| Dot : regex
| Seq : regex -> regex -> regex
| Alt : regex -> regex -> regex
| Star : regex -> regex.

Definition Plus (r : regex) : regex := Seq r (Star r).

Fixpoint lit (s : string) : regex :=
  match s with
  | EmptyString => Eps
  | String c r => Seq (Chr c) (lit r)
  end.

Fixpoint nullable (r : regex) : bool :=
  match r with
  | Never => false
  | Eps => true
  | Chr _ => false
  | Dot => false
  | Seq a b => nullable a && nullable b
  | Alt a b => nullable a || nullable b
  | Star _ => true
  end.

(** Derivative by one code unit under the [i] flag: a pattern character
    matches an input character with the same canonical form. *)
Fixpoint deriv (c : ascii) (r : regex) : regex :=
  match r with
  | Never => Never
  | Eps => Never
  | Chr a => if Ascii.eqb (canonUnit a) (canonUnit c) then Eps else Never
  | Dot => if isLineTerminator c then Never else Eps
  | Seq a b =>
      if nullable a then Alt (Seq (deriv c a) b) (deriv c b)
      else Seq (deriv c a) b
  | Alt a b => Alt (deriv c a) (deriv c b)
  | Star a => Seq (deriv c a) (Star a)
  end.

(** Some prefix of [s] matches [r]. *)
Fixpoint matchesPrefix (r : regex) (s : string) : bool :=
  nullable r ||
  match s with
  | EmptyString => false
  | String c s' => matchesPrefix (deriv c r) s'
  end.

(** [r.test(s)] for a pattern without the [g] and [y] flags: a match
    may start at any position. *)
Fixpoint test (r : regex) (s : string) : bool :=
  matchesPrefix r s ||
  match s with
  | EmptyString => false
  | String _ s' => test r s'
  end.

(** SyntaxCharacter of the pattern grammar. *)
Definition isSyntaxChar (c : ascii) : bool :=
  existsb (Ascii.eqb c)
    ["^"; "$"; "\"; "."; "*"; "+"; "?"; "("; ")"; "["; "]"; "{"; "}"; "|"]%char.

Fixpoint hasSyntaxChar (s : string) : bool :=
  match s with
  | EmptyString => false
  | String c r => isSyntaxChar c || hasSyntaxChar r
  end.

End RegExp.

(* ===================================================================== *)
(** * The host engine *)
(* ===================================================================== *)

(** What the program leaves to the JavaScript engine.
    - [regexpCompile src] is [new RegExp(src, 'i')] for a pattern text in
      which the query contributes syntax characters: [None] when the
      constructor throws a SyntaxError, otherwise the [test] method of the
      pattern.
    - [prototypeText key] is [Some t] when [Object.prototype] has a truthy
      member under [key] (such as [constructor] or [toString]), [t] being
      what [ToString] gives for that member. *)
Record Host : Type := {
  regexpCompile : string -> option (string -> bool);
  prototypeText : string -> option string
}.

(** Completion of a call: a value, or an exception. *)
Inductive outcome (A : Type) : Type :=
| Returns : A -> outcome A
| Throws : outcome A.
Arguments Returns {A} _.
Arguments Throws {A}.

Definition bindO {A B : Type} (m : outcome A) (k : A -> outcome B) : outcome B :=
  match m with
  | Returns a => k a
  | Throws => Throws
  end.

Notation "x <- m ;; k" := (bindO m (fun x => k))
  (at level 61, m at next level, right associativity).

(* ===================================================================== *)
(** * JavaScript numbers *)
(* ===================================================================== *)

Module JsNumber.
Import JsString.

Definition number : Type := spec_float.

Definition prec : Z := 53.
Definition emax : Z := 1024.

Definition NaN : number := S754_nan.
Definition posZero : number := S754_zero false.
Definition Infinity : number := S754_infinity false.

(** The Number value of an integer (round to nearest, ties to even). *)
Definition ofZ (z : Z) : number := binary_normalize prec emax z 0 false.

(** The Number value of the decimal [m * 10^e], [m >= 0]. *)
Definition ofDecimal (m : Z) (e : Z) : number :=
  match m with
  | Zpos p =>
      if 0 <=? e then ofZ (m * 10 ^ e)
      else SFdiv prec emax (S754_finite false p 0)
                           (S754_finite false (Z.to_pos (10 ^ (- e))) 0)
  | _ => posZero
  end.

Definition half : number := ofDecimal 5 (-1).

Definition add : number -> number -> number := SFadd prec emax.
Definition sub : number -> number -> number := SFsub prec emax.
Definition mul : number -> number -> number := SFmul prec emax.
Definition div : number -> number -> number := SFdiv prec emax.
Definition neg : number -> number := SFopp.

(** [x > y], [x !== y] *)
Definition gt (x y : number) : bool := SFltb y x.
Definition strictNe (x y : number) : bool := negb (SFeqb x y).

(** ToBoolean: NaN and the two zeros are falsy. *)
Definition toBoolean (x : number) : bool :=
  match x with
  | S754_nan | S754_zero _ => false
  | _ => true
  end.

(** [x || d] *)
Definition orDefault (x d : number) : number :=
  if toBoolean x then x else d.

(** [Math.max(x, y)]: NaN if either is NaN, and +0 above -0. *)
Definition Math_max (x y : number) : number :=
  match SFcompare x y with
  | None => NaN
  | Some Lt => y
  | Some Gt => x
  | Some Eq =>
      match x, y with
      | S754_zero true, S754_zero false => y
      | _, _ => x
      end
  end.

(** The sign of the difference [x - y] as a sort comparator's caller
    reads it: negative, zero or positive as [x] is below, equal to or
    above [y]; a NaN difference counts as zero. *)
Definition diffSign (x y : number) : Z :=
  match SFcompare x y with
  | Some Lt => -1
  | Some Gt => 1
  | _ => 0
  end.

(** ** Parsing *)

Definition digitValue (c : ascii) : option Z :=
  if between 48 57 c then Some (Z.of_N (codeUnit c) - 48)
  else if between 97 122 c then Some (Z.of_N (codeUnit c) - 87)
  else if between 65 90 c then Some (Z.of_N (codeUnit c) - 55)
  else None.

Definition digitIn (radix : Z) (c : ascii) : option Z :=
  match digitValue c with
  | Some d => if d <? radix then Some d else None
  | None => None
  end.

(** The longest run of radix-[radix] digits at the front of [s]: its
    value, how many digits it has, and the rest of the string. *)
Fixpoint digitRun (radix : Z) (s : string) (acc : Z) (n : nat)
  : Z * nat * string :=
  match s with
  | EmptyString => (acc, n, s)
  | String c r =>
      match digitIn radix c with
      | Some d => digitRun radix r (acc * radix + d) (S n)
      | None => (acc, n, s)
      end
  end.

(** An optional sign: whether it is a minus, and the rest. *)
Definition takeSign (s : string) : bool * string :=
  match s with
  | String "-" r => (true, r)
  | String "+" r => (false, r)
  | _ => (false, s)
  end.

Definition applySign (minus : bool) (x : number) : number :=
  if minus then neg x else x.

(** [parseInt(s)] with no radix argument: leading white space, a sign,
    an optional [0x] prefix that selects radix 16, then the longest run
    of digits; NaN when there is none. *)
Definition parseInt (s : string) : number :=
  let '(minus, s1) := takeSign (trimStart s) in
  let '(radix, s2) :=
    if startsWith s1 "0x" || startsWith s1 "0X" then (16, drop 2 s1)
    else (10, s1) in
  match digitRun radix s2 0 O with
  | (_, O, _) => NaN
  | (v, _, _) => applySign minus (ofZ v)
  end.

(** The exponent part [e], [e+] or [e-] followed by at least one digit,
    when the string starts with one; otherwise exponent 0. *)
Definition exponentPart (s : string) : Z :=
  match s with
  | String c r =>
      if Ascii.eqb c "e" || Ascii.eqb c "E" then
        let '(minus, r1) := takeSign r in
        match digitRun 10 r1 0 O with
        | (_, O, _) => 0
        | (v, _, _) => if minus then - v else v
        end
      else 0
  | EmptyString => 0
  end.

(** [parseFloat(s)]: leading white space, a sign, then the longest
    prefix that is [Infinity] or a decimal literal; NaN when there is
    none. *)
Definition parseFloat (s : string) : number :=
  let '(minus, s1) := takeSign (trimStart s) in
  if startsWith s1 "Infinity" then applySign minus Infinity
  else
    let '(ip, ni, s2) := digitRun 10 s1 0 O in
    match s2 with
    | String "." r =>
        let '(m, nf, s3) := digitRun 10 r ip O in
        match ni, nf with
        | O, O => NaN
        | _, _ => applySign minus
                    (ofDecimal m (exponentPart s3 - Z.of_nat nf))
        end
    | _ =>
        match ni with
        | O => NaN
        | _ => applySign minus (ofDecimal ip (exponentPart s2))
        end
    end.

(** [parseInt(v)], [parseFloat(v)] on a field that is a string,
    [undefined] or [null]: the texts "undefined" and "null" hold no
    digit. *)
Definition parseIntField (v : option string) : number :=
  match v with Some s => parseInt s | None => NaN end.

Definition parseFloatField (v : option string) : number :=
  match v with Some s => parseFloat s | None => NaN end.

End JsNumber.

(* ===================================================================== *)
(** * Array.prototype.sort *)
(* ===================================================================== *)

Module JsArray.

Section Sort.
Context {A : Type}.

(** [cmp a b] is the comparator's result: positive when [a] goes after
    [b].  The sort is stable; with a comparator that is a consistent
    ordering, as all comparators of this program are, the result is the
    one the language specification fixes. *)
Variable cmp : A -> A -> Z.

Fixpoint insert (x : A) (l : list A) : list A :=
  match l with
  | [] => [x]
  | y :: t => if 0 <? cmp x y then y :: insert x t else x :: l
  end.

Definition sort (l : list A) : list A := fold_right insert [] l.
End Sort.

(** [xs.map((x, index) => f(x, index))] from index [i] on, for an [f]
    that may throw. *)
Fixpoint mapIndexed {A B : Type} (f : A -> nat -> outcome B) (i : nat)
  (xs : list A) : outcome (list B) :=
  match xs with
  | [] => Returns []
  | x :: r => y <- f x i ;; ys <- mapIndexed f (S i) r ;; Returns (y :: ys)
  end.

End JsArray.

(* ===================================================================== *)
(** * The ranking pipeline of app.js *)
(* ===================================================================== *)

Module Ranking.
Import JsString RegExp JsNumber JsArray.

(** A catalog item as the backend hands it over: every field but [id]
    may be missing ([None] stands for [undefined] and [null]). *)
Record Movie : Type := {
  id : string;
  name : option string;
  title : option string;
  year : option string;
  imdb_rating : option string;
  content_type : option string
}.

(** [{...movie, relevanceScore, secondaryScore, originalIndex}] *)
Record SearchResult : Type := {
  item : Movie;
  relevanceScore : Z;
  secondaryScore : number;
  originalIndex : nat
}.

(** A candidate search term: a string, or (when the plural table lookup
    finds a member inherited from [Object.prototype]) an object, known
    here by the text that [ToString] gives for it. *)
Inductive term : Type :=
| TermString : string -> term
| TermObject : string -> term.

Definition termText (t : term) : string :=
  match t with TermString s => s | TermObject s => s end.

Definition termTruthy (t : term) : bool :=
  match t with TermString s => truthy s | TermObject _ => true end.

(** [title === term] *)
Definition strictEqual (s : string) (t : term) : bool :=
  match t with TermString u => String.eqb s u | TermObject _ => false end.

(** [movie.name || movie.title || ''] *)
Definition displayName (m : Movie) : string :=
  match orElse (orElse (name m) (title m)) (Some EmptyString) with
  | Some s => s
  | None => EmptyString
  end.

(** ** preprocessSearchTerm *)

(** [s] starts with [p], code units compared by canonical form. *)
Fixpoint startsWithFold (s p : string) : bool :=
  match p, s with
  | EmptyString, _ => true
  | String _ _, EmptyString => false
  | String a p', String b s' =>
      Ascii.eqb (canonUnit a) (canonUnit b) && startsWithFold s' p'
  end.

(** One alternative of [/^(the|a|an)\s+/i]: the article, then at least
    one white-space unit; the match takes the whole white-space run. *)
Definition matchArticle (article s : string) : option string :=
  if startsWithFold s article then
    match drop (String.length article) s with
    | String c r => if isWhiteSpace c then Some (trimStart r) else None
    | EmptyString => None
    end
  else None.

(** [processed.replace(/^(the|a|an)\s+/i, '')]: alternatives are tried
    left to right. *)
Definition stripArticle (s : string) : string :=
  match matchArticle "the" s with
  | Some r => r
  | None =>
      match matchArticle "a" s with
      | Some r => r
      | None =>
          match matchArticle "an" s with
          | Some r => r
          | None => s
          end
      end
  end.

Definition pluralMap : list (string * string) :=
  [ ("cars", "car"); ("movies", "movie"); ("shows", "show");
    ("series", "series") ].

Fixpoint ownProperty (m : list (string * string)) (key : string)
  : option string :=
  match m with
  | [] => None
  | (k, v) :: r => if String.eqb k key then Some v else ownProperty r key
  end.

Definition preprocessSearchTerm (host : Host) (searchTerm : string) : term :=
  if negb (truthy searchTerm) then TermString EmptyString
  else
    let processed := trim (toLowerCase searchTerm) in
    let processed := stripArticle processed in
    match ownProperty pluralMap processed with
    | Some v => TermString v
    | None =>
        match prototypeText host processed with
        | Some text => TermObject text
        | None => TermString processed
        end
    end.

(** ** detectFranchiseBoost *)

(** The text that follows the query in each of the five patterns, with
    the pattern it denotes.  The patterns are written as template
    literals, where [\s] and [\d] are the letters [s] and [d]: the text
    handed to [new RegExp] holds no backslash. *)
Definition sequelPatterns : list (string * regex) :=
  [ ("s+d+", Seq (Plus (Chr "s")) (Plus (Chr "d")));
    ("s+ii+", Seq (Plus (Chr "s")) (Seq (Chr "i") (Plus (Chr "i"))));
    ("s*:s*", Seq (Star (Chr "s")) (Seq (Chr ":") (Star (Chr "s"))));
    ("s*-s*", Seq (Star (Chr "s")) (Seq (Chr "-") (Star (Chr "s"))));
    (".*s+(film|movie)",
      Seq (Star Dot) (Seq (Plus (Chr "s")) (Alt (lit "film") (lit "movie"))))
  ].

(** [new RegExp(`${searchLower}...`, 'i')]: a query without syntax
    characters stands for itself in front of the fixed part; any other
    pattern text goes to the host engine. *)
Definition newRegExp (host : Host) (searchLower : string)
  (p : string * regex) : option (string -> bool) :=
  if hasSyntaxChar searchLower
  then regexpCompile host (searchLower ++ fst p)
  else Some (test (Seq (lit searchLower) (snd p))).

(** All patterns are built before the first is tried. *)
Fixpoint buildAll (ps : list (option (string -> bool)))
  : outcome (list (string -> bool)) :=
  match ps with
  | [] => Returns []
  | None :: _ => Throws
  | Some t :: r => ts <- buildAll r ;; Returns (t :: ts)
  end.

Definition detectFranchiseBoost (host : Host) (title searchTerm : string)
  : outcome Z :=
  let searchLower := toLowerCase searchTerm in
  let titleLower := toLowerCase title in
  patterns <- buildAll (map (newRegExp host searchLower) sequelPatterns) ;;
  Returns (if existsb (fun pattern => pattern titleLower) patterns
           then 15 else 0).

(** ** calculateRelevanceScore *)

(** One turn of the loop over the search terms. *)
Definition scoreTerm (title : string) (score : Z) (t : term) : Z :=
  if strictEqual title t then Z.max score 100
  else if startsWith title (termText t) then Z.max score 90
  else if startsWith title ("the " ++ termText t) then Z.max score 90
  else if startsWith title (termText t ++ " ") then Z.max score 85
  else if includes title (" " ++ termText t ++ " ") then Z.max score 80
  else if includes title (termText t) then Z.max score 70
  else score.

(** The score before the franchise boost. *)
Definition baseScore (host : Host) (movie : Movie) (searchTerm : string) : Z :=
  let title := trim (toLowerCase (displayName movie)) in
  let originalSearch := trim (toLowerCase searchTerm) in
  let processedSearch := preprocessSearchTerm host searchTerm in
  let searchTerms :=
    filter termTruthy [TermString originalSearch; processedSearch] in
  fold_left (scoreTerm title) searchTerms 0.

Definition calculateRelevanceScore (host : Host) (movie : Movie)
  (searchTerm : string) : outcome Z :=
  let title := trim (toLowerCase (displayName movie)) in
  let originalSearch := trim (toLowerCase searchTerm) in
  let score := baseScore host movie searchTerm in
  franchiseBoost <- detectFranchiseBoost host title originalSearch ;;
  Returns (if 0 <? franchiseBoost then score + franchiseBoost else score).

(** ** getSecondaryScore *)

Definition fieldIs (v : option string) (s : string) : bool :=
  match v with Some u => String.eqb u s | None => false end.

(** [currentYear] is what [new Date().getFullYear()] returns. *)
Definition getSecondaryScore (currentYear : Z) (movie : Movie) : number :=
  let score := posZero in
  let year := orDefault (parseIntField (year movie)) posZero in
  let score :=
    if gt year posZero then
      let yearDiff := sub (ofZ currentYear) year in
      add score (Math_max posZero (sub (ofZ 20) (mul yearDiff half)))
    else score in
  let rating := orDefault (parseFloatField (imdb_rating movie)) posZero in
  let score := if gt rating posZero then add score rating else score in
  if fieldIs (content_type movie) "movie" then add score (ofZ 2)
  else if fieldIs (content_type movie) "series" then add score (ofZ 1)
  else if fieldIs (content_type movie) "anime" then add score (ofZ 1)
  else score.

(** ** groupFranchiseResults *)

Definition franchiseKey (searchLower : string) (result : SearchResult)
  : option string :=
  let titleLower := toLowerCase (displayName (item result)) in
  if startsWith titleLower searchLower then Some searchLower
  else if includes titleLower searchLower then
    let '(part0, more) := splitFirst titleLower in
    if more && includes part0 searchLower then Some (trim part0) else None
  else None.

(** The [Map] from franchise key to group, in insertion order. *)
Abbreviation groupMap := (list (string * list SearchResult)).

(** [groups.get(key).push(result)], after [groups.set(key, [])] when
    the key is new. *)
Fixpoint pushGroup (key : string) (result : SearchResult) (groups : groupMap)
  : groupMap :=
  match groups with
  | [] => [(key, [result])]
  | (k, g) :: r =>
      if String.eqb k key then (k, (g ++ [result])%list) :: r
      else (k, g) :: pushGroup key result r
  end.

(** One turn of [results.forEach]. *)
Definition classify (searchLower : string)
  (acc : groupMap * list SearchResult) (result : SearchResult)
  : groupMap * list SearchResult :=
  let '(groups, standalone) := acc in
  match franchiseKey searchLower result with
  | Some key =>
      if truthy key then (pushGroup key result groups, standalone)
      else (groups, (standalone ++ [result])%list)
  | None => (groups, (standalone ++ [result])%list)
  end.

Definition sumScores (g : list SearchResult) : Z :=
  fold_left (fun sum r => sum + relevanceScore r) g 0.

Definition avgScore (entry : string * list SearchResult) : number :=
  div (ofZ (sumScores (snd entry))) (ofZ (Z.of_nat (List.length (snd entry)))).

Definition compareGroups (a b : string * list SearchResult) : Z :=
  diffSign (avgScore b) (avgScore a).

(** [parseInt(r.year) || 9999] *)
Definition yearKey (r : SearchResult) : number :=
  orDefault (parseIntField (year (item r))) (ofZ 9999).

Definition compareYears (a b : SearchResult) : Z :=
  diffSign (yearKey a) (yearKey b).

Definition groupFranchiseResults (results : list SearchResult)
  (searchTerm : string) : list SearchResult :=
  let searchLower := toLowerCase searchTerm in
  let '(groups, standalone) :=
    fold_left (classify searchLower) results ([], []) in
  let sortedGroups := sort compareGroups groups in
  (flat_map (fun entry => sort compareYears (snd entry)) sortedGroups
     ++ standalone)%list.

(** ** processSearchResults *)

Definition compareResults (a b : SearchResult) : Z :=
  if negb (relevanceScore b =? relevanceScore a)
  then relevanceScore b - relevanceScore a
  else if strictNe (secondaryScore b) (secondaryScore a)
  then diffSign (secondaryScore b) (secondaryScore a)
  else Z.of_nat (originalIndex a) - Z.of_nat (originalIndex b).

(** One call of the callback of [results.map]; [clock index] is the year
    the system clock shows while item [index] is scored. *)
Definition scoreResult (host : Host) (clock : nat -> Z) (searchTerm : string)
  (movie : Movie) (index : nat) : outcome SearchResult :=
  relevance <- calculateRelevanceScore host movie searchTerm ;;
  Returns {| item := movie;
             relevanceScore := relevance;
             secondaryScore := getSecondaryScore (clock index) movie;
             originalIndex := index |}.

(** The list handed to the grouping pass: scored, filtered, sorted. *)
Definition rankedBeforeGrouping (host : Host) (clock : nat -> Z)
  (results : list Movie) (searchTerm : string) : outcome (list SearchResult) :=
  scoredResults <- mapIndexed (scoreResult host clock searchTerm) 0 results ;;
  let filteredResults :=
    filter (fun result => 10 <=? relevanceScore result) scoredResults in
  Returns (sort compareResults filteredResults).

Definition processSearchResults (host : Host) (clock : nat -> Z)
  (results : list Movie) (searchTerm : string) : outcome (list SearchResult) :=
  match results with
  | [] => Returns []
  | _ =>
      sorted <- rankedBeforeGrouping host clock results searchTerm ;;
      Returns (groupFranchiseResults sorted searchTerm)
  end.

End Ranking.

(* ===================================================================== *)
(** * Runs of the ranking pipeline over shared arrays *)
(* ===================================================================== *)

(** The pipeline once more, with its arrays in a store that outlives a
    run: the caller's array of raw results, which a later run is handed
    again, and the arrays that a run creates, fills with [push] and
    sorts in place.  The objects in the arrays are never written after
    they are built and are held by value. *)
Module Runs.
Import JsString JsNumber JsArray Ranking.

Record Store : Type := {
  rawArrays : list (list Movie);
  resultArrays : list (list SearchResult)
}.

(** A piece of a run: it throws, or returns a value and the store it
    leaves.  The one step of the pipeline that can throw is the scoring
    of a result, which comes before the run has written any array. *)
Definition Run (A : Type) : Type := Store -> outcome (A * Store).

Definition ret {A : Type} (a : A) : Run A := fun store => Returns (a, store).

Definition andThen {A B : Type} (m : Run A) (k : A -> Run B) : Run B :=
  fun store =>
    match m store with
    | Returns (a, store') => k a store'
    | Throws => Throws
    end.

Notation "x <~ m ;; k" := (andThen m (fun x => k))
  (at level 61, m at next level, right associativity).

Definition lift {A : Type} (o : outcome A) : Run A :=
  fun store =>
    match o with
    | Returns a => Returns (a, store)
    | Throws => Throws
    end.

Definition stored (store : Store) (array : nat) : option (list SearchResult) :=
  nth_error (resultArrays store) array.

Fixpoint replaceAt {A : Type} (i : nat) (x : A) (l : list A) : list A :=
  match l, i with
  | [], _ => []
  | _ :: t, O => x :: t
  | y :: t, S i' => y :: replaceAt i' x t
  end.

(** The store after [array] has been given new elements. *)
Definition written (array : nat) (elements : list SearchResult)
  (store : Store) : Store :=
  {| rawArrays := rawArrays store;
     resultArrays := replaceAt array elements (resultArrays store) |}.

(** The store after a new array has been created. *)
Definition created (elements : list SearchResult) (store : Store) : Store :=
  {| rawArrays := rawArrays store;
     resultArrays := (resultArrays store ++ [elements])%list |}.

(** Reading the caller's array. *)
Definition readRaw (array : nat) : Run (list Movie) :=
  fun store =>
    match nth_error (rawArrays store) array with
    | Some movies => Returns (movies, store)
    | None => Throws
    end.

(** An array literal, or the result of [map] or [filter]: a new array. *)
Definition newArray (elements : list SearchResult) : Run nat :=
  fun store =>
    Returns (List.length (resultArrays store), created elements store).

Definition read (array : nat) : Run (list SearchResult) :=
  fun store =>
    match stored store array with
    | Some elements => Returns (elements, store)
    | None => Throws
    end.

Definition write (array : nat) (elements : list SearchResult) : Run unit :=
  fun store => Returns (tt, written array elements store).

(** [array.push(result)] *)
Definition push (array : nat) (result : SearchResult) : Run unit :=
  elements <~ read array ;; write array (elements ++ [result])%list.

(** [array.push(...results)] *)
Definition pushAll (array : nat) (results : list SearchResult) : Run unit :=
  elements <~ read array ;; write array (elements ++ results)%list.

(** [array.sort(cmp)]: the array itself is reordered. *)
Definition sortInPlace (cmp : SearchResult -> SearchResult -> Z)
  (array : nat) : Run unit :=
  elements <~ read array ;; write array (sort cmp elements).

(** [xs.forEach(x => ...)], with the variables that the callback
    updates passed along. *)
Fixpoint forEach {A S : Type} (f : S -> A -> Run S) (xs : list A) (s : S)
  : Run S :=
  match xs with
  | [] => ret s
  | x :: rest => s' <~ f s x ;; forEach f rest s'
  end.

(** ** groupFranchiseResults *)

(** The [Map] from franchise key to the group's array, in insertion
    order. *)
Abbreviation groupArrays := (list (string * nat)).

(** [groups.get(key)] *)
Fixpoint get (key : string) (groups : groupArrays) : option nat :=
  match groups with
  | [] => None
  | (k, array) :: rest => if String.eqb k key then Some array else get key rest
  end.

(** One turn of [results.forEach]. *)
Definition classifyIn (searchLower : string) (standalone : nat)
  (groups : groupArrays) (result : SearchResult) : Run groupArrays :=
  match franchiseKey searchLower result with
  | Some key =>
      if truthy key then
        match get key groups with
        | Some array => _ <~ push array result ;; ret groups
        | None =>
            array <~ newArray [] ;;
            _ <~ push array result ;;
            ret (groups ++ [(key, array)])%list
        end
      else _ <~ push standalone result ;; ret groups
  | None => _ <~ push standalone result ;; ret groups
  end.

(** [Array.from(groups.entries())], each entry with the elements that
    the comparator of the sort finds in the entry's array; nothing
    writes these arrays while the entries are sorted. *)
Fixpoint entries (groups : groupArrays)
  : Run (list (string * nat * list SearchResult)) :=
  match groups with
  | [] => ret []
  | (key, array) :: rest =>
      elements <~ read array ;;
      more <~ entries rest ;;
      ret ((key, array, elements) :: more)
  end.

Definition compareEntries (a b : string * nat * list SearchResult) : Z :=
  compareGroups (fst (fst a), snd a) (fst (fst b), snd b).

(** One turn of [sortedGroups.forEach]. *)
Definition flattenIn (finalResults : nat) (_ : unit)
  (entry : string * nat * list SearchResult) : Run unit :=
  let groupResults := snd (fst entry) in
  _ <~ sortInPlace compareYears groupResults ;;
  sorted <~ read groupResults ;;
  pushAll finalResults sorted.

Definition groupFranchiseResultsIn (results : nat) (searchTerm : string)
  : Run nat :=
  standalone <~ newArray [] ;;
  let searchLower := toLowerCase searchTerm in
  elements <~ read results ;;
  groups <~ forEach (classifyIn searchLower standalone) elements [] ;;
  finalResults <~ newArray [] ;;
  found <~ entries groups ;;
  let sortedGroups := sort compareEntries found in
  _ <~ forEach (flattenIn finalResults) sortedGroups tt ;;
  rest <~ read standalone ;;
  _ <~ pushAll finalResults rest ;;
  ret finalResults.

(** ** processSearchResults *)

(** A run on the caller's array [results]; the value returned is the
    array of ranked results. *)
Definition processSearchResultsIn (host : Host) (clock : nat -> Z)
  (results : nat) (searchTerm : string) : Run nat :=
  movies <~ readRaw results ;;
  match movies with
  | [] => newArray []
  | _ =>
      scored <~ lift (mapIndexed (scoreResult host clock searchTerm) 0 movies) ;;
      scoredResults <~ newArray scored ;;
      all <~ read scoredResults ;;
      filteredResults <~
        newArray (filter (fun result => 10 <=? relevanceScore result) all) ;;
      _ <~ sortInPlace compareResults filteredResults ;;
      groupFranchiseResultsIn filteredResults searchTerm
  end.

End Runs.

(* ===================================================================== *)
(** * The Tauri backend: stream resolution and player launch *)
(* ===================================================================== *)

(** [Result<T, E>] *)
Inductive result (T E : Type) : Type :=
| Ok : T -> result T E
| Err : E -> result T E.
Arguments Ok {T E} _.
Arguments Err {T E} _.

Module RustStr.

(** A [str] is the sequence of its UTF-8 bytes, one [ascii] per byte.
    All positions computed below fall next to the ASCII bytes of the
    marker or of ['&'], so they are character boundaries. *)

Definition is_ascii_byte (c : ascii) : bool := (N_of_ascii c <? 128)%N.

Fixpoint is_ascii (s : string) : bool :=
  match s with
  | EmptyString => true
  | String c r => is_ascii_byte c && is_ascii r
  end.

Definition to_ascii_lowercase_byte (c : ascii) : ascii :=
  if ((65 <=? N_of_ascii c) && (N_of_ascii c <=? 90))%N
  then ascii_of_N (N_of_ascii c + 32) else c.

(** [s.to_lowercase()]: on ASCII text the letters A-Z move to a-z; on
    any other text the result is the one of the Unicode tables,
    [unicode_lowercase]. *)
Definition to_lowercase (unicode_lowercase : string -> string) (s : string)
  : string :=
  if is_ascii s then JsString.mapUnits to_ascii_lowercase_byte s
  else unicode_lowercase s.

Fixpoint starts_with (s pat : string) : bool :=
  match pat, s with
  | EmptyString, _ => true
  | String _ _, EmptyString => false
  | String a p', String b s' => Ascii.eqb a b && starts_with s' p'
  end.

(** [s.find(pat)]: the byte index of the first occurrence. *)
Fixpoint find (s pat : string) : option nat :=
  if starts_with s pat then Some O
  else match s with
       | EmptyString => None
       | String _ r => option_map S (find r pat)
       end.

(** [s.find(c)] for a one-byte character. *)
Fixpoint find_char (s : string) (c : ascii) : option nat :=
  match s with
  | EmptyString => None
  | String b r => if Ascii.eqb b c then Some O else option_map S (find_char r c)
  end.

Fixpoint skip (n : nat) (s : string) : string :=
  match n, s with
  | O, _ => s
  | S n', String _ r => skip n' r
  | S _, EmptyString => EmptyString
  end.

Fixpoint take (n : nat) (s : string) : string :=
  match n, s with
  | O, _ => EmptyString
  | S n', String c r => String c (take n' r)
  | S _, EmptyString => EmptyString
  end.

(** [&s[from..]] and [&s[from..to]], for positions inside [s]. *)
Definition slice_from (from : nat) (s : string) : string := skip from s.
Definition slice (from to : nat) (s : string) : string :=
  take (to - from) (skip from s).

End RustStr.

Module Backend.
Import RustStr.
Local Open Scope nat_scope.

(** ** extract_torrent_hash *)

(** The branch for a link without the marker is cut from the snippet of
    the function; this is the message TESTING_CHECKLIST.md (test 7.1)
    expects from it. *)
Definition missing_marker_error : string :=
  "Could not find btih: in magnet link".

Definition extract_torrent_hash (unicode_lowercase : string -> string)
  (magnet_link : string) : result string string :=
  match find magnet_link "btih:" with
  | Some start =>
      let hash_start := start + 5 in
      let hash_end :=
        match find_char (slice_from hash_start magnet_link) "&" with
        | Some pos => hash_start + pos
        | None => String.length magnet_link
        end in
      let hash :=
        to_lowercase unicode_lowercase (slice hash_start hash_end magnet_link) in
      Ok hash
  | None => Err missing_marker_error
  end.

(** ** find_video_file_in_hash_dir *)

(** One entry that [read_dir] yields: its file name inside the
    directory, and whether it is a regular file. *)
Record DirEntry : Type := {
  file_name : string;
  is_file : bool
}.

(** What [std::fs::read_dir] gives for a directory: an error, or the
    entries, each of which may itself be an error. *)
Definition ReadDir : Type := result (list (result DirEntry string)) string.

Definition video_extensions : list string :=
  ["mp4"; "mkv"; "avi"; "mov"; "wmv"; "flv"; "webm"; "m4v"]%string.

(** The text after the last ['.'] of [name], with the text before it. *)
Fixpoint rsplit_dot (name : string) : option (string * string) :=
  match name with
  | EmptyString => None
  | String c r =>
      match rsplit_dot r with
      | Some (before, after) => Some (String c before, after)
      | None => if Ascii.eqb c "." then Some (EmptyString, r) else None
      end
  end.

(** [Path::extension]: none when the name has no dot, or only a
    leading one. *)
Definition extension (name : string) : option string :=
  match rsplit_dot name with
  | Some (EmptyString, _) => None
  | Some (_, after) => Some after
  | None => None
  end.

Definition contains (l : list string) (s : string) : bool :=
  existsb (String.eqb s) l.

Definition is_video (unicode_lowercase : string -> string) (e : DirEntry)
  : bool :=
  is_file e &&
  match extension (file_name e) with
  | Some ext => contains video_extensions (to_lowercase unicode_lowercase ext)
  | None => false
  end.

(** *** Path::join

    [entry.path()] is [hash_dir.join(entry.file_name())], and
    [Path::join] is [PathBuf::push] on a copy.  [windows] tells the
    platform the backend is built for. *)

(** [is_sep_byte]: the slash, and on Windows the backslash as well. *)
Definition is_sep_byte (windows : bool) (c : ascii) : bool :=
  Ascii.eqb c "/" || (windows && Ascii.eqb c "\").

Definition MAIN_SEPARATOR (windows : bool) : ascii :=
  if windows then "\"%char else "/"%char.

Fixpoint last_byte (s : string) : option ascii :=
  match s with
  | EmptyString => None
  | String c EmptyString => Some c
  | String _ r => last_byte r
  end.

Definition is_ascii_alphabetic (c : ascii) : bool :=
  ((65 <=? N_of_ascii c) && (N_of_ascii c <=? 90)
   || (97 <=? N_of_ascii c) && (N_of_ascii c <=? 122))%N.

(** [parse_drive]: a drive letter and a colon lead the path. *)
Definition parse_drive (path : string) : bool :=
  match path with
  | String d (String ":" _) => is_ascii_alphabetic d
  | _ => false
  end.

(** Two separators lead the path: a UNC, device or verbatim prefix. *)
Definition leading_separators (path : string) : bool :=
  match path with
  | String a (String b _) => is_sep_byte true a && is_sep_byte true b
  | _ => false
  end.

(** [path.prefix().is_some()]: only Windows paths have a prefix. *)
Definition has_prefix (windows : bool) (path : string) : bool :=
  windows && (parse_drive path || leading_separators path).

(** A path without prefix that starts with a separator. *)
Definition rooted (windows : bool) (path : string) : bool :=
  match path with
  | String c _ => is_sep_byte windows c
  | EmptyString => false
  end.

(** [dir.join(path)].
    - A [path] that is absolute (on Unix: rooted) or has a prefix
      replaces [dir].
    - On Windows a rooted [path] without prefix keeps the drive of [dir].
    - Otherwise the separator of the platform goes between the two,
      unless [dir] is empty, ends with a separator, or is a bare drive
      such as [C:].
    Outside the model is a [dir] with a verbatim prefix that holds a
    doubled separator, whose components [push] writes out again, and the
    length of a UNC or device prefix of [dir] in the second case. *)
Definition join (windows : bool) (dir path : string) : string :=
  let need_sep :=
    match last_byte dir with
    | Some c => negb (is_sep_byte windows c)
    | None => false
    end in
  let bare_drive :=
    windows && parse_drive dir && (String.length dir =? 2) in
  let need_sep := if bare_drive then false else need_sep in
  if (if windows then has_prefix windows path else rooted windows path)
  then path
  else if windows && rooted windows path then
    ((if parse_drive dir then take 2 dir else EmptyString) ++ path)%string
  else if need_sep then
    (dir ++ String (MAIN_SEPARATOR windows) path)%string
  else (dir ++ path)%string.

Fixpoint first_video (unicode_lowercase : string -> string)
  (windows : bool) (hash_dir : string)
  (entries : list (result DirEntry string)) : option string :=
  match entries with
  | [] => None
  | Ok entry :: rest =>
      if is_video unicode_lowercase entry
      then Some (join windows hash_dir (file_name entry))
      else first_video unicode_lowercase windows hash_dir rest
  | Err _ :: rest => first_video unicode_lowercase windows hash_dir rest
  end.

(** The error returned after the loop is cut from the snippet (the
    caller's arm [Err(e) =>] shows there is one); no statement depends on
    its text. *)
Definition no_video_error : string := "No video file found".

(** [read_dir hash_dir] is the answer of the file system at the time of
    the call. *)
Definition find_video_file_in_hash_dir
  (unicode_lowercase : string -> string) (windows : bool)
  (read_dir : string -> ReadDir) (hash_dir : string)
  : result string string :=
  match read_dir hash_dir with
  | Err e => Err e
  | Ok entries =>
      match first_video unicode_lowercase windows hash_dir entries with
      | Some path => Ok path
      | None => Err no_video_error
      end
  end.

(** ** launch_external_player *)

Record Player : Type := {
  binary : string;
  args : list string
}.

(** The two candidates the sources spell out; the packaged variants
    follow them in the full list. *)
Definition native_players (media_title video_path : string) : list Player :=
  [ {| binary := "mpv";
       args := ["--force-media-title"; media_title; "--fullscreen";
                video_path]%string |};
    {| binary := "vlc";
       args := ["--meta-title"; media_title; "--fullscreen";
                "--play-and-exit"; video_path]%string |} ].

Definition no_player_error : string :=
  "No video player found. Please install MPV or VLC:
• Windows: mpv.io or videolan.org
• Steam Deck: 'sudo pacman -S mpv' or Discover app
• Linux: 'sudo apt install mpv' or 'sudo dnf install mpv'".

(** What the launcher does to the outside world. *)
Inductive launch_event : Type :=
| SpawnOk : Player -> launch_event
| SpawnFailed : Player -> launch_event
| WaitExit : Player -> launch_event.

(** Modelled from the spec: the loop of [launch_external_player] is not
    in the sources (its candidate list and its final error are).
    Candidates are attempted strictly in order; a spawn failure is not
    fatal; the first successful spawn is accepted and not waited for;
    exhausting the list is the fatal error.  [spawn p] tells whether
    spawning [p] succeeds.  The result names the accepted candidate and
    lists the events in the order they happen. *)
Fixpoint launch_external_player (spawn : Player -> bool)
  (players : list Player) : result Player string * list launch_event :=
  match players with
  | [] => (Err no_player_error, [])
  | p :: rest =>
      if spawn p then (Ok p, [SpawnOk p])
      else let '(r, events) := launch_external_player spawn rest in
           (r, SpawnFailed p :: events)
  end.

(** ** TorrentStreamer: start_stream and stop_stream *)

(** The helper processes are told apart by a process id. *)
Definition pid : Type := nat.

(** The streamer and the part of the system it acts on:
    [peerflix_process] is the stored child handle, [running] the helper
    processes that are alive, [next_pid] the id the next spawned process
    gets. *)
Record World : Type := {
  peerflix_process : option pid;
  running : list pid;
  next_pid : pid
}.

Definition initial_world : World :=
  {| peerflix_process := None; running := []; next_pid := O |}.

Inductive stream_event : Type :=
| Killed : pid -> stream_event
| Spawned : pid -> stream_event.

(** What the operating system answers during one call: whether killing
    the old helper and spawning the new one succeed. *)
Record Answers : Type := {
  kill_ok : bool;
  spawn_ok : bool
}.

Definition remove_pid (p : pid) (l : list pid) : list pid :=
  filter (fun q => negb (Nat.eqb q p)) l.

(** The texts of the two errors that [?] passes on are not in the
    sources; no statement depends on them. *)
Definition kill_error : string := "Failed to stop stream".
Definition spawn_error : string := "Failed to start peerflix".

(** The helper serves on the fixed port 8888. *)
Definition local_stream_url : string := "http://127.0.0.1:8888".

(** Modelled from the spec: of [stop_stream] the sources give the
    signature and the purpose (stop the active helper process).  It
    takes the stored handle and terminates that process; when the
    process cannot be terminated it reports an error and changes
    nothing. *)
Definition stop_stream (os : Answers) (w : World)
  : result unit string * World * list stream_event :=
  match peerflix_process w with
  | Some child =>
      if kill_ok os then
        (Ok tt,
         {| peerflix_process := None;
            running := remove_pid child (running w);
            next_pid := next_pid w |},
         [Killed child])
      else (Err kill_error, w, [])
  | None => (Ok tt, w, [])
  end.

(** [start_stream]: stop any existing stream, spawn the helper on the
    link, store its handle, return the local URL.  The pause of three
    seconds after the spawn is left out.  Calls do not overlap: the caller
    holds the lock of the streamer for the whole call. *)
Definition start_stream (os : Answers) (w : World) (magnet_link : string)
  : result string string * World * list stream_event :=
  match stop_stream os w with
  | (Err e, w1, events) => (Err e, w1, events)
  | (Ok _, w1, events) =>
      if spawn_ok os then
        let child := next_pid w1 in
        (Ok local_stream_url,
         {| peerflix_process := Some child;
            running := child :: running w1;
            next_pid := S child |},
         (events ++ [Spawned child])%list)
      else (Err spawn_error, w1, events)
  end.

(** One move of the system: a call of [start_stream], a call of
    [stop_stream], or a helper process that ends by itself. *)
Inductive step : World -> World -> Prop :=
| step_start : forall os w magnet_link r w' events,
    start_stream os w magnet_link = (r, w', events) -> step w w'
| step_stop : forall os w r w' events,
    stop_stream os w = (r, w', events) -> step w w'
| step_exit : forall w p,
    In p (running w) ->
    step w {| peerflix_process := peerflix_process w;
              running := remove_pid p (running w);
              next_pid := next_pid w |}.

Inductive reachable : World -> Prop :=
| reachable_initial : reachable initial_world
| reachable_step : forall w w', reachable w -> step w w' -> reachable w'.

(** ** play_video_external: resolving a swarm descriptor *)

Inductive MediaKind : Type :=
| LocalFile : string -> MediaKind
| RemoteEndpoint : string -> MediaKind.

Record ResolvedMedia : Type := {
  kind : MediaKind;
  degraded : bool
}.

Definition base_dir (windows : bool) : string :=
  if windows then "C:/tmp/torrent-stream" else "/tmp/torrent-stream".

(** Modelled from the spec: the bounded wait for the video file is not
    in the sources.  The directory is read at a fixed interval, at most
    [attempts] times; [read_dir_at t] is the file system at the [t]-th
    reading. *)
Fixpoint wait_for_video_file (unicode_lowercase : string -> string)
  (windows : bool) (read_dir_at : nat -> string -> ReadDir)
  (hash_dir : string) (attempts t : nat) : result string string :=
  match attempts with
  | O => Err no_video_error
  | S n =>
      match find_video_file_in_hash_dir unicode_lowercase windows
              (read_dir_at t) hash_dir with
      | Ok path => Ok path
      | Err e =>
          match n with
          | O => Err e
          | S _ => wait_for_video_file unicode_lowercase windows read_dir_at
                     hash_dir n (S t)
          end
      end
  end.

(** Modelled from the spec: Resolve for a swarm descriptor, the part of
    [play_video_external] that comes before the player is launched.  Of
    its body the sources show the hash extraction
    ([extract_torrent_hash(&stream_url)?], [base_dir.join(hash)]), the
    call [start_stream(stream_url).await?] and the fallback arm
    [Err(e) => return Ok(local_url)]. *)
Definition resolve_swarm (unicode_lowercase : string -> string)
  (windows : bool) (os : Answers)
  (read_dir_at : nat -> string -> ReadDir) (attempts : nat)
  (w : World) (stream_url : string)
  : result ResolvedMedia string * World :=
  match extract_torrent_hash unicode_lowercase stream_url with
  | Err e => (Err e, w)
  | Ok hash =>
      match start_stream os w stream_url with
      | (Err e, w1, _) => (Err e, w1)
      | (Ok local_url, w1, _) =>
          let hash_dir := join windows (base_dir windows) hash in
          match wait_for_video_file unicode_lowercase windows read_dir_at
                  hash_dir attempts O with
          | Ok path =>
              (Ok {| kind := LocalFile path; degraded := false |}, w1)
          | Err _ =>
              (Ok {| kind := RemoteEndpoint local_url; degraded := true |},
               w1)
          end
      end
  end.

End Backend.

(* ===================================================================== *)
(** * The search results view *)
(* ===================================================================== *)

Module Display.
Import JsString.

(** A search result as the view reads it.  A field is [None] when the
    object has no such property; the identifier and the name are strings
    in the data of the backend. *)
Record ResultObject : Type := {
  id : option string;
  imdb_id : option string;
  name : option string;
  title : option string;
  type : option string
}.

(** [!v] *)
Definition falsy (v : option string) : bool :=
  match v with Some s => negb (truthy s) | None => true end.

Inductive issue : Type :=
| NullResult   (* 'Result is null/undefined' *)
| NoId         (* 'No ID field' *)
| NoName.      (* 'No name/title field' *)

(** The [validationIssues] of one element; [None] is [null] or
    [undefined]. *)
Definition validationIssues (result : option ResultObject) : list issue :=
  match result with
  | None => [NullResult]
  | Some r =>
      ((if falsy (id r) && falsy (imdb_id r) then [NoId] else [])
       ++ (if falsy (name r) && falsy (title r) then [NoName] else []))%list
  end.

(** The three accumulators of the loop. *)
Record Validation : Type := {
  validResults : list (option ResultObject);
  invalidCount : nat;
  issues : list (nat * list issue)
}.

(** One turn of [results.forEach((result, index) => ...)]. *)
Definition validateOne (acc : Validation * nat)
  (result : option ResultObject) : Validation * nat :=
  let '(v, index) := acc in
  match validationIssues result with
  | [] =>
      ({| validResults := (validResults v ++ [result])%list;
          invalidCount := invalidCount v;
          issues := issues v |}, S index)
  | found =>
      ({| validResults := validResults v;
          invalidCount := S (invalidCount v);
          issues := (issues v ++ [(index, found)])%list |}, S index)
  end.

Definition validateAll (results : list (option ResultObject)) : Validation :=
  fst (fold_left validateOne results
         ({| validResults := []; invalidCount := O; issues := [] |}, O)).

Definition validateAndFilterSearchResults
  (results : list (option ResultObject)) : list (option ResultObject) :=
  validResults (validateAll results).

(** [result.type || 'movie'] on a validated element. *)
Definition contentType (result : option ResultObject) : string :=
  match result with
  | Some r =>
      match orElse (type r) (Some "movie") with
      | Some s => s
      | None => "movie"
      end
  | None => "movie"
  end.

(** [appState.searchFilter === 'movies' ? 'movie' : appState.searchFilter] *)
Definition filterType (searchFilter : string) : string :=
  if String.eqb searchFilter "movies" then "movie" else searchFilter.

(** The [filteredResults] for which [displaySearchResults] makes cards. *)
Definition filteredResults (searchFilter : string)
  (results : list (option ResultObject)) : list (option ResultObject) :=
  let validResults := validateAndFilterSearchResults results in
  if negb (String.eqb searchFilter "all") then
    filter (fun result =>
              String.eqb (contentType result) (filterType searchFilter))
      validResults
  else validResults.

End Display.

(* ===================================================================== *)
(** * The continue-watching list *)
(* ===================================================================== *)

Module ContinueWatching.

(** The properties of [content] that are read; [None] is [undefined]. *)
Record Content : Type := {
  id : option string;
  name : option string;
  poster : option string
}.

Record ContinueItem : Type := {
  item_id : option string;
  item_name : option string;
  item_poster : option string;
  content_type : string;
  progress : Z;
  last_watched : string
}.

(** [a === b] on values that are strings or [undefined]. *)
Definition strictEq (a b : option string) : bool :=
  match a, b with
  | Some x, Some y => String.eqb x y
  | None, None => true
  | _, _ => false
  end.

(** [list.findIndex(p)]; [None] is the result -1. *)
Fixpoint findIndex {A : Type} (p : A -> bool) (l : list A) : option nat :=
  match l with
  | [] => None
  | x :: r =>
      if p x then Some O
      else match findIndex p r with
           | Some i => Some (S i)
           | None => None
           end
  end.

(** [list[i] = x] for an index inside the list, which is the only way it
    is used here: the index comes from [findIndex]. *)
Fixpoint setAt {A : Type} (i : nat) (x : A) (l : list A) : list A :=
  match l, i with
  | [], _ => []
  | _ :: r, O => x :: r
  | y :: r, S j => y :: setAt j x r
  end.

(** [addToContinueWatching(content, contentType, progress)] on the list
    of [appState.continueWatching]; [now] is [new Date().toISOString()].
    The list is then saved and drawn again. *)
Definition addToContinueWatching (now : string) (content : Content)
  (contentType : string) (progress : Z) (continueWatching : list ContinueItem)
  : list ContinueItem :=
  let existingIndex :=
    findIndex (fun item => strictEq (item_id item) (id content))
      continueWatching in
  let continueItem :=
    {| item_id := id content;
       item_name := name content;
       item_poster := poster content;
       content_type := contentType;
       progress := progress;
       last_watched := now |} in
  match existingIndex with
  | Some i => setAt i continueItem continueWatching
  | None => firstn 10 (continueItem :: continueWatching)
  end.

End ContinueWatching.

(* ===================================================================== *)
(** * The stream list *)
(* ===================================================================== *)

Module Streams.
Import JsString.

(** The first [n] code units of [s]. *)
Fixpoint takeUnits (n : nat) (s : string) : string :=
  match n, s with
  | S n', String c r => String c (takeUnits n' r)
  | _, _ => EmptyString
  end.

(** The nine patterns, each a list of literal alternatives; all carry
    the [i] flag. *)
Definition qualityPatterns : list (list string) :=
  [ ["4K"; "2160p"]; ["1080p"]; ["720p"]; ["480p"]; ["CAM"]; ["TS"];
    ["HDRip"]; ["BluRay"]; ["WEBRip"] ].

(** A match of [/a|b|.../i] that starts at the first code unit of [s]:
    the alternatives are tried from left to right, and the match is the
    text of [s] itself. *)
Fixpoint matchHere (alternatives : list string) (s : string)
  : option string :=
  match alternatives with
  | [] => None
  | a :: r =>
      if Ranking.startsWithFold s a
      then Some (takeUnits (String.length a) s)
      else matchHere r s
  end.

(** [s.match(pattern)[0]]: the match at the leftmost position that has
    one; [None] is [null]. *)
Fixpoint matchFirst (alternatives : list string) (s : string)
  : option string :=
  match matchHere alternatives s with
  | Some m => Some m
  | None =>
      match s with
      | EmptyString => None
      | String _ r => matchFirst alternatives r
      end
  end.

(** The loop over the patterns. *)
Fixpoint firstQuality (patterns : list (list string)) (title : string)
  : option string :=
  match patterns with
  | [] => None
  | pattern :: r =>
      match matchFirst pattern title with
      | Some m => Some ("Quality: " ++ m)
      | None => firstQuality r title
      end
  end.

(** [extractQuality(title)]; [None] is [undefined] on the way in and
    [null] on the way out. *)
Definition extractQuality (title : option string) : option string :=
  match title with
  | None => None
  | Some t => if negb (truthy t) then None else firstQuality qualityPatterns t
  end.

(** The three messages of [showError] in the [catch] of
    [tryExternalPlayer]. *)
Inductive LaunchError : Type :=
| PlayerNotAvailable   (* 'External video player not available. ...' *)
| NoPlayerFound        (* 'No video player found. Please install: ...' *)
| LaunchFailed (errorMsg : string).
                       (* 'Failed to launch external video player: ' + errorMsg *)

(** What the user gets to see after choosing a stream. *)
Inductive Screen : Type :=
| BuiltInPlayer (src : string)   (* elements.videoPlayer.src = src *)
| TorrentStarted                 (* 'Torrent stream started!' *)
| ExternalLaunched               (* the backend started a player *)
| ErrorShown (message : LaunchError).

(** The promise of [safeInvoke('play_video_external', ...)] once it is
    settled; a rejection carries [error.message || error]. *)
Inductive Settled : Type :=
| Resolved (value : string)
| Rejected (errorMsg : string).

Definition launchError (errorMsg : string) : LaunchError :=
  if String.eqb errorMsg "undefined" || includes errorMsg "undefined"
  then PlayerNotAvailable
  else if includes errorMsg "No video player found" then NoPlayerFound
  else LaunchFailed errorMsg.

(** [tryExternalPlayer(streamUrl)] for a URL that is a string; [invoke]
    is the answer of the backend command [play_video_external]. *)
Definition tryExternalPlayer (invoke : string -> Settled)
  (streamUrl : string) : Screen :=
  let isMagnet := startsWith streamUrl "magnet:" in
  match invoke streamUrl with
  | Resolved result =>
      if isMagnet && truthy result && startsWith result "http://127.0.0.1:"
      then BuiltInPlayer result
      else if isMagnet then TorrentStarted
      else ExternalLaunched
  | Rejected errorMsg => ErrorShown (launchError errorMsg)
  end.

(** The test of [playStream] for a URL that the built-in player takes. *)
Definition directVideo (url : string) : bool :=
  truthy url
  && (startsWith url "http://" || startsWith url "https://")
  && negb (startsWith url "magnet:")
  && (includes url ".mp4" || includes url ".mkv" || includes url ".webm"
      || includes url "video").

(** [playStream(stream)] for a stream whose [url] is a string. *)
Definition playStream (invoke : string -> Settled) (url : string)
  : Screen :=
  if directVideo url then BuiltInPlayer url
  else if truthy url && startsWith url "magnet:"
       then tryExternalPlayer invoke url
       else tryExternalPlayer invoke url.

End Streams.

(* ===================================================================== *)
(** * Loading the movie shelf *)
(* ===================================================================== *)

Module Catalog.

Section LoadMovies.

(** The type of a movie of the shelf. *)
Variable Item : Type.

(** What happens on the way, in order. *)
Inductive LoadEvent : Type :=
| Invoke (retryCount : nat)          (* safeInvoke('fetch_popular_movies') *)
| Wait (delay : Z)                   (* setTimeout(..., delay) *)
| ShowMovies (movies : list Item)    (* displayContent(movies, ...) *)
| ShowError (retryCount : nat).      (* moviesError shown,
                                        appState.moviesRetryCount = retryCount *)

Definition maxRetries : nat := 2.

(** [loadMovies(retryCount)].  [fetch k] is the answer to the
    invocation made with retry count [k]: [None] when the promise is
    rejected.  Drawing the cards is taken not to throw.  The call after
    the delay is the recursive call; [fuel] bounds the number of calls,
    and [None] means that it ran out. *)
Fixpoint loadMovies (fuel : nat) (fetch : nat -> option (list Item))
  (retryCount : nat) : option (list LoadEvent) :=
  match fuel with
  | O => None
  | S fuel' =>
      let retry :=
        if (retryCount <? maxRetries)%nat then
          let delay := 2 ^ Z.of_nat retryCount * 1000 in
          match loadMovies fuel' fetch (S retryCount) with
          | Some rest => Some (Invoke retryCount :: Wait delay :: rest)
          | None => None
          end
        else Some [Invoke retryCount; ShowError retryCount] in
      match fetch retryCount with
      | Some [] => retry        (* 'No movies available ...' is thrown *)
      | Some movies => Some [Invoke retryCount; ShowMovies movies]
      | None => retry
      end
  end.

End LoadMovies.

Arguments Invoke {Item} _.
Arguments Wait {Item} _.
Arguments ShowMovies {Item} _.
Arguments ShowError {Item} _.
Arguments loadMovies {Item} _ _ _.

End Catalog.

(* ===================================================================== *)
(** * The search box *)
(* ===================================================================== *)

Module SearchBox.
Import JsString.

(** The part of [appState] that the search box uses, with the timers of
    the page that are still to fire and the searches started so far. *)
Record State : Type := {
  searchQuery : string;
  searchTimeout : option nat;         (* the id of [setTimeout], or null *)
  timers : list (nat * string);       (* pending: id and captured query *)
  next_timer : nat;                   (* the id the next [setTimeout] gets *)
  searches : list string              (* calls of [performSearch], in order *)
}.

(** Timer ids are positive, so a stored id is truthy. *)
Definition initial : State :=
  {| searchQuery := EmptyString; searchTimeout := None; timers := [];
     next_timer := 1%nat; searches := [] |}.

(** [clearTimeout(id)]: an id that is no longer pending is ignored. *)
Definition clearTimeout (id : nat) (ts : list (nat * string))
  : list (nat * string) :=
  filter (fun t => negb (Nat.eqb (fst t) id)) ts.

(** [handleSearchInput(e)], with [value] for [e.target.value]. *)
Definition handleSearchInput (value : string) (s : State) : State :=
  let query := trim value in
  if negb (truthy query) then
    {| searchQuery := query; searchTimeout := searchTimeout s;
       timers := timers s; next_timer := next_timer s;
       searches := searches s |}
  else
    let cleared :=
      match searchTimeout s with
      | Some id => clearTimeout id (timers s)
      | None => timers s
      end in
    {| searchQuery := query;
       searchTimeout := Some (next_timer s);
       timers := (cleared ++ [(next_timer s, query)])%list;
       next_timer := S (next_timer s);
       searches := searches s |}.

(** [clearSearch()] *)
Definition clearSearch (s : State) : State :=
  {| searchQuery := EmptyString;
     searchTimeout := None;
     timers := match searchTimeout s with
               | Some id => clearTimeout id (timers s)
               | None => timers s
               end;
     next_timer := next_timer s;
     searches := searches s |}.

(** The timer [id] fires: its callback calls [performSearch(query)].  A
    timer that is not pending does not fire. *)
Definition fire (id : nat) (s : State) : State :=
  match find (fun t => Nat.eqb (fst t) id) (timers s) with
  | Some (_, query) =>
      {| searchQuery := searchQuery s;
         searchTimeout := searchTimeout s;
         timers := clearTimeout id (timers s);
         next_timer := next_timer s;
         searches := (searches s ++ [query])%list |}
  | None => s
  end.

Inductive Event : Type :=
| Input (value : string)
| ClearClicked
| TimerFires (id : nat).

Definition step (s : State) (e : Event) : State :=
  match e with
  | Input value => handleSearchInput value s
  | ClearClicked => clearSearch s
  | TimerFires id => fire id s
  end.

Definition run (events : list Event) : State := fold_left step events initial.

End SearchBox.

(* ===================================================================== *)
(** * Keyboard navigation *)
(* ===================================================================== *)

Module Navigation.

(** A card or a stream item: a DOM element, known by its identity. *)
Definition element : Type := nat.

(** A shelf of the page: whether its section is hidden, and its cards
    that are not hidden, in document order.  The page has five:
    continue watching, movies, series, anime and search results. *)
Record Grid : Type := {
  hidden : bool;
  cards : list element
}.

(** The [sections] that [handleKeyboard] collects: the card lists of the
    shelves that are shown and have a card. *)
Definition sections (grids : list Grid) : list (list element) :=
  map cards
    (filter (fun g => negb (hidden g)
                      && (0 <? Z.of_nat (List.length (cards g)))) grids).

(** [list.indexOf(x)]; [None] is -1. *)
Fixpoint indexOf (x : element) (l : list element) : option nat :=
  match l with
  | [] => None
  | y :: r =>
      if Nat.eqb y x then Some O
      else match indexOf x r with
           | Some i => Some (S i)
           | None => None
           end
  end.

(** The loop that looks for the focused card, from section [i] on. *)
Fixpoint locateFrom (i : nat) (rest : list (list element))
  (focusedCard : element) : option (nat * nat) :=
  match rest with
  | [] => None
  | section :: r =>
      match indexOf focusedCard section with
      | Some cardIndex => Some (i, cardIndex)
      | None => locateFrom (S i) r focusedCard
      end
  end.

(** [currentSectionIndex] and [currentCardIndex]: both 0 when nothing is
    focused or the focused element is not a card of a section. *)
Definition locate (secs : list (list element))
  (focusedCard : option element) : nat * nat :=
  match focusedCard with
  | Some c =>
      match locateFrom O secs c with
      | Some found => found
      | None => (O, O)
      end
  | None => (O, O)
  end.

Inductive Key : Type := ArrowLeft | ArrowRight | ArrowUp | ArrowDown.

(** What a key press does to the focus.  [TypeError] stands for a press
    that reads a card or a section that is not there: [newCard.focus()]
    on [undefined]. *)
Inductive Focus : Type :=
| Unchanged
| FocusOn (newCard : element)
| TypeError.

Definition focusOn (newCard : option element) : Focus :=
  match newCard with
  | Some c => FocusOn c
  | None => TypeError
  end.

(** The arrow keys of [handleKeyboard], on the page behind the modal and
    outside the search input. *)
Definition handleKeyboard (key : Key) (grids : list Grid)
  (focusedCard : option element) : Focus :=
  let secs := sections grids in
  match secs with
  | [] => Unchanged
  | _ =>
      let '(currentSectionIndex, currentCardIndex) := locate secs focusedCard in
      match key with
      | ArrowLeft =>
          if (0 <? currentCardIndex)%nat then
            match nth_error secs currentSectionIndex with
            | Some section => focusOn (nth_error section (currentCardIndex - 1))
            | None => TypeError
            end
          else Unchanged
      | ArrowRight =>
          match nth_error secs currentSectionIndex with
          | Some section =>
              if Z.of_nat currentCardIndex
                 <? Z.of_nat (List.length section) - 1
              then focusOn (nth_error section (currentCardIndex + 1))
              else Unchanged
          | None => TypeError
          end
      | ArrowUp =>
          if (0 <? currentSectionIndex)%nat then
            match nth_error secs (currentSectionIndex - 1) with
            | Some newSection =>
                let newCardIndex :=
                  Z.min (Z.of_nat currentCardIndex)
                        (Z.of_nat (List.length newSection) - 1) in
                if newCardIndex <? 0 then TypeError
                else focusOn (nth_error newSection (Z.to_nat newCardIndex))
            | None => TypeError
            end
          else Unchanged
      | ArrowDown =>
          if Z.of_nat currentSectionIndex <? Z.of_nat (List.length secs) - 1
          then
            match nth_error secs (currentSectionIndex + 1) with
            | Some newSection =>
                let newCardIndex :=
                  Z.min (Z.of_nat currentCardIndex)
                        (Z.of_nat (List.length newSection) - 1) in
                if newCardIndex <? 0 then TypeError
                else focusOn (nth_error newSection (Z.to_nat newCardIndex))
            | None => TypeError
            end
          else Unchanged
      end
  end.

(** [list.indexOf(x)] as a number. *)
Definition indexOfZ (x : option element) (l : list element) : Z :=
  match x with
  | Some e =>
      match indexOf e l with
      | Some i => Z.of_nat i
      | None => -1
      end
  | None => -1
  end.

(** The up and down keys of [handleModalKeyboard]; [focused] is
    [document.activeElement] when it is an element the model knows. *)
Definition handleModalKeyboard (key : Key) (streamItems : list element)
  (focused : option element) : Focus :=
  match key with
  | ArrowUp =>
      if 0 <? Z.of_nat (List.length streamItems) then
        let index := indexOfZ focused streamItems in
        let newIndex := Z.max 0 (index - 1) in
        focusOn (nth_error streamItems (Z.to_nat newIndex))
      else Unchanged
  | ArrowDown =>
      if 0 <? Z.of_nat (List.length streamItems) then
        let index := indexOfZ focused streamItems in
        let newIndex := Z.min (Z.of_nat (List.length streamItems) - 1)
                              (index + 1) in
        if newIndex <? 0 then TypeError
        else focusOn (nth_error streamItems (Z.to_nat newIndex))
      else Unchanged
  | _ => Unchanged
  end.

End Navigation.

(* ===================================================================== *)
(** * Magnet links and the first player launcher *)
(* ===================================================================== *)

Module AddonClient.

(** [parts.join(sep)] *)
Fixpoint join (sep : string) (parts : list string) : string :=
  match parts with
  | [] => EmptyString
  | [p] => p
  | p :: rest => p ++ sep ++ join sep rest
  end.

(** [format!("magnet:?xt=urn:btih:{}&tr={}", info_hash,
    trackers.join("&tr="))]: the link made from the [infoHash] of an
    addon answer. *)
Definition magnet (info_hash : string) (trackers : list string) : string :=
  "magnet:?xt=urn:btih:" ++ info_hash ++ "&tr=" ++ join "&tr=" trackers.

End AddonClient.

Module FirstLauncher.

(** The players of the first [play_video_external], in order of
    preference. *)
Definition players : list string := ["mpv"; "vlc"; "xdg-open"].

Definition no_player_error : string :=
  "No video player found. Please install mpv or vlc.".

(** The loop over the players.  [spawn player] tells whether
    [shell.command(player).arg(&stream_url).spawn()] is [Ok]; the players
    tried are recorded in order. *)
Fixpoint try_players (spawn : string -> bool) (candidates : list string)
  : list string * result string string :=
  match candidates with
  | [] => ([], Err no_player_error)
  | player :: rest =>
      if spawn player
      then ([player], Ok ("Launched " ++ player ++ " with stream"))
      else let '(tried, answer) := try_players spawn rest in
           (player :: tried, answer)
  end.

(** [play_video_external(app, stream_url)] of the first version: the
    players it tried and its answer. *)
Definition play_video_external (spawn : string -> bool)
  : list string * result string string :=
  try_players spawn players.

End FirstLauncher.

(* ===================================================================== *)
(** * Vocabulary of the statements *)
(* ===================================================================== *)

Module Statements.
Import JsString JsNumber Ranking Backend.

(** ** Ranking *)

(** The scores that the loop over the search terms can leave. *)
Definition tier (z : Z) : Prop :=
  z = 0 \/ z = 70 \/ z = 80 \/ z = 90 \/ z = 100.

(** The filter of step 4. *)
Definition keeps (r : SearchResult) : bool := 10 <=? relevanceScore r.

(** A query that hands no syntax character to the pattern constructor. *)
Definition plainQuery (searchTerm : string) : Prop :=
  RegExp.hasSyntaxChar (toLowerCase (trim (toLowerCase searchTerm))) = false.

(** A comparator does not place [x] after [y]. *)
Definition notAfter {A : Type} (cmp : A -> A -> Z) (x y : A) : Prop :=
  (0 <? cmp x y) = false.

(** A Number that is not NaN and carries the sign [s]. *)
Definition signed (s : bool) (x : number) : Prop :=
  match x with
  | S754_nan => False
  | S754_zero s' | S754_infinity s' | S754_finite s' _ _ => s' = s
  end.

(** A Number that is a zero, positive, or +Infinity. *)
Definition nonneg (x : number) : Prop :=
  match x with
  | S754_nan => False
  | S754_zero _ => True
  | S754_infinity s | S754_finite s _ _ => s = false
  end.

(** [Number.isFinite(x)] *)
Definition finiteNumber (x : number) : bool :=
  match x with
  | S754_zero _ | S754_finite _ _ _ => true
  | _ => false
  end.

(** [x >= y] *)
Definition numberGe (x y : number) : Prop := SFleb y x = true.

(** The order of step 6 on neighbours: a higher relevance score first,
    and at equal relevance a secondary score that is not lower. *)
Definition rankedOrder (a b : SearchResult) : Prop :=
  relevanceScore b < relevanceScore a
  \/ (relevanceScore a = relevanceScore b
      /\ numberGe (secondaryScore a) (secondaryScore b)).

(** The result has a franchise key for the query. *)
Definition franchised (searchTerm : string) (r : SearchResult) : bool :=
  match franchiseKey (toLowerCase searchTerm) r with
  | Some key => truthy key
  | None => false
  end.

(** An item as a result without scores; [franchiseKey] reads nothing
    but the item of a result. *)
Definition bare (m : Movie) : SearchResult :=
  {| item := m; relevanceScore := 0; secondaryScore := posZero;
     originalIndex := O |}.

(** The item has a franchise key for the query. *)
Definition franchisedItem (searchTerm : string) (m : Movie) : bool :=
  franchised searchTerm (bare m).

(** The year of a result, as [parseInt] reads it. *)
Definition yearOf (r : SearchResult) : number :=
  parseIntField (year (item r)).

(** The year is known: [parseInt] reads a number other than NaN and 0
    from it. *)
Definition knownYear (m : Movie) : Prop :=
  toBoolean (parseIntField (year m)) = true.

(** Neighbours in ascending year order. *)
Definition ascendingYear (a b : SearchResult) : Prop :=
  numberGe (yearOf b) (yearOf a).

(** Neighbours in ascending order of the key of the year sort, in which
    an unknown year counts as 9999. *)
Definition ascendingYearKey (a b : SearchResult) : Prop :=
  numberGe (yearKey b) (yearKey a).

(** ** Sample data *)

(** A host for the examples; their queries are plain and never reach
    it. *)
Definition sampleHost : Host :=
  {| regexpCompile := fun _ => None; prototypeText := fun _ => None |}.

(** A clock that shows the same year throughout. *)
Definition steadyClock (y : Z) : nat -> Z := fun _ => y.

(** An item of which only the name is known. *)
Definition named (n : string) : Movie :=
  {| id := "tt0"; name := Some n; title := None; year := None;
     imdb_rating := None; content_type := None |}.

(** An item with a name, a year, a rating and a kind. *)
Definition entry (i n y r k : string) : Movie :=
  {| id := i; name := Some n; title := None; year := Some y;
     imdb_rating := Some r; content_type := Some k |}.

Definition carsA : Movie := entry "tt0317219" "Cars" "2006" "7.2" "movie".
Definition carsB : Movie := entry "tt1216475" "Cars 2" "2011" "6.2" "movie".
Definition carsC : Movie := entry "tt3606752" "Cars 3" "2017" "6.7" "movie".
Definition carsD : Movie :=
  entry "tt9000001" "Race Cars Weekly" "2020" "5.0" "series".

Definition carsCatalog : list Movie :=
  [ carsA; carsB; carsC; carsD;
    entry "tt0111161" "The Shawshank Redemption" "1994" "9.3" "movie" ].

Definition itCatalog : list Movie :=
  [ entry "tt1396484" "It" "2017" "7.3" "movie";
    entry "tt3235888" "It Follows" "2014" "6.8" "movie" ].

(** ** Backend *)

(** [pat] occurs in [s] at byte index [n]. *)
Definition occursAt (pat s : string) (n : nat) : Prop :=
  exists pre suf, s = (pre ++ pat ++ suf)%string /\ String.length pre = n.

(** Unicode tables for the examples, which are ASCII and never consult
    them. *)
Definition asciiOnly : string -> string := fun s => s.

(** No regular file of the directory reading has one of the video
    extensions; a reading that fails shows no file at all. *)
Definition noVideoFile (unicode_lowercase : string -> string) (rd : ReadDir)
  : Prop :=
  match rd with
  | Err _ => True
  | Ok entries =>
      forall e ext,
        In (Ok e) entries -> is_file e = true ->
        extension (file_name e) = Some ext ->
        ~ In (RustStr.to_lowercase unicode_lowercase ext) video_extensions
  end.

(** The outcome of Resolve when the file was not found: the helper's own
    endpoint, marked as degraded. *)
Definition degradedOutcome : ResolvedMedia :=
  {| kind := RemoteEndpoint local_stream_url; degraded := true |}.

(** A cache directory that holds a text file and a sub-directory whose
    name ends in a video extension, but no video file. *)
Definition noVideoYet : nat -> string -> ReadDir :=
  fun _ _ =>
    Ok [ Ok {| file_name := "readme.txt"; is_file := true |};
         Ok {| file_name := "sample.mkv"; is_file := false |};
         Err "permission denied"%string ].

(** Killing and spawning both succeed. *)
Definition allGood : Answers := {| kill_ok := true; spawn_ok := true |}.

(** Only the second native candidate can be spawned. *)
Definition onlyVlc (p : Player) : bool := String.eqb (binary p) "vlc".

(** The helper that runs is the one whose handle is stored, and handles
    are older than the next process id. *)
Definition singleFlight (w : World) : Prop :=
  (running w = []
   \/ exists p, running w = [p] /\ peerflix_process w = Some p)
  /\ (forall p, peerflix_process w = Some p -> (p < next_pid w)%nat).

(** The world after one successful [start_stream]. *)
Definition oneStream : World :=
  {| peerflix_process := Some O; running := [O]; next_pid := 1%nat |}.

(** ** Further vocabulary *)


(** The name of the item, as the scoring reads it. *)
Definition scoredTitle (m : Movie) : string :=
  trim (toLowerCase (displayName m)).

(** The whole of [s] matches [r]. *)
Fixpoint fullMatch (r : RegExp.regex) (s : string) : bool :=
  match s with
  | EmptyString => RegExp.nullable r
  | String c s' => fullMatch (RegExp.deriv c r) s'
  end.

(** Every code unit of [s] passes [p]. *)
Fixpoint unitsAll (p : ascii -> bool) (s : string) : bool :=
  match s with
  | EmptyString => true
  | String c r => p c && unitsAll p r
  end.

(** A code unit that [toLowerCase] leaves alone. *)
Definition lowerFixed (c : ascii) : bool := Ascii.eqb (lowerUnit c) c.

(** The code units U+0000..U+00FF. *)
Definition allUnits : list ascii := map ascii_of_nat (seq 0 256).

(** The result has the franchise key [key] for the query. *)
Definition keyIs (searchTerm key : string) (r : SearchResult) : bool :=
  match franchiseKey (toLowerCase searchTerm) r with
  | Some k => String.eqb k key
  | None => false
  end.

(** What the grouping pass holds after the results [seen]: one group for
    each key met so far, with the results of that key in their order. *)
Definition groupsOf (searchTerm : string) (groups : groupMap)
  (seen : list SearchResult) : Prop :=
  NoDup (map fst groups)
  /\ (forall k g, In (k, g) groups ->
        truthy k = true /\ g <> [] /\ g = filter (keyIs searchTerm k) seen)
  /\ (forall k, truthy k = true -> ~ In k (map fst groups) ->
        filter (keyIs searchTerm k) seen = []).

(** ** The search results view *)

(** The element is an object with an identifier and a name. *)
Definition wellFormedResult (result : option Display.ResultObject) : bool :=
  match result with
  | Some r =>
      negb (Display.falsy (Display.id r) && Display.falsy (Display.imdb_id r))
      && negb (Display.falsy (Display.name r)
               && Display.falsy (Display.title r))
  | None => false
  end.

(** The kinds for which the view has a tab. *)
Definition tabbedKind (result : option Display.ResultObject) : bool :=
  existsb (String.eqb (Display.contentType result))
    ["movie"; "series"; "anime"].

Definition sampleResult (i n k : string) : option Display.ResultObject :=
  Some {| Display.id := Some i; Display.imdb_id := None;
          Display.name := Some n; Display.title := None;
          Display.type := if truthy k then Some k else None |}.

(** ** The continue-watching list *)

(** The entry that a selection writes. *)
Definition entryOf (now : string) (content : ContinueWatching.Content)
  (contentType : string) (progress : Z) : ContinueWatching.ContinueItem :=
  {| ContinueWatching.item_id := ContinueWatching.id content;
     ContinueWatching.item_name := ContinueWatching.name content;
     ContinueWatching.item_poster := ContinueWatching.poster content;
     ContinueWatching.content_type := contentType;
     ContinueWatching.progress := progress;
     ContinueWatching.last_watched := now |}.

(** No two entries for the same identifier, and at most ten entries. *)
Definition tidy (l : list ContinueWatching.ContinueItem) : Prop :=
  NoDup (map ContinueWatching.item_id l) /\ (List.length l <= 10)%nat.

Definition sampleContent (i n : string) : ContinueWatching.Content :=
  {| ContinueWatching.id := Some i; ContinueWatching.name := Some n;
     ContinueWatching.poster := None |}.

(** ** The stream list *)

(** [w] occurs in [s], letter case aside. *)
Fixpoint includesFold (s w : string) : bool :=
  Ranking.startsWithFold s w ||
  match s with
  | EmptyString => false
  | String _ r => includesFold r w
  end.

(** No alternative of the pattern occurs in [s]. *)
Definition absent (s : string) (pattern : list string) : Prop :=
  forall w, In w pattern -> includesFold s w = false.

(** [m] is the word [w] in some letter case. *)
Definition spells (m w : string) : Prop :=
  String.length m = String.length w /\ Ranking.startsWithFold m w = true.

(** ** Loading the movie shelf *)

(** The answer does not give a shelf: rejected, or an empty list. *)
Definition failed {Item : Type} (answer : option (list Item)) : bool :=
  match answer with
  | Some (_ :: _) => false
  | _ => true
  end.

(** The number of backend invocations in a trace. *)
Fixpoint invocations {Item : Type} (trace : list (Catalog.LoadEvent Item))
  : nat :=
  match trace with
  | [] => O
  | Catalog.Invoke _ :: r => S (invocations r)
  | _ :: r => invocations r
  end.

(** The delays of a trace, in order. *)
Fixpoint waits {Item : Type} (trace : list (Catalog.LoadEvent Item))
  : list Z :=
  match trace with
  | [] => []
  | Catalog.Wait d :: r => d :: waits r
  | _ :: r => waits r
  end.

(** What the trace holds for the first [k] attempts when all of them
    fail: each invocation, then the wait that follows it - 1000 ms after
    the first failure, 2000 ms after the second. *)
Definition retried {Item : Type} (k : nat) : list (Catalog.LoadEvent Item) :=
  firstn (2 * k)
    [Catalog.Invoke 0; Catalog.Wait 1000; Catalog.Invoke 1; Catalog.Wait 2000].

(** ** The search box *)

(** The queries typed: the trimmed text of every input that is not
    blank, in order. *)
Fixpoint typed (events : list SearchBox.Event) : list string :=
  match events with
  | [] => []
  | SearchBox.Input value :: r =>
      if truthy (trim value) then trim value :: typed r else typed r
  | _ :: r => typed r
  end.

(** The queries of the searches that are waiting for their timer. *)
Definition pendingQueries (s : SearchBox.State) : list string :=
  map snd (SearchBox.timers s).

(** At most one timer is pending, and it is the one whose id is
    stored. *)
Definition oneTimer (s : SearchBox.State) : Prop :=
  SearchBox.timers s = []
  \/ exists id query,
       SearchBox.timers s = [(id, query)]
       /\ SearchBox.searchTimeout s = Some id.

(** ** Magnet links *)

(** A digit or one of the letters a-f. *)
Definition lowerHexByte (c : ascii) : bool :=
  ((48 <=? N_of_ascii c) && (N_of_ascii c <=? 57)
   || (97 <=? N_of_ascii c) && (N_of_ascii c <=? 102))%N.

(** An ASCII capital letter. *)
Definition upperByte (c : ascii) : bool :=
  ((65 <=? N_of_ascii c) && (N_of_ascii c <=? 90))%N.



(** ** Ties of the ranking *)

(** Neighbours with the same relevance score and the same secondary
    score stand in the order of the raw list. *)
Definition tieOrder (a b : SearchResult) : Prop :=
  relevanceScore a = relevanceScore b ->
  strictNe (secondaryScore b) (secondaryScore a) = false ->
  (originalIndex a < originalIndex b)%nat.

(** ** Arrays across runs *)

(** A store in which the caller's array 0 holds the catalogue and an
    earlier search has left an array behind. *)
Definition searchStore : Runs.Store :=
  {| Runs.rawArrays := [carsCatalog];
     Runs.resultArrays := [[]] |}.

(** The arrays below [base] and the caller's arrays are in [after] what
    they were in [before]. *)
Definition kept (base : nat) (before after : Runs.Store) : Prop :=
  Runs.rawArrays after = Runs.rawArrays before
  /\ forall array, (array < base)%nat ->
       Runs.stored after array = Runs.stored before array.

(** The group arrays hold, key by key, the groups [contents]. *)
Fixpoint holds (store : Runs.Store) (groups : Runs.groupArrays)
  (contents : Ranking.groupMap) : Prop :=
  match groups, contents with
  | [], [] => True
  | (key, array) :: groups', (key', elements) :: contents' =>
      key = key' /\ Runs.stored store array = Some elements
      /\ holds store groups' contents'
  | _, _ => False
  end.

(** Where the loop over the sorted results stands: the arrays made by
    the run so far hold the groups and the standalone results [acc]. *)
Definition grouping (base standalone : nat) (start store : Runs.Store)
  (groups : Runs.groupArrays)
  (acc : Ranking.groupMap * list Ranking.SearchResult) : Prop :=
  kept base start store
  /\ (base <= standalone)%nat
  /\ Runs.stored store standalone = Some (snd acc)
  /\ holds store groups (fst acc)
  /\ NoDup (map snd groups)
  /\ Forall (fun e => (base <= snd e)%nat /\ snd e <> standalone) groups.

(** The array of an entry of the sorted groups, and the entry as the
    comparator sees it. *)
Definition arrayOf (entry : string * nat * list Ranking.SearchResult) : nat :=
  snd (fst entry).

Definition groupOf (entry : string * nat * list Ranking.SearchResult)
  : string * list Ranking.SearchResult :=
  (fst (fst entry), snd entry).


End Statements.
Import Statements.

(* ===================================================================== *)
(** * Properties of the ranking pipeline *)
(* ===================================================================== *)

Section Readings.
Import JsString JsNumber Ranking.

(** The built-in functions of the embedding on a few inputs. *)

Example trim_both_ends : trim "  The Cars	" = "The Cars".
Proof. vm_compute. reflexivity. Qed.

Example parseInt_year : parseInt "2006-2010" = ofZ 2006.
Proof. vm_compute. reflexivity. Qed.

Example parseInt_hex : parseInt " 0x7E9" = ofZ 2025.
Proof. vm_compute. reflexivity. Qed.

Example parseInt_none : parseInt "N/A" = NaN.
Proof. vm_compute. reflexivity. Qed.

Example parseFloat_rating :
  parseFloat "7.5/10" = S754_finite false 8444249301319680 (-50).
Proof. vm_compute. reflexivity. Qed.

Example parseFloat_rounds_to_nearest :
  add (parseFloat "0.1") (parseFloat "0.2") = parseFloat "0.30000000000000004"
  /\ parseFloat "0.30000000000000004" <> parseFloat "0.3".
Proof. vm_compute. split; [reflexivity | discriminate]. Qed.

Example secondary_score_sample :
  getSecondaryScore 2025 (entry "tt0" "Cars" "2020" "7.5" "movie") = ofZ 27.
Proof. vm_compute. reflexivity. Qed.

Example plural_and_article :
  preprocessSearchTerm sampleHost " The Cars " = TermString "car"
  /\ preprocessSearchTerm sampleHost "An  Apple" = TermString "apple".
Proof. vm_compute. split; reflexivity. Qed.

End Readings.

Section StringFacts.
Import JsString.

Lemma startsWith_append (s p q : string) :
  startsWith s (p ++ q) = true -> startsWith s p = true.
Proof.
  revert s; induction p as [|a p IH]; intros s H; [now destruct s|].
  destruct s as [|b s]; simpl in *; [discriminate|].
  apply andb_true_iff in H as [Hab H].
  rewrite Hab; simpl; now apply IH.
Qed.

Lemma startsWith_refl (s : string) : startsWith s s = true.
Proof.
  induction s as [|c s IH]; simpl; [reflexivity|].
  now rewrite Ascii.eqb_refl.
Qed.

End StringFacts.

Section BaseScore.
Import JsString Ranking.

(** When the test for ["{term} "] is reached, the test for the bare term
    has failed, and then so does this one. *)
Lemma word_boundary_start_dead (title : string) (t : term) :
  startsWith title (termText t ++ " ")
    && negb (startsWith title (termText t)) = false.
Proof.
  destruct (startsWith title (termText t ++ " ")) eqn:E; [|reflexivity].
  now rewrite (startsWith_append _ _ _ E).
Qed.

Lemma tier_max (a b : Z) : tier a -> tier b -> tier (Z.max a b).
Proof. intros Ha Hb; destruct (Z.max_spec a b) as [[_ ->]|[_ ->]]; assumption. Qed.

Lemma scoreTerm_tier (title : string) (score : Z) (t : term) :
  tier score -> tier (scoreTerm title score t).
Proof.
  intros Hs; unfold scoreTerm.
  pose proof (word_boundary_start_dead title t) as Hdead.
  destruct (strictEqual title t);
    [apply tier_max; [assumption | unfold tier; lia]|].
  destruct (startsWith title (termText t)) eqn:E1;
    [apply tier_max; [assumption | unfold tier; lia]|].
  destruct (startsWith title ("the " ++ termText t));
    [apply tier_max; [assumption | unfold tier; lia]|].
  destruct (startsWith title (termText t ++ " "));
    [discriminate Hdead|].
  destruct (includes title (" " ++ termText t ++ " "));
    [apply tier_max; [assumption | unfold tier; lia]|].
  destruct (includes title (termText t));
    [apply tier_max; [assumption | unfold tier; lia]|].
  assumption.
Qed.

Lemma fold_scoreTerm_tier (title : string) (terms : list term) :
  forall score, tier score -> tier (fold_left (scoreTerm title) terms score).
Proof.
  induction terms as [|t terms IH]; intros score Hs; simpl; [assumption|].
  apply IH, scoreTerm_tier, Hs.
Qed.

(** C10.  Before the franchise boost the relevance score is one of 0,
    70, 80, 90 and 100, for every item, query and host; the 85-point
    test for a name that starts with the term and a space can never
    succeed where it stands, because such a name already passes the
    90-point test for the bare term, which comes first. *)
Theorem base_score_tiers :
  forall (host : Host) (movie : Movie) (searchTerm : string),
    tier (baseScore host movie searchTerm)
    /\ (forall (title : string) (t : term),
          startsWith title (termText t ++ " ")
            && negb (startsWith title (termText t)) = false).
Proof.
  intros host movie searchTerm; split.
  - unfold baseScore; apply fold_scoreTerm_tier; unfold tier; lia.
  - exact word_boundary_start_dead.
Qed.

End BaseScore.


Section FranchiseBoost.
Import JsString RegExp Ranking.

(** A query without syntax characters never makes the pattern
    constructor throw. *)
Lemma detectFranchiseBoost_returns (host : Host) (title searchTerm : string) :
  hasSyntaxChar (toLowerCase searchTerm) = false ->
  exists boost, detectFranchiseBoost host title searchTerm = Returns boost
                /\ (boost = 0 \/ boost = 15).
Proof.
  intros H; unfold detectFranchiseBoost, newRegExp; simpl; rewrite H; simpl.
  eexists; split; [reflexivity|].
  match goal with |- context [if ?b then _ else _] => destruct b end; auto.
Qed.

Lemma isSyntaxChar_lowerUnit (c : ascii) :
  isSyntaxChar c = false -> isSyntaxChar (lowerUnit c) = false.
Proof.
  destruct c as [[] [] [] [] [] [] [] []]; vm_compute; intros H;
    try reflexivity; discriminate H.
Qed.

Lemma hasSyntaxChar_toLowerCase (s : string) :
  hasSyntaxChar s = false -> hasSyntaxChar (toLowerCase s) = false.
Proof.
  unfold toLowerCase.
  induction s as [|c s IH]; simpl; [reflexivity|]. intros H.
  apply orb_false_iff in H as [Hc Hs].
  now rewrite (isSyntaxChar_lowerUnit c Hc), (IH Hs).
Qed.

Lemma hasSyntaxChar_trimStart (s : string) :
  hasSyntaxChar s = false -> hasSyntaxChar (trimStart s) = false.
Proof.
  induction s as [|c s IH]; simpl; [reflexivity|]. intros H.
  destruct (isWhiteSpace c); [|exact H].
  apply orb_false_iff in H as [_ Hs]. now apply IH.
Qed.

Lemma hasSyntaxChar_trimEnd (s : string) :
  hasSyntaxChar s = false -> hasSyntaxChar (trimEnd s) = false.
Proof.
  induction s as [|c s IH]; simpl; [reflexivity|]. intros H.
  apply orb_false_iff in H as [Hc Hs]. specialize (IH Hs).
  destruct (trimEnd s) as [|b r].
  - destruct (isWhiteSpace c); simpl; [reflexivity | now rewrite Hc].
  - change (isSyntaxChar c || hasSyntaxChar (String b r) = false).
    now rewrite Hc, IH.
Qed.

(** A query in which no syntax character occurs is plain. *)
Lemma plainQuery_of_no_syntax (searchTerm : string) :
  hasSyntaxChar searchTerm = false -> plainQuery searchTerm.
Proof.
  intros H. unfold plainQuery, trim.
  now apply hasSyntaxChar_toLowerCase, hasSyntaxChar_trimEnd,
    hasSyntaxChar_trimStart, hasSyntaxChar_toLowerCase.
Qed.

(** C3.  The name "cars 2" does not receive the boost for the term
    "cars": the first pattern is the text "carss+d+", which asks for the
    letters s and d where white space and a digit were meant, so the
    score of "Cars 2" stays at the 90 points of the starts-with test
    instead of 105. *)
Theorem cars_2_gets_no_boost :
  forall host : Host,
    detectFranchiseBoost host "cars 2" "cars" = Returns 0
    /\ calculateRelevanceScore host (named "Cars 2") "cars" = Returns 90
    /\ detectFranchiseBoost host "carssd" "cars" = Returns 15.
Proof. intros host; repeat split; reflexivity. Qed.

End FranchiseBoost.

Section SortFacts.
Import JsArray.
Context {A : Type}.
Variable cmp : A -> A -> Z.

Lemma insert_perm (x : A) (l : list A) : Permutation (insert cmp x l) (x :: l).
Proof.
  induction l as [|y t IH]; simpl; [apply Permutation_refl|].
  destruct (0 <? cmp x y); [|apply Permutation_refl].
  eapply perm_trans; [apply perm_skip, IH | apply perm_swap].
Qed.

Lemma sort_perm (l : list A) : Permutation (sort cmp l) l.
Proof.
  induction l as [|x l IH]; simpl; [constructor|].
  eapply perm_trans; [apply insert_perm | now apply perm_skip].
Qed.

(** The comparator never puts each of two elements after the other. *)
Hypothesis cmp_antisym :
  forall x y, (0 <? cmp x y) = true -> notAfter cmp y x.

Lemma insert_hd (x y : A) (l : list A) :
  notAfter cmp y x -> HdRel (notAfter cmp) y l -> HdRel (notAfter cmp) y (insert cmp x l).
Proof.
  intros Hyx Hl; destruct l as [|z t]; simpl; [now constructor|].
  destruct (0 <? cmp x z); constructor; [now inversion Hl | assumption].
Qed.

Lemma insert_sorted (x : A) (l : list A) :
  Sorted (notAfter cmp) l -> Sorted (notAfter cmp) (insert cmp x l).
Proof.
  induction l as [|y t IH]; intros Hs; simpl; [repeat constructor|].
  inversion Hs as [|? ? Ht Hhd]; subst.
  destruct (0 <? cmp x y) eqn:E.
  - constructor; [now apply IH | apply insert_hd; [now apply cmp_antisym | assumption]].
  - constructor; [assumption | now constructor].
Qed.

Lemma sort_sorted (l : list A) : Sorted (notAfter cmp) (sort cmp l).
Proof.
  induction l as [|x l IH]; simpl; [constructor | now apply insert_sorted].
Qed.

End SortFacts.

Section GroupingFacts.
Import JsString JsArray Ranking.

Lemma pushGroup_perm (key : string) (r : SearchResult) (groups : groupMap) :
  Permutation (flat_map snd (pushGroup key r groups))
              (flat_map snd groups ++ [r]).
Proof.
  induction groups as [|[k g] rest IH]; simpl; [apply Permutation_refl|].
  destruct (String.eqb k key); simpl.
  - rewrite <- !app_assoc. apply Permutation_app_head, Permutation_app_comm.
  - rewrite <- app_assoc. now apply Permutation_app_head.
Qed.

Lemma classify_perm (searchLower : string) (r : SearchResult)
  (groups : groupMap) (standalone : list SearchResult) :
  let '(groups', standalone') := classify searchLower (groups, standalone) r in
  Permutation (flat_map snd groups' ++ standalone')
              ((flat_map snd groups ++ standalone) ++ [r]).
Proof.
  unfold classify.
  assert (Hkeep : Permutation (flat_map snd groups ++ standalone ++ [r])
                     ((flat_map snd groups ++ standalone) ++ [r]))
    by (rewrite app_assoc; apply Permutation_refl).
  destruct (franchiseKey searchLower r) as [key|]; [|exact Hkeep].
  destruct (truthy key); [|exact Hkeep].
  eapply perm_trans; [apply Permutation_app_tail, pushGroup_perm|].
  rewrite <- !app_assoc. apply Permutation_app_head, Permutation_app_comm.
Qed.

Lemma fold_classify_perm (searchLower : string) (l : list SearchResult) :
  forall groups standalone groups' standalone',
    fold_left (classify searchLower) l (groups, standalone)
      = (groups', standalone') ->
    Permutation (flat_map snd groups' ++ standalone')
                ((flat_map snd groups ++ standalone) ++ l).
Proof.
  induction l as [|r l IH]; intros groups standalone groups' standalone' H;
    cbn [fold_left] in H.
  - injection H as <- <-. rewrite app_nil_r. apply Permutation_refl.
  - pose proof (classify_perm searchLower r groups standalone) as Hstep.
    destruct (classify searchLower (groups, standalone) r) as [g1 s1].
    eapply perm_trans; [exact (IH _ _ _ _ H)|].
    eapply perm_trans; [apply Permutation_app_tail, Hstep|].
    rewrite <- app_assoc. apply Permutation_refl.
Qed.

Lemma flat_map_sort_perm (groups : groupMap) :
  Permutation (flat_map (fun entry => sort compareYears (snd entry)) groups)
              (flat_map snd groups).
Proof.
  induction groups as [|e rest IH]; simpl; [constructor|].
  apply Permutation_app; [apply sort_perm | exact IH].
Qed.

(** The grouping pass rearranges its input and does nothing else. *)
Lemma groupFranchiseResults_perm (l : list SearchResult) (searchTerm : string) :
  Permutation (groupFranchiseResults l searchTerm) l.
Proof.
  unfold groupFranchiseResults.
  destruct (fold_left (classify (toLowerCase searchTerm)) l ([], []))
    as [groups standalone] eqn:E.
  apply fold_classify_perm in E; simpl in E.
  eapply perm_trans; [|exact E].
  apply Permutation_app_tail.
  eapply perm_trans; [apply flat_map_sort_perm|].
  apply Permutation_flat_map, sort_perm.
Qed.

End GroupingFacts.

Section FilterInvariant.
Import JsString JsArray Ranking.

Lemma calculateRelevanceScore_returns (host : Host) (movie : Movie)
  (searchTerm : string) :
  plainQuery searchTerm ->
  exists score, calculateRelevanceScore host movie searchTerm = Returns score.
Proof.
  intros Hq; unfold calculateRelevanceScore.
  destruct (detectFranchiseBoost_returns host
              (trim (toLowerCase (displayName movie)))
              (trim (toLowerCase searchTerm)) Hq) as [boost [-> _]].
  simpl; eauto.
Qed.

Lemma mapIndexed_scoreResult_returns (host : Host) (clock : nat -> Z)
  (searchTerm : string) (results : list Movie) :
  plainQuery searchTerm ->
  forall i, exists scored,
    mapIndexed (scoreResult host clock searchTerm) i results = Returns scored.
Proof.
  intros Hq; induction results as [|m rest IH]; intros i; simpl; [eauto|].
  unfold scoreResult at 1.
  destruct (calculateRelevanceScore_returns host m searchTerm Hq) as [z ->].
  destruct (IH (S i)) as [scored ->]; simpl; eauto.
Qed.

(** For a plain query the pipeline returns a list. *)
Lemma processSearchResults_returns (host : Host) (clock : nat -> Z)
  (results : list Movie) (searchTerm : string) :
  plainQuery searchTerm ->
  exists out, processSearchResults host clock results searchTerm = Returns out.
Proof.
  intros Hq; destruct results as [|m rest]; simpl; [eauto|].
  unfold rankedBeforeGrouping.
  destruct (mapIndexed_scoreResult_returns host clock searchTerm (m :: rest)
              Hq 0%nat) as [scored ->].
  simpl; eauto.
Qed.

(** What a returned list is made of. *)
Lemma processSearchResults_inv (host : Host) (clock : nat -> Z)
  (results : list Movie) (searchTerm : string) (out : list SearchResult) :
  processSearchResults host clock results searchTerm = Returns out ->
  exists scored,
    mapIndexed (scoreResult host clock searchTerm) 0 results = Returns scored
    /\ out = groupFranchiseResults (sort compareResults (filter keeps scored))
               searchTerm.
Proof.
  destruct results as [|m rest]; intros H.
  - injection H as <-. exists []; split; reflexivity.
  - unfold processSearchResults, rankedBeforeGrouping in H.
    destruct (mapIndexed (scoreResult host clock searchTerm) 0 (m :: rest))
      as [scored|]; [|discriminate].
    injection H as <-. exists scored; split; reflexivity.
Qed.

(** C1.  Every result the pipeline returns has a relevance score of at
    least 10: the returned list is a rearrangement of the scored items
    that pass the filter, so the grouping pass changes no score and
    brings back no discarded item. *)
Theorem filter_invariant :
  forall (host : Host) (clock : nat -> Z) (results : list Movie)
         (searchTerm : string) (out : list SearchResult),
    processSearchResults host clock results searchTerm = Returns out ->
    Forall (fun r => 10 <= relevanceScore r) out
    /\ exists scored,
         mapIndexed (scoreResult host clock searchTerm) 0 results
           = Returns scored
         /\ Permutation out (filter keeps scored).
Proof.
  intros host clock results searchTerm out H.
  destruct (processSearchResults_inv _ _ _ _ _ H) as [scored [Hs ->]].
  assert (Hperm : Permutation
            (groupFranchiseResults (sort compareResults (filter keeps scored))
               searchTerm)
            (filter keeps scored)).
  { eapply perm_trans; [apply groupFranchiseResults_perm | apply sort_perm]. }
  split; [|exists scored; split; [exact Hs | exact Hperm]].
  eapply Permutation_Forall; [apply Permutation_sym, Hperm|].
  apply Forall_forall; intros r Hr.
  apply filter_In in Hr as [_ Hk]. unfold keeps in Hk. lia.
Qed.

Lemma filter_invariant_witness :
  match processSearchResults sampleHost (steadyClock 2025) carsCatalog "cars"
  with
  | Returns out => Forall (fun r => 10 <= relevanceScore r) out
  | Throws => False
  end.
Proof.
  destruct (processSearchResults sampleHost (steadyClock 2025) carsCatalog
              "cars") as [out|] eqn:E.
  - exact (proj1 (filter_invariant _ _ _ _ _ E)).
  - vm_compute in E; discriminate E.
Defined.

End FilterInvariant.

Section NumberFacts.
Import JsNumber.

Lemma SFcompare_swap (x y : number) :
  SFcompare y x = option_map CompOpp (SFcompare x y).
Proof.
  destruct x as [sx|sx| |sx mx ex], y as [sy|sy| |sy my ey]; simpl;
    try reflexivity;
    try (destruct sx; reflexivity); try (destruct sy; reflexivity);
    try (destruct sx, sy; reflexivity).
  destruct sx, sy; simpl; try reflexivity;
    rewrite (Z.compare_antisym ex ey);
    destruct (ex ?= ey); simpl; try reflexivity;
    rewrite (Pos.compare_cont_antisym mx my Eq); simpl;
    try reflexivity; now rewrite CompOpp_involutive.
Qed.

Lemma shr_1_nonneg (mrs : shr_record) :
  0 <= shr_m mrs -> 0 <= shr_m (shr_1 mrs).
Proof.
  destruct mrs as [m r s]; simpl; intros H.
  destruct m as [|p|p]; simpl; try lia; destruct p; simpl; lia.
Qed.

Lemma iter_shr_1_nonneg (p : positive) :
  forall mrs, 0 <= shr_m mrs -> 0 <= shr_m (iter_pos shr_1 p mrs).
Proof. induction p; intros mrs H; simpl; auto using shr_1_nonneg. Qed.

Lemma shr_fexp_nonneg (m e : Z) (l : location) :
  0 <= m -> 0 <= shr_m (fst (shr_fexp prec emax m e l)).
Proof.
  intros H; unfold shr_fexp, shr.
  assert (H0 : 0 <= shr_m (shr_record_of_loc m l))
    by (destruct l as [|[| |]]; simpl; exact H).
  destruct (fexp prec emax (Zdigits2 m + e) - e); simpl;
    auto using iter_shr_1_nonneg.
Qed.

Lemma round_nearest_even_nonneg (m : Z) (l : location) :
  0 <= m -> 0 <= round_nearest_even m l.
Proof.
  intros H; destruct l as [|[| |]]; simpl; try lia.
  destruct (Z.even m); lia.
Qed.

(** Rounding a mantissa that is not negative never gives NaN, and keeps
    the sign it is told. *)
Lemma binary_round_aux_signed (s : bool) (m e : Z) (l : location) :
  0 <= m -> signed s (binary_round_aux prec emax s m e l).
Proof.
  intros H; unfold binary_round_aux.
  pose proof (shr_fexp_nonneg m e l H) as H1.
  destruct (shr_fexp prec emax m e l) as [mrs' e']; simpl in H1.
  pose proof (shr_fexp_nonneg _ e' loc_Exact
                (round_nearest_even_nonneg _ (loc_of_shr_record mrs') H1))
    as H2.
  destruct (shr_fexp prec emax _ e' loc_Exact) as [mrs'' e'']; simpl in H2.
  destruct (shr_m mrs'') as [|p|p]; simpl; try reflexivity; [|lia].
  match goal with |- context [if ?b then _ else _] => destruct b end;
    reflexivity.
Qed.

Lemma signed_not_nan (s : bool) (x : number) : signed s x -> x <> NaN.
Proof. destruct x; simpl; intros H; [discriminate..|contradiction|discriminate]. Qed.

Lemma signed_nonneg (x : number) : signed false x -> nonneg x.
Proof. destruct x; simpl; auto. Qed.

Lemma nonneg_not_nan (x : number) : nonneg x -> x <> NaN.
Proof. destruct x; simpl; intros H; [discriminate..|contradiction|discriminate]. Qed.

Lemma binary_round_signed (s : bool) (m : positive) (e : Z) :
  signed s (binary_round prec emax s m e).
Proof.
  unfold binary_round; destruct (shl_align _ _ _) as [mz ez].
  apply binary_round_aux_signed; lia.
Qed.

Lemma binary_normalize_not_nan (z e : Z) :
  binary_normalize prec emax z e false <> NaN.
Proof.
  destruct z as [|p|p]; simpl; [discriminate| |];
    eapply signed_not_nan, binary_round_signed.
Qed.

Lemma add_nonneg (x y : number) : nonneg x -> nonneg y -> nonneg (add x y).
Proof.
  destruct x as [sx|sx| |sx mx ex], y as [sy|sy| |sy my ey]; simpl;
    intros Hx Hy; subst; try contradiction; try exact I; try reflexivity.
  - destruct sx, sy; exact I.
  - apply signed_nonneg.
    change (Z.pos (fst (shl_align mx ex (Z.min ex ey)))
            + Z.pos (fst (shl_align my ey (Z.min ex ey))))
      with (Z.pos (fst (shl_align mx ex (Z.min ex ey))
                   + fst (shl_align my ey (Z.min ex ey)))).
    simpl. apply binary_round_signed.
Qed.

Lemma sub_finite_not_nan (x y : number) :
  finiteNumber x = true -> y <> NaN -> sub x y <> NaN.
Proof.
  destruct x as [sx|sx| |sx mx ex], y as [sy|sy| |sy my ey]; simpl;
    intros Hx Hy; try discriminate; try congruence.
  - destruct sx, sy; discriminate.
  - apply binary_normalize_not_nan.
Qed.

Lemma mul_finite_not_nan (x : number) (s : bool) (m : positive) (e : Z) :
  x <> NaN -> mul x (S754_finite s m e) <> NaN.
Proof.
  destruct x as [sx|sx| |sx mx ex]; simpl; intros Hx;
    try discriminate; try congruence.
  eapply signed_not_nan, binary_round_aux_signed; lia.
Qed.

Lemma Math_max_zero_nonneg (x : number) :
  x <> NaN -> nonneg (Math_max posZero x).
Proof.
  destruct x as [sx|sx| |sx mx ex]; simpl; intros Hx;
    try exact I; try (now apply Hx); try (destruct sx; simpl; auto).
Qed.

Lemma gt_zero_nonneg (x : number) : gt x posZero = true -> nonneg x.
Proof.
  destruct x as [sx|sx| |sx mx ex]; simpl; auto; try discriminate;
    try (destruct sx; simpl; auto; discriminate).
Qed.

Lemma orDefault_not_nan (x d : number) : d <> NaN -> orDefault x d <> NaN.
Proof. destruct x; simpl; auto; discriminate. Qed.

(** Between two Numbers that are not NaN, not below is above or equal. *)
Lemma not_lt_ge (x y : number) :
  x <> NaN -> y <> NaN -> SFltb x y = false -> numberGe x y.
Proof.
  intros Hx Hy; unfold numberGe, SFltb, SFleb.
  rewrite (SFcompare_swap x y).
  destruct (SFcompare x y) as [[| |]|] eqn:E; simpl; try reflexivity;
    try discriminate.
  unfold NaN in *; destruct x, y; simpl in E; try discriminate; congruence.
Qed.

End NumberFacts.

Section SecondaryScore.
Import JsString JsNumber Ranking.

(** Under a clock that shows a finite year the secondary score is never
    NaN: it is zero, positive, or +Infinity. *)
Lemma getSecondaryScore_nonneg (currentYear : Z) (movie : Movie) :
  finiteNumber (ofZ currentYear) = true ->
  nonneg (getSecondaryScore currentYear movie).
Proof.
  intros Hfin; unfold getSecondaryScore.
  set (y := orDefault (parseIntField (year movie)) posZero).
  set (r := orDefault (parseFloatField (imdb_rating movie)) posZero).
  assert (Hy : y <> NaN) by (apply orDefault_not_nan; discriminate).
  set (s1 := if gt y posZero then _ else posZero).
  assert (H1 : nonneg s1).
  { subst s1; destruct (gt y posZero); [|exact I].
    apply add_nonneg; [exact I|].
    apply Math_max_zero_nonneg, sub_finite_not_nan; [reflexivity|].
    apply mul_finite_not_nan, sub_finite_not_nan; assumption. }
  set (s2 := if gt r posZero then add s1 r else s1).
  assert (H2 : nonneg s2).
  { subst s2; destruct (gt r posZero) eqn:E; [|exact H1].
    apply add_nonneg; [exact H1 | now apply gt_zero_nonneg]. }
  destruct (fieldIs (content_type movie) "movie");
    [apply add_nonneg; [exact H2 | reflexivity]|].
  destruct (fieldIs (content_type movie) "series");
    [apply add_nonneg; [exact H2 | reflexivity]|].
  destruct (fieldIs (content_type movie) "anime");
    [apply add_nonneg; [exact H2 | reflexivity]|].
  exact H2.
Qed.

End SecondaryScore.

Section SortedBeforeGrouping.
Import JsString JsNumber JsArray Ranking.

Lemma diffSign_pos (x y : number) :
  (0 <? diffSign x y) = true -> SFcompare x y = Some Gt.
Proof.
  unfold diffSign; destruct (SFcompare x y) as [[| |]|]; simpl;
    intros H; try discriminate; reflexivity.
Qed.

Lemma compareResults_antisym (x y : SearchResult) :
  (0 <? compareResults x y) = true -> notAfter compareResults y x.
Proof.
  unfold notAfter, compareResults, strictNe, SFeqb.
  rewrite (Z.eqb_sym (relevanceScore x) (relevanceScore y)).
  destruct (relevanceScore y =? relevanceScore x) eqn:Erel; simpl; [|lia].
  rewrite (SFcompare_swap (secondaryScore y) (secondaryScore x)).
  unfold diffSign.
  rewrite (SFcompare_swap (secondaryScore y) (secondaryScore x)).
  destruct (SFcompare (secondaryScore y) (secondaryScore x)) as [[| |]|];
    simpl; lia.
Qed.

(** What the comparator of step 6 means for two neighbours whose
    secondary scores are not NaN. *)
Lemma notAfter_rankedOrder (x y : SearchResult) :
  secondaryScore x <> NaN -> secondaryScore y <> NaN ->
  notAfter compareResults x y -> rankedOrder x y.
Proof.
  intros Hx Hy; unfold notAfter, compareResults, rankedOrder, strictNe.
  destruct (relevanceScore y =? relevanceScore x) eqn:Erel; simpl.
  - apply Z.eqb_eq in Erel. intros H. right. split; [lia|].
    apply not_lt_ge; try assumption.
    unfold SFltb, SFeqb, diffSign in *.
    rewrite (SFcompare_swap (secondaryScore y) (secondaryScore x)).
    destruct (SFcompare (secondaryScore y) (secondaryScore x)) as [[| |]|];
      simpl in *; try reflexivity; discriminate.
  - apply Z.eqb_neq in Erel. intros H. left. lia.
Qed.

Lemma Sorted_weaken {A : Type} (R R' : A -> A -> Prop) (P : A -> Prop)
  (l : list A) :
  (forall x y, P x -> P y -> R x y -> R' x y) ->
  Forall P l -> Sorted R l -> Sorted R' l.
Proof.
  intros HR HP Hs; induction Hs as [|a l Hs IH Hhd]; [constructor|].
  inversion HP as [|? ? Pa Pl]; subst.
  constructor; [now apply IH|].
  destruct Hhd as [|b l' Hab]; constructor.
  inversion Pl; subst. now apply HR.
Qed.

(** What [results.map] leaves in each scored result. *)
Lemma mapIndexed_scoreResult_fields (host : Host) (clock : nat -> Z)
  (searchTerm : string) (results : list Movie) :
  forall i scored,
    mapIndexed (scoreResult host clock searchTerm) i results = Returns scored ->
    map item scored = results
    /\ Forall (fun r =>
                 secondaryScore r
                   = getSecondaryScore (clock (originalIndex r)) (item r)
                 /\ calculateRelevanceScore host (item r) searchTerm
                    = Returns (relevanceScore r)) scored.
Proof.
  induction results as [|m rest IH]; intros i scored H; simpl in H.
  - injection H as <-. split; [reflexivity | constructor].
  - unfold scoreResult at 1 in H.
    destruct (calculateRelevanceScore host m searchTerm) as [z|] eqn:Ez;
      [|discriminate].
    simpl in H.
    destruct (mapIndexed (scoreResult host clock searchTerm) (S i) rest)
      as [tl|] eqn:Etl; [|discriminate].
    injection H as <-.
    destruct (IH _ _ Etl) as [Hitems Hfields].
    split; [simpl; now rewrite Hitems|].
    constructor; [simpl; split; [reflexivity | exact Ez] | exact Hfields].
Qed.

Lemma rankedBeforeGrouping_inv (host : Host) (clock : nat -> Z)
  (results : list Movie) (searchTerm : string) (sorted : list SearchResult) :
  rankedBeforeGrouping host clock results searchTerm = Returns sorted ->
  exists scored,
    mapIndexed (scoreResult host clock searchTerm) 0 results = Returns scored
    /\ sorted = sort compareResults (filter keeps scored).
Proof.
  unfold rankedBeforeGrouping; intros H.
  destruct (mapIndexed (scoreResult host clock searchTerm) 0 results)
    as [scored|]; [|discriminate].
  injection H as <-. exists scored; split; reflexivity.
Qed.

Lemma fold_classify_standalone (searchTerm : string) (l : list SearchResult) :
  forall groups standalone groups' standalone',
    fold_left (classify (toLowerCase searchTerm)) l (groups, standalone)
      = (groups', standalone') ->
    standalone'
    = (standalone ++ filter (fun r => negb (franchised searchTerm r)) l)%list.
Proof.
  induction l as [|r l IH]; intros groups standalone groups' standalone' H;
    cbn [fold_left filter] in *.
  - injection H as _ <-. now rewrite app_nil_r.
  - destruct (classify (toLowerCase searchTerm) (groups, standalone) r)
      as [g1 s1] eqn:E.
    rewrite (IH _ _ _ _ H). unfold classify in E.
    destruct (franchised searchTerm r) eqn:Ef; unfold franchised in Ef;
      destruct (franchiseKey (toLowerCase searchTerm) r) as [key|];
      try discriminate; try rewrite Ef in E; injection E as <- <-; simpl;
      try rewrite <- app_assoc; reflexivity.
Qed.

Lemma compareYears_antisym (x y : SearchResult) :
  (0 <? compareYears x y) = true -> notAfter compareYears y x.
Proof.
  unfold notAfter, compareYears; intros H.
  apply diffSign_pos in H. unfold diffSign.
  now rewrite (SFcompare_swap (yearKey x) (yearKey y)), H.
Qed.

Lemma yearKey_not_nan (r : SearchResult) : yearKey r <> NaN.
Proof. apply orDefault_not_nan, binary_normalize_not_nan. Qed.

Lemma notAfter_ascendingYearKey (x y : SearchResult) :
  notAfter compareYears x y -> ascendingYearKey x y.
Proof.
  unfold notAfter, compareYears, ascendingYearKey; intros H.
  apply not_lt_ge; try apply yearKey_not_nan.
  unfold SFltb. rewrite (SFcompare_swap (yearKey x) (yearKey y)).
  unfold diffSign in H.
  destruct (SFcompare (yearKey x) (yearKey y)) as [[| |]|]; simpl in *;
    try reflexivity; discriminate H.
Qed.

(** The grouping pass puts the franchise groups first, each in ascending
    order of the year key, and the items without a franchise key last, in
    the order they had. *)
Lemma groupFranchiseResults_shape (l : list SearchResult)
  (searchTerm : string) :
  exists segments,
    groupFranchiseResults l searchTerm
    = (List.concat segments
       ++ filter (fun r => negb (franchised searchTerm r)) l)%list
    /\ Forall (Sorted ascendingYearKey) segments.
Proof.
  unfold groupFranchiseResults.
  destruct (fold_left (classify (toLowerCase searchTerm)) l ([], []))
    as [groups standalone] eqn:E.
  apply fold_classify_standalone in E. simpl in E. rewrite E.
  exists (map (fun entry => sort compareYears (snd entry))
              (sort compareGroups groups)).
  split; [now rewrite flat_map_concat_map|].
  apply Forall_forall. intros segment Hs.
  apply in_map_iff in Hs as [entry [<- _]].
  apply (Sorted_weaken (notAfter compareYears) ascendingYearKey
           (fun _ => True)).
  - intros x y _ _; apply notAfter_ascendingYearKey.
  - apply Forall_forall; auto.
  - apply sort_sorted, compareYears_antisym.
Qed.

End SortedBeforeGrouping.

Section ReturnedOrder.
Import JsString JsNumber JsArray Ranking.

(** C2, as the claim has it, fails: for the query "it" the pipeline
    returns "It Follows" (2014, 90 points) ahead of "It" (2017, 100
    points), because both fall in the franchise group of the query and
    the group is put in ascending year order. *)
Lemma returned_list_not_sorted :
  ~ (forall (host : Host) (clock : nat -> Z) (results : list Movie)
            (searchTerm : string) (out : list SearchResult),
        processSearchResults host clock results searchTerm = Returns out ->
        Sorted rankedOrder out).
Proof.
  intros H.
  destruct (processSearchResults sampleHost (steadyClock 2025) itCatalog "it")
    as [out|] eqn:E; [|vm_compute in E; discriminate E].
  pose proof (H _ _ _ _ _ E) as Hs.
  vm_compute in E. injection E as <-.
  inversion Hs as [|a l Hs' Hhd]; subst.
  inversion Hhd as [|b l' Hab]; subst.
  destruct Hab as [Hlt|[Heq _]]; simpl in *; lia.
Qed.

End ReturnedOrder.

Section Determinism.
Import JsString JsArray Ranking Runs.

Lemma mapIndexed_scoreResult_clock (host : Host) (clock1 clock2 : nat -> Z)
  (searchTerm : string) (results : list Movie) :
  (forall i, clock1 i = clock2 i) ->
  forall i,
    mapIndexed (scoreResult host clock1 searchTerm) i results
    = mapIndexed (scoreResult host clock2 searchTerm) i results.
Proof.
  intros Hc; induction results as [|m rest IH]; intros i; simpl;
    [reflexivity|].
  unfold scoreResult at 1 3. rewrite (Hc i), (IH (S i)). reflexivity.
Qed.

(** *** Reading and writing the store *)

Lemma stored_valid (store : Store) (array : nat) (elements : list SearchResult) :
  stored store array = Some elements ->
  (array < List.length (resultArrays store))%nat.
Proof. intros H. apply nth_error_Some. unfold stored in H. congruence. Qed.

Lemma replaceAt_same {A : Type} (arrays : list A) :
  forall (array : nat) (x : A),
    (array < List.length arrays)%nat ->
    nth_error (replaceAt array x arrays) array = Some x.
Proof.
  induction arrays as [|y t IH]; intros [|i] x H; simpl in *;
    try lia; [reflexivity|].
  apply IH; lia.
Qed.

Lemma replaceAt_length {A : Type} (arrays : list A) :
  forall (array : nat) (x : A),
    List.length (replaceAt array x arrays) = List.length arrays.
Proof.
  induction arrays as [|y t IH]; intros [|i] x; simpl; try reflexivity.
  now rewrite IH.
Qed.

Lemma replaceAt_other {A : Type} (arrays : list A) :
  forall (array other : nat) (x : A),
    other <> array ->
    nth_error (replaceAt array x arrays) other = nth_error arrays other.
Proof.
  induction arrays as [|y t IH]; intros [|i] [|j] x H; simpl;
    try reflexivity; try congruence.
  apply IH; congruence.
Qed.

Lemma stored_written_same (array : nat) (elements old : list SearchResult)
  (store : Store) :
  stored store array = Some old ->
  stored (written array elements store) array = Some elements.
Proof.
  intros H. unfold stored, written; cbn [resultArrays].
  apply replaceAt_same. exact (stored_valid _ _ _ H).
Qed.

Lemma stored_written_other (array other : nat) (elements : list SearchResult)
  (store : Store) :
  other <> array ->
  stored (written array elements store) other = stored store other.
Proof.
  intros H. unfold stored, written; cbn [resultArrays].
  now apply replaceAt_other.
Qed.

Lemma stored_created_old (elements : list SearchResult) (store : Store)
  (array : nat) :
  (array < List.length (resultArrays store))%nat ->
  stored (created elements store) array = stored store array.
Proof.
  intros H. unfold stored, created; cbn [resultArrays].
  now apply nth_error_app1.
Qed.

Lemma stored_created_new (elements : list SearchResult) (store : Store) :
  stored (created elements store) (List.length (resultArrays store))
  = Some elements.
Proof.
  unfold stored, created; cbn [resultArrays].
  rewrite nth_error_app2 by lia. now rewrite Nat.sub_diag.
Qed.

Lemma read_runs (array : nat) (elements : list SearchResult) (store : Store) :
  stored store array = Some elements ->
  read array store = Returns (elements, store).
Proof. intros H. unfold read. now rewrite H. Qed.

Lemma push_runs (array : nat) (result : SearchResult)
  (elements : list SearchResult) (store : Store) :
  stored store array = Some elements ->
  push array result store
  = Returns (tt, written array (elements ++ [result])%list store).
Proof. intros H. unfold push, andThen, read, write. now rewrite H. Qed.

Lemma pushAll_runs (array : nat) (results elements : list SearchResult)
  (store : Store) :
  stored store array = Some elements ->
  pushAll array results store
  = Returns (tt, written array (elements ++ results)%list store).
Proof. intros H. unfold pushAll, andThen, read, write. now rewrite H. Qed.

Lemma sortInPlace_runs (cmp : SearchResult -> SearchResult -> Z) (array : nat)
  (elements : list SearchResult) (store : Store) :
  stored store array = Some elements ->
  sortInPlace cmp array store
  = Returns (tt, written array (sort cmp elements) store).
Proof. intros H. unfold sortInPlace, andThen, read, write. now rewrite H. Qed.

(** *** What a run leaves alone *)

Lemma kept_refl (base : nat) (store : Store) : kept base store store.
Proof. split; [reflexivity | intros; reflexivity]. Qed.

Lemma kept_written (base array : nat) (elements : list SearchResult)
  (start store : Store) :
  (base <= array)%nat -> kept base start store ->
  kept base start (written array elements store).
Proof.
  intros Hb [Hr Hk]; split; [exact Hr|]. intros a Ha.
  rewrite stored_written_other by lia. now apply Hk.
Qed.

Lemma kept_created (base : nat) (elements : list SearchResult)
  (start store : Store) :
  (base <= List.length (resultArrays store))%nat -> kept base start store ->
  kept base start (created elements store).
Proof.
  intros Hb [Hr Hk]; split; [exact Hr|]. intros a Ha.
  rewrite stored_created_old by lia. now apply Hk.
Qed.

Lemma kept_trans (base base' : nat) (s0 s1 s2 : Store) :
  (base <= base')%nat -> kept base s0 s1 -> kept base' s1 s2 ->
  kept base s0 s2.
Proof.
  intros Hb [Hr1 Hk1] [Hr2 Hk2]; split; [congruence|].
  intros a Ha. rewrite Hk2 by lia. now apply Hk1.
Qed.

(** *** The groups in the store *)

Lemma holds_written (array : nat) (elements : list SearchResult)
  (store : Store) :
  forall (groups : groupArrays) (contents : groupMap),
    ~ In array (map snd groups) ->
    holds store groups contents ->
    holds (written array elements store) groups contents.
Proof.
  induction groups as [|[k a] gs IH]; intros [|[k' l] cs] Hn H;
    cbn [holds] in *; try exact H.
  destruct H as (Hk & Hs & Hr).
  cbn [map snd In] in Hn.
  split; [exact Hk|split].
  - rewrite stored_written_other; [exact Hs|]. intros ->. apply Hn. now left.
  - apply IH; [|exact Hr]. intros Hin. apply Hn. now right.
Qed.

Lemma holds_created (elements : list SearchResult) (store : Store) :
  forall (groups : groupArrays) (contents : groupMap),
    holds store groups contents ->
    holds (created elements store) groups contents.
Proof.
  induction groups as [|[k a] gs IH]; intros [|[k' l] cs] H;
    cbn [holds] in *; try exact H.
  destruct H as (Hk & Hs & Hr).
  split; [exact Hk|split; [|now apply IH]].
  rewrite stored_created_old; [exact Hs|]. exact (stored_valid _ _ _ Hs).
Qed.

Lemma holds_valid (store : Store) :
  forall (groups : groupArrays) (contents : groupMap),
    holds store groups contents ->
    forall array, In array (map snd groups) ->
      (array < List.length (resultArrays store))%nat.
Proof.
  induction groups as [|[k a] gs IH]; intros [|[k' l] cs] H array Hin;
    cbn [holds map snd In] in *; try contradiction.
  destruct H as (_ & Hs & Hr). destruct Hin as [<-|Hin].
  - exact (stored_valid _ _ _ Hs).
  - exact (IH _ Hr _ Hin).
Qed.

Lemma holds_app (store : Store) :
  forall (groups : groupArrays) (contents : groupMap)
         (groups' : groupArrays) (contents' : groupMap),
    holds store groups contents -> holds store groups' contents' ->
    holds store (groups ++ groups')%list (contents ++ contents')%list.
Proof.
  induction groups as [|[k a] gs IH]; intros [|[k' l] cs] groups' contents' H H';
    cbn [holds app] in *; try contradiction; [exact H'|].
  destruct H as (Hk & Hs & Hr). split; [exact Hk|split; [exact Hs|]].
  now apply IH.
Qed.

Lemma get_among (key : string) :
  forall (groups : groupArrays) (array : nat),
    get key groups = Some array -> In array (map snd groups).
Proof.
  induction groups as [|[k a] gs IH]; intros array H; cbn [get] in H;
    [discriminate H|].
  cbn [map snd In]. destruct (String.eqb k key).
  - injection H as <-. now left.
  - right. now apply IH.
Qed.

Lemma push_known_key (store : Store) (key : string) (result : SearchResult)
  (array : nat) :
  forall (groups : groupArrays) (contents : groupMap),
    holds store groups contents ->
    NoDup (map snd groups) ->
    get key groups = Some array ->
    exists elements,
      stored store array = Some elements
      /\ holds (written array (elements ++ [result])%list store) groups
           (pushGroup key result contents).
Proof.
  induction groups as [|[k a] gs IH]; intros [|[k' l] cs] H Hnd Hget;
    cbn [holds get] in *; try contradiction; try discriminate Hget.
  destruct H as (Hk & Hs & Hr). subst k'.
  cbn [map snd] in Hnd. inversion Hnd as [|? ? Hnotin Hnd']; subst.
  cbn [pushGroup].
  destruct (String.eqb k key) eqn:E.
  - injection Hget as <-. exists l. split; [exact Hs|].
    cbn [holds]. split; [reflexivity|split].
    + exact (stored_written_same _ _ _ _ Hs).
    + now apply holds_written.
  - destruct (IH cs Hr Hnd' Hget) as (elements & He & Hh).
    exists elements. split; [exact He|].
    cbn [holds]. split; [reflexivity|split; [|exact Hh]].
    rewrite stored_written_other; [exact Hs|].
    intros ->. apply Hnotin. exact (get_among _ _ _ Hget).
Qed.

Lemma push_new_key (store : Store) (key : string) (result : SearchResult) :
  forall (groups : groupArrays) (contents : groupMap),
    holds store groups contents ->
    get key groups = None ->
    pushGroup key result contents = (contents ++ [(key, [result])])%list.
Proof.
  induction groups as [|[k a] gs IH]; intros [|[k' l] cs] H Hget;
    cbn [holds get] in *; try contradiction; [reflexivity|].
  destruct H as (Hk & Hs & Hr). subst k'.
  cbn [pushGroup app].
  destruct (String.eqb k key); [discriminate Hget|].
  now rewrite (IH cs Hr Hget).
Qed.

(** *** The loop over the sorted results *)

Lemma grouping_arrays (base standalone : nat) (groups : groupArrays) :
  Forall (fun e => (base <= snd e)%nat /\ snd e <> standalone) groups ->
  forall array, In array (map snd groups) ->
    (base <= array)%nat /\ array <> standalone.
Proof.
  intros Hf array Hin. apply in_map_iff in Hin as (e & <- & He).
  rewrite Forall_forall in Hf. exact (Hf e He).
Qed.

Lemma classifyIn_turn (searchLower : string) (base standalone : nat)
  (start store : Store) (groups : groupArrays)
  (acc : groupMap * list SearchResult) (result : SearchResult) :
  grouping base standalone start store groups acc ->
  exists groups' store',
    classifyIn searchLower standalone groups result store
    = Returns (groups', store')
    /\ grouping base standalone start store' groups'
         (classify searchLower acc result).
Proof.
  destruct acc as [contents alone].
  intros (Hk & Hb & Hs & Hh & Hnd & Hf). cbn [fst snd] in *.
  assert (Halone : exists store',
            andThen (push standalone result) (fun _ => ret groups) store
            = Returns (groups, store')
            /\ grouping base standalone start store' groups
                 (contents, (alone ++ [result])%list)).
  { exists (written standalone (alone ++ [result])%list store). split.
    - unfold andThen. now rewrite (push_runs _ _ _ _ Hs).
    - refine (conj _ (conj Hb (conj _ (conj _ (conj Hnd Hf))))); cbn [fst snd].
      + now apply kept_written.
      + exact (stored_written_same _ _ _ _ Hs).
      + apply holds_written; [|exact Hh].
        intros Hin. now destruct (grouping_arrays _ _ _ Hf _ Hin). }
  unfold classifyIn, classify.
  destruct (franchiseKey searchLower result) as [key|];
    [|destruct Halone as (store' & H1 & H2); now exists groups, store'].
  destruct (truthy key);
    [|destruct Halone as (store' & H1 & H2); now exists groups, store'].
  clear Halone.
  destruct (get key groups) as [array|] eqn:Hget.
  - destruct (push_known_key store key result array groups contents Hh Hnd Hget)
      as (elements & He & Hh').
    destruct (grouping_arrays _ _ _ Hf _ (get_among _ _ _ Hget)) as [Hba Hna].
    exists groups, (written array (elements ++ [result])%list store). split.
    + unfold andThen. now rewrite (push_runs _ _ _ _ He).
    + refine (conj _ (conj Hb (conj _ (conj Hh' (conj Hnd Hf))))); cbn [fst snd].
      * now apply kept_written.
      * rewrite stored_written_other; [exact Hs|]. congruence.
  - pose proof (stored_valid _ _ _ Hs) as Hlt.
    set (array := List.length (resultArrays store)).
    set (store1 := created [] store).
    assert (Hnew : stored store1 array = Some []) by apply stored_created_new.
    exists (groups ++ [(key, array)])%list,
           (written array ([] ++ [result])%list store1). split.
    + unfold andThen, newArray. fold array store1.
      now rewrite (push_runs _ _ _ _ Hnew).
    + assert (Hfresh : ~ In array (map snd groups)).
      { intros Hin. pose proof (holds_valid _ _ _ Hh _ Hin). unfold array in *. lia. }
      refine (conj _ (conj Hb (conj _ (conj _ (conj _ _))))); cbn [fst snd].
      * apply kept_written; [unfold array; lia|].
        apply kept_created; [lia | exact Hk].
      * rewrite stored_written_other by (unfold array; lia).
        unfold store1. rewrite stored_created_old by exact Hlt. exact Hs.
      * rewrite (push_new_key store key result groups contents Hh Hget).
        apply holds_app.
        -- apply holds_written; [exact Hfresh|]. now apply holds_created.
        -- cbn [holds]. split; [reflexivity|split; [|exact I]].
           exact (stored_written_same _ _ _ _ Hnew).
      * rewrite map_app. cbn [map snd]. apply NoDup_app; [exact Hnd | | ].
        -- constructor; [intros [] | constructor].
        -- intros a Ha [<-|[]]. exact (Hfresh Ha).
      * apply Forall_app. split; [exact Hf|].
        constructor; [|constructor]. cbn [snd]. unfold array; lia.
Qed.

Lemma classifyIn_loop (searchLower : string) (base standalone : nat)
  (start : Store) :
  forall (elements : list SearchResult) (store : Store) (groups : groupArrays)
         (acc : groupMap * list SearchResult),
    grouping base standalone start store groups acc ->
    exists groups' store',
      forEach (classifyIn searchLower standalone) elements groups store
      = Returns (groups', store')
      /\ grouping base standalone start store' groups'
           (fold_left (classify searchLower) elements acc).
Proof.
  induction elements as [|result rest IH]; intros store groups acc H.
  - now exists groups, store.
  - destruct (classifyIn_turn searchLower _ _ _ _ _ _ result H)
      as (groups1 & store1 & Hrun & H1).
    destruct (IH store1 groups1 _ H1) as (groups' & store' & Hrest & H').
    exists groups', store'. split; [|exact H'].
    cbn [forEach]. unfold andThen. now rewrite Hrun.
Qed.

(** *** The sorted groups *)

Lemma entries_found (store : Store) :
  forall (groups : groupArrays) (contents : groupMap),
    holds store groups contents ->
    exists found,
      entries groups store = Returns (found, store)
      /\ map groupOf found = contents
      /\ map arrayOf found = map snd groups
      /\ Forall (fun e => stored store (arrayOf e) = Some (snd e)) found.
Proof.
  induction groups as [|[k a] gs IH]; intros [|[k' l] cs] H;
    cbn [holds] in H; try contradiction.
  - exists []. now repeat split.
  - destruct H as (<- & Hs & Hr).
    destruct (IH cs Hr) as (found & Hrun & Hc & Ha & Hf).
    exists ((k, a, l) :: found). split; [|split; [|split]].
    + cbn [entries]. unfold andThen. rewrite (read_runs _ _ _ Hs), Hrun.
      reflexivity.
    + cbn [map]. now rewrite Hc.
    + cbn [map]. now rewrite Ha.
    + constructor; [exact Hs | exact Hf].
Qed.

Lemma sort_compareEntries (found : list (string * nat * list SearchResult)) :
  map groupOf (sort compareEntries found)
  = sort compareGroups (map groupOf found).
Proof.
  induction found as [|e rest IH]; [reflexivity|].
  cbn [sort fold_right map]. fold (sort compareEntries rest).
  fold (sort compareGroups (map groupOf rest)). rewrite <- IH.
  generalize (sort compareEntries rest) as sorted.
  induction sorted as [|y t IHt]; [reflexivity|].
  cbn [insert map]. change (compareEntries e y) with (compareGroups (groupOf e) (groupOf y)).
  destruct (0 <? compareGroups (groupOf e) (groupOf y)); cbn [map];
    [now rewrite IHt | reflexivity].
Qed.

Lemma flattenIn_loop (base standalone finalResults : nat) (start : Store)
  (alone : list SearchResult) :
  (base <= finalResults)%nat -> finalResults <> standalone ->
  forall (found : list (string * nat * list SearchResult)) (store : Store)
         (flat : list SearchResult),
    NoDup (map arrayOf found) ->
    Forall (fun e => stored store (arrayOf e) = Some (snd e)
                     /\ (base <= arrayOf e)%nat
                     /\ arrayOf e <> finalResults
                     /\ arrayOf e <> standalone) found ->
    stored store finalResults = Some flat ->
    stored store standalone = Some alone ->
    kept base start store ->
    exists store',
      forEach (flattenIn finalResults) found tt store = Returns (tt, store')
      /\ stored store' finalResults
         = Some (flat ++ flat_map (fun e => sort compareYears (snd e)) found)%list
      /\ stored store' standalone = Some alone
      /\ kept base start store'.
Proof.
  intros Hbf Hfs.
  induction found as [|e rest IH]; intros store flat Hnd Hf Hfin Hal Hk.
  - exists store. cbn [forEach flat_map]. rewrite app_nil_r.
    split; [reflexivity | split; [exact Hfin | split; [exact Hal | exact Hk]]].
  - inversion Hnd as [|? ? Hnotin Hnd']; subst.
    inversion Hf as [|? ? (He & Hbe & Hef & Hes) Hf']; subst.
    set (store1 := written (arrayOf e) (sort compareYears (snd e)) store).
    assert (H1 : stored store1 (arrayOf e) = Some (sort compareYears (snd e)))
      by exact (stored_written_same _ _ _ _ He).
    assert (H1f : stored store1 finalResults = Some flat).
    { unfold store1. rewrite stored_written_other; [exact Hfin | congruence]. }
    set (store2 := written finalResults
                     (flat ++ sort compareYears (snd e))%list store1).
    destruct (IH store2 (flat ++ sort compareYears (snd e))%list Hnd')
      as (store' & Hrun & Hfin' & Hal' & Hk').
    + rewrite Forall_forall in Hf'. apply Forall_forall.
      intros e' Hin. destruct (Hf' e' Hin) as (He' & Hbe' & Hef' & Hes').
      refine (conj _ (conj Hbe' (conj Hef' Hes'))).
      unfold store2, store1. rewrite !stored_written_other; [exact He'| |exact Hef'].
      intros Heq. apply Hnotin. rewrite <- Heq. now apply in_map.
    + exact (stored_written_same _ _ _ _ H1f).
    + unfold store2, store1. rewrite !stored_written_other; congruence.
    + unfold store2, store1. now repeat apply kept_written.
    + exists store'. split; [|split; [|split; [exact Hal' | exact Hk']]].
      * cbn [forEach]. unfold andThen at 1. unfold flattenIn, andThen.
        fold (arrayOf e). rewrite (sortInPlace_runs _ _ _ _ He). fold store1.
        rewrite (read_runs _ _ _ H1), (pushAll_runs _ _ _ _ H1f). fold store2.
        exact Hrun.
      * rewrite Hfin'. cbn [flat_map]. now rewrite app_assoc.
Qed.

(** *** A whole run *)

Lemma andThen_returns {A B : Type} (m : Run A) (k : A -> Run B)
  (store store' : Store) (a : A) :
  m store = Returns (a, store') -> andThen m k store = k a store'.
Proof. intros H. unfold andThen. now rewrite H. Qed.

Lemma flat_map_groupOf (found : list (string * nat * list SearchResult)) :
  flat_map (fun e => sort compareYears (snd e)) found
  = flat_map (fun entry => sort compareYears (snd entry)) (map groupOf found).
Proof.
  induction found as [|e rest IH]; [reflexivity|].
  cbn [flat_map map]. now rewrite IH.
Qed.

Lemma groupFranchiseResultsIn_runs (store : Store) (results : nat)
  (sorted : list SearchResult) (searchTerm : string) :
  stored store results = Some sorted ->
  exists finalResults store',
    groupFranchiseResultsIn results searchTerm store
    = Returns (finalResults, store')
    /\ stored store' finalResults
       = Some (groupFranchiseResults sorted searchTerm)
    /\ (List.length (resultArrays store) <= finalResults)%nat
    /\ kept (List.length (resultArrays store)) store store'.
Proof.
  intros Hres.
  set (base := List.length (resultArrays store)).
  set (store0 := created [] store).
  pose proof (stored_valid _ _ _ Hres) as Hlt. fold base in Hlt.
  assert (Hres0 : stored store0 results = Some sorted).
  { unfold store0. now rewrite stored_created_old. }
  assert (H0 : grouping base base store store0 [] ([], [])).
  { refine (conj _ (conj (le_n _)
             (conj _ (conj I (conj (NoDup_nil _) (Forall_nil _)))))).
    - apply kept_created; [apply le_n | apply kept_refl].
    - apply stored_created_new. }
  destruct (classifyIn_loop (toLowerCase searchTerm) base base store sorted
              store0 [] _ H0) as (groups & store1 & Hloop & H1).
  unfold groupFranchiseResults.
  destruct (fold_left (classify (toLowerCase searchTerm)) sorted ([], []))
    as [contents alone].
  destruct H1 as (Hk1 & _ & Hs1 & Hh1 & Hnd1 & Hf1). cbn [fst snd] in *.
  set (finalResults := List.length (resultArrays store1)).
  set (store2 := created [] store1).
  pose proof (stored_valid _ _ _ Hs1) as Hlt1. fold finalResults in Hlt1.
  assert (Hh2 : holds store2 groups contents) by now apply holds_created.
  destruct (entries_found store2 groups contents Hh2)
    as (found & Hent & Hc & Ha & Hfound).
  pose proof (sort_perm compareEntries found) as Hperm.
  destruct (flattenIn_loop base base finalResults store alone
              ltac:(lia) ltac:(lia) (sort compareEntries found) store2 [])
    as (store3 & Hflat & Hfin3 & Hal3 & Hk3).
  - apply (Permutation_NoDup (Permutation_map arrayOf (Permutation_sym Hperm))).
    now rewrite Ha.
  - eapply Permutation_Forall; [apply Permutation_sym, Hperm|].
    rewrite Forall_forall in Hfound. apply Forall_forall. intros e Hin.
    assert (Hin' : In (arrayOf e) (map snd groups)).
    { rewrite <- Ha. now apply in_map. }
    destruct (grouping_arrays _ _ _ Hf1 _ Hin') as [Hbe Hne].
    pose proof (holds_valid _ _ _ Hh1 _ Hin') as Hve. fold finalResults in Hve.
    refine (conj (Hfound e Hin) (conj Hbe (conj _ Hne))). lia.
  - apply stored_created_new.
  - unfold store2. now rewrite stored_created_old.
  - apply kept_created; [fold finalResults; lia | exact Hk1].
  - exists finalResults,
      (written finalResults
         (([] ++ flat_map (fun e => sort compareYears (snd e))
                   (sort compareEntries found)) ++ alone)%list store3).
    split; [|split; [|split]].
    + unfold groupFranchiseResultsIn.
      rewrite (andThen_returns (newArray []) _ store store0 base eq_refl).
      cbv beta zeta.
      rewrite (andThen_returns _ _ _ _ _ (read_runs _ _ _ Hres0)).
      rewrite (andThen_returns _ _ _ _ _ Hloop).
      rewrite (andThen_returns (newArray []) _ store1 store2 finalResults eq_refl).
      rewrite (andThen_returns _ _ _ _ _ Hent).
      rewrite (andThen_returns _ _ _ _ _ Hflat).
      rewrite (andThen_returns _ _ _ _ _ (read_runs _ _ _ Hal3)).
      rewrite (andThen_returns _ _ _ _ _ (pushAll_runs _ _ _ _ Hfin3)).
      reflexivity.
    + rewrite (stored_written_same _ _ _ _ Hfin3). cbn [app].
      now rewrite flat_map_groupOf, sort_compareEntries, Hc.
    + lia.
    + apply kept_written; [lia | exact Hk3].
Qed.

Lemma processSearchResultsIn_runs (host : Host) (clock : nat -> Z)
  (store : Store) (results : nat) (movies : list Movie) (searchTerm : string) :
  nth_error (rawArrays store) results = Some movies ->
  match processSearchResults host clock movies searchTerm with
  | Returns ranked =>
      exists rankedResults store',
        processSearchResultsIn host clock results searchTerm store
        = Returns (rankedResults, store')
        /\ stored store' rankedResults = Some ranked
        /\ (List.length (resultArrays store) <= rankedResults)%nat
        /\ kept (List.length (resultArrays store)) store store'
  | Throws => processSearchResultsIn host clock results searchTerm store = Throws
  end.
Proof.
  intros Hraw.
  assert (Hread : readRaw results store = Returns (movies, store)).
  { unfold readRaw. now rewrite Hraw. }
  unfold processSearchResultsIn. rewrite (andThen_returns _ _ _ _ _ Hread).
  set (base := List.length (resultArrays store)).
  destruct movies as [|movie rest].
  - cbn [processSearchResults]. exists base, (created [] store).
    split; [reflexivity|split; [apply stored_created_new|split; [apply le_n|]]].
    apply kept_created; [apply le_n | apply kept_refl].
  - unfold processSearchResults, rankedBeforeGrouping.
    destruct (mapIndexed (scoreResult host clock searchTerm) 0 (movie :: rest))
      as [scored|]; [|reflexivity].
    cbn [bindO].
    set (store1 := created scored store).
    set (filtered := filter (fun result => 10 <=? relevanceScore result) scored).
    set (store2 := created filtered store1).
    set (store3 := written (S base) (sort compareResults filtered) store2).
    assert (H1 : stored store1 base = Some scored) by apply stored_created_new.
    assert (Hlen1 : List.length (resultArrays store1) = S base).
    { unfold store1, created; cbn [resultArrays]. rewrite length_app. cbn. lia. }
    assert (H2 : stored store2 (S base) = Some filtered).
    { rewrite <- Hlen1. apply stored_created_new. }
    assert (H3 : stored store3 (S base) = Some (sort compareResults filtered))
      by exact (stored_written_same _ _ _ _ H2).
    assert (Hlen3 : List.length (resultArrays store3) = S (S base)).
    { unfold store3, written; cbn [resultArrays]. rewrite replaceAt_length.
      unfold store2, created; cbn [resultArrays]. rewrite length_app, Hlen1.
      cbn [List.length]. lia. }
    destruct (groupFranchiseResultsIn_runs store3 (S base) _ searchTerm H3)
      as (finalResults & store' & Hrun & Hfin & Hfresh & Hkept).
    exists finalResults, store'. split; [|split; [exact Hfin|split]].
    + rewrite (andThen_returns (lift (Returns scored)) _ store store scored
                 eq_refl).
      rewrite (andThen_returns (newArray scored) _ store store1 base eq_refl).
      rewrite (andThen_returns _ _ _ _ _ (read_runs _ _ _ H1)).
      rewrite (andThen_returns (newArray filtered) _ store1 store2 (S base)
                 (f_equal (fun n => Returns (n, store2)) Hlen1)).
      rewrite (andThen_returns _ _ _ _ _ (sortInPlace_runs _ _ _ _ H2)).
      exact Hrun.
    + lia.
    + apply (kept_trans base (S (S base)) store store3 store'); [lia| |].
      * unfold store3. apply kept_written; [lia|].
        unfold store2. apply kept_created; [rewrite Hlen1; lia|].
        unfold store1. apply kept_created; [apply le_n | apply kept_refl].
      * now rewrite <- Hlen3.
Qed.

Lemma processSearchResults_clock (host : Host) (clock1 clock2 : nat -> Z)
  (movies : list Movie) (searchTerm : string) :
  (forall i, clock1 i = clock2 i) ->
  processSearchResults host clock1 movies searchTerm
  = processSearchResults host clock2 movies searchTerm.
Proof.
  intros Hc. unfold processSearchResults, rankedBeforeGrouping.
  now rewrite (mapIndexed_scoreResult_clock host clock1 clock2 searchTerm movies).
Qed.

(** C5.  Two runs of the pipeline, one after the other, on the same
    array of raw results and the same query, under clocks that show the
    same year.  The first run leaves the caller's arrays as they were;
    the second returns an array of its own; and the two returned arrays
    hold the same results in the same order with the same scores, also
    once the second run is over.  What they hold is the value of
    [processSearchResults] at the raw results, the query, the year shown
    and the host engine: nothing else that the store holds has a part
    in it.  After a first run that throws, the second throws. *)
Theorem ranking_deterministic :
  forall (host : Host) (clock1 clock2 : nat -> Z) (currentYear : Z)
         (store : Store) (results : nat) (movies : list Movie)
         (searchTerm : string),
    nth_error (rawArrays store) results = Some movies ->
    (forall i, clock1 i = currentYear) ->
    (forall i, clock2 i = currentYear) ->
    match processSearchResultsIn host clock1 results searchTerm store with
    | Returns (first, store1) =>
        rawArrays store1 = rawArrays store
        /\ exists (second : nat) (store2 : Store) (ranked : list SearchResult),
             processSearchResultsIn host clock2 results searchTerm store1
             = Returns (second, store2)
             /\ rawArrays store2 = rawArrays store
             /\ second <> first
             /\ stored store1 first = Some ranked
             /\ stored store2 first = Some ranked
             /\ stored store2 second = Some ranked
             /\ processSearchResults host (steadyClock currentYear) movies
                  searchTerm
                = Returns ranked
    | Throws =>
        processSearchResultsIn host clock2 results searchTerm store = Throws
        /\ processSearchResults host (steadyClock currentYear) movies searchTerm
           = Throws
    end.
Proof.
  intros host clock1 clock2 currentYear store results movies searchTerm
         Hraw H1 H2.
  pose proof (processSearchResultsIn_runs host clock1 store results movies
                searchTerm Hraw) as R1.
  rewrite (processSearchResults_clock host clock1 (steadyClock currentYear))
    in R1 by exact H1.
  destruct (processSearchResults host (steadyClock currentYear) movies
              searchTerm) as [ranked|] eqn:E.
  - destruct R1 as (first & store1 & Hrun1 & Hfirst & _ & [Hraw1 Hkept1]).
    rewrite Hrun1. split; [exact Hraw1|].
    pose proof (processSearchResultsIn_runs host clock2 store1 results movies
                  searchTerm) as R2.
    rewrite Hraw1 in R2. specialize (R2 Hraw).
    rewrite (processSearchResults_clock host clock2 (steadyClock currentYear)),
      E in R2 by exact H2.
    destruct R2 as (second & store2 & Hrun2 & Hsecond & Hfresh & [Hraw2 Hkept2]).
    pose proof (stored_valid _ _ _ Hfirst) as Hlt.
    exists second, store2, ranked.
    split; [exact Hrun2|split; [congruence|split; [lia|split; [exact Hfirst|]]]].
    split; [|split; [exact Hsecond | reflexivity]].
    rewrite Hkept2 by exact Hlt. exact Hfirst.
  - rewrite R1. split; [|reflexivity].
    pose proof (processSearchResultsIn_runs host clock2 store results movies
                  searchTerm Hraw) as R2.
    rewrite (processSearchResults_clock host clock2 (steadyClock currentYear)),
      E in R2 by exact H2.
    exact R2.
Qed.

Lemma ranking_deterministic_witness :
  exists (first second : nat) (store1 store2 : Store)
         (ranked : list SearchResult),
    processSearchResultsIn sampleHost (steadyClock 2025) 0 "cars" searchStore
    = Returns (first, store1)
    /\ processSearchResultsIn sampleHost (fun i => 2025 + 0 * Z.of_nat i) 0
         "cars" store1
       = Returns (second, store2)
    /\ second <> first
    /\ stored store2 first = Some ranked
    /\ stored store2 second = Some ranked
    /\ map (fun r => id (item r)) ranked
       = ["tt0317219"; "tt1216475"; "tt3606752"; "tt9000001"].
Proof.
  pose proof (ranking_deterministic sampleHost (steadyClock 2025)
                (fun i => 2025 + 0 * Z.of_nat i) 2025 searchStore 0
                carsCatalog "cars" eq_refl (fun _ => eq_refl)
                (fun _ => eq_refl)) as H.
  destruct (processSearchResultsIn sampleHost (steadyClock 2025) 0 "cars"
              searchStore) as [[first store1]|] eqn:E1;
    [|vm_compute in E1; discriminate E1].
  destruct H as (_ & second & store2 & ranked & H2 & _ & Hne & _ & Hf & Hs & Hr).
  exists first, second, store1, store2, ranked.
  split; [reflexivity|]. repeat (split; [assumption|]).
  vm_compute in Hr. injection Hr as <-. reflexivity.
Defined.

End Determinism.

Section FranchiseGroup.
Import JsString JsNumber JsArray Ranking.

Lemma Permutation_filter {A : Type} (f : A -> bool) (l l' : list A) :
  Permutation l l' -> Permutation (filter f l) (filter f l').
Proof.
  induction 1 as [|x l l' _ IH|x y l|l l' l'' _ IH1 _ IH2]; simpl.
  - constructor.
  - destruct (f x); [now apply perm_skip | assumption].
  - destruct (f x), (f y); try apply Permutation_refl. apply perm_swap.
  - eapply perm_trans; eassumption.
Qed.

Lemma displayName_named (n : string) : displayName (named n) = n.
Proof. destruct n; reflexivity. Qed.

Lemma displayName_of_name (m : Movie) (n : string) :
  name m = Some n -> truthy n = true -> displayName m = n.
Proof.
  intros Hn Ht; unfold displayName, orElse; rewrite Hn.
  destruct n; [discriminate Ht | reflexivity].
Qed.

(** Scoring and grouping read only the display name of an item. *)
Lemma calculateRelevanceScore_by_name (host : Host) (m : Movie) (q : string) :
  calculateRelevanceScore host m q
  = calculateRelevanceScore host (named (displayName m)) q.
Proof.
  unfold calculateRelevanceScore, baseScore.
  now rewrite displayName_named.
Qed.

Lemma franchiseKey_by_name (searchLower : string) (r : SearchResult) :
  franchiseKey searchLower r
  = franchiseKey searchLower (bare (named (displayName (item r)))).
Proof.
  unfold franchiseKey; simpl. now rewrite displayName_named.
Qed.

Lemma franchised_item (q : string) (r : SearchResult) :
  franchised q r = franchisedItem q (item r).
Proof. reflexivity. Qed.

Lemma classify_keyed (q key : string) (r : SearchResult) (groups : groupMap)
  (standalone : list SearchResult) :
  franchiseKey (toLowerCase q) r = Some key -> truthy key = true ->
  classify (toLowerCase q) (groups, standalone) r
    = (pushGroup key r groups, standalone)
  /\ franchised q r = true.
Proof.
  intros Hk Ht; unfold classify, franchised; rewrite Hk, Ht; now split.
Qed.

Lemma classify_unkeyed (q : string) (r : SearchResult) (groups : groupMap)
  (standalone : list SearchResult) :
  franchiseKey (toLowerCase q) r = None ->
  classify (toLowerCase q) (groups, standalone) r
    = (groups, (standalone ++ [r])%list)
  /\ franchised q r = false.
Proof.
  intros Hk; unfold classify, franchised; rewrite Hk; now split.
Qed.

(** With a single franchise key in play, the grouping pass has one
    group. *)
Lemma fold_classify_single (q key : string) (l : list SearchResult) :
  truthy key = true ->
  (forall r, In r l ->
     franchiseKey (toLowerCase q) r = Some key
     \/ franchiseKey (toLowerCase q) r = None) ->
  forall g0 s0,
    fold_left (classify (toLowerCase q)) l ([(key, g0)], s0)
    = ([(key, (g0 ++ filter (franchised q) l)%list)],
       (s0 ++ filter (fun r => negb (franchised q r)) l)%list).
Proof.
  intros Hkey; induction l as [|r l IH]; intros Hall g0 s0;
    cbn [fold_left filter].
  - rewrite !app_nil_r. reflexivity.
  - assert (Hl : forall r', In r' l ->
               franchiseKey (toLowerCase q) r' = Some key
               \/ franchiseKey (toLowerCase q) r' = None)
      by (intros r' Hr'; apply Hall; now right).
    destruct (Hall r (or_introl eq_refl)) as [Hk|Hk].
    + destruct (classify_keyed q key r [(key, g0)] s0 Hk Hkey) as [-> ->].
      simpl. rewrite String.eqb_refl, (IH Hl), <- app_assoc. reflexivity.
    + destruct (classify_unkeyed q r [(key, g0)] s0 Hk) as [-> ->].
      simpl. rewrite (IH Hl), <- app_assoc. reflexivity.
Qed.

Lemma groupFranchiseResults_single (q key : string) (l : list SearchResult) :
  truthy key = true ->
  (forall r, In r l ->
     franchiseKey (toLowerCase q) r = Some key
     \/ franchiseKey (toLowerCase q) r = None) ->
  groupFranchiseResults l q
  = (sort compareYears (filter (franchised q) l)
     ++ filter (fun r => negb (franchised q r)) l)%list.
Proof.
  intros Hkey Hall; unfold groupFranchiseResults.
  assert (Hgen : forall s0,
    fold_left (classify (toLowerCase q)) l ([], s0)
    = (match filter (franchised q) l with
       | [] => []
       | g => [(key, g)]
       end,
       (s0 ++ filter (fun r => negb (franchised q r)) l)%list)).
  { induction l as [|r l IH]; intros s0; cbn [fold_left filter].
    - now rewrite app_nil_r.
    - assert (Hl : forall r', In r' l ->
                 franchiseKey (toLowerCase q) r' = Some key
                 \/ franchiseKey (toLowerCase q) r' = None)
        by (intros r' Hr'; apply Hall; now right).
      destruct (Hall r (or_introl eq_refl)) as [Hk|Hk].
      + destruct (classify_keyed q key r [] s0 Hk Hkey) as [-> ->].
        simpl. now rewrite (fold_classify_single q key l Hkey Hl [r] s0).
      + destruct (classify_unkeyed q r [] s0 Hk) as [-> ->].
        simpl. rewrite (IH Hl), <- app_assoc. reflexivity. }
  rewrite (Hgen []).
  destruct (filter (franchised q) l) as [|x g]; [reflexivity|].
  simpl. now rewrite app_nil_r.
Qed.

Lemma toBoolean_not_nan (x : number) : toBoolean x = true -> x <> NaN.
Proof. destruct x; simpl; intros H; discriminate. Qed.

Lemma notAfter_ascendingYear (x y : SearchResult) :
  knownYear (item x) -> knownYear (item y) ->
  notAfter compareYears x y -> ascendingYear x y.
Proof.
  unfold knownYear, notAfter, compareYears, ascendingYear, numberGe, yearKey,
    yearOf, orDefault, diffSign, SFleb.
  intros Hx Hy; rewrite Hx, Hy.
  apply toBoolean_not_nan in Hx, Hy. unfold NaN in *.
  destruct (SFcompare (parseIntField (year (item x)))
                      (parseIntField (year (item y)))) as [[| |]|] eqn:E;
    simpl; intros H; try reflexivity; try discriminate.
  destruct (parseIntField (year (item x))), (parseIntField (year (item y)));
    simpl in E; try discriminate; congruence.
Qed.

Lemma singleton_item (l : list SearchResult) (m : Movie) :
  Permutation (map item l) [m] -> exists r, l = [r] /\ item r = m.
Proof.
  intros H. apply Permutation_sym, Permutation_length_1_inv in H.
  destruct l as [|r [|r' l]]; try discriminate.
  injection H as H. now exists r.
Qed.

(** C4.  For the query "cars" and the four items named "Cars", "Cars 2",
    "Cars 3" and "Race Cars Weekly", given in any order, the three whose
    name starts with "cars" having a known year: the pipeline returns the
    three as one group in ascending year order, and "Race Cars Weekly"
    after them. *)
Theorem cars_franchise_group :
  forall (host : Host) (clock : nat -> Z) (a b c d : Movie)
         (results : list Movie),
    name a = Some "Cars" -> name b = Some "Cars 2" ->
    name c = Some "Cars 3" -> name d = Some "Race Cars Weekly" ->
    knownYear a -> knownYear b -> knownYear c ->
    Permutation results [a; b; c; d] ->
    exists (group : list SearchResult) (last : SearchResult),
      processSearchResults host clock results "cars"
        = Returns (group ++ [last])%list
      /\ Permutation (map item group) [a; b; c]
      /\ Sorted ascendingYear group
      /\ item last = d.
Proof.
  intros host clock a b c d results Ha Hb Hc Hd Ka Kb Kc Hperm.
  pose proof (displayName_of_name a _ Ha eq_refl) as Da.
  pose proof (displayName_of_name b _ Hb eq_refl) as Db.
  pose proof (displayName_of_name c _ Hc eq_refl) as Dc.
  pose proof (displayName_of_name d _ Hd eq_refl) as Dd.
  assert (Hrel : forall m, In m [a; b; c; d] ->
            exists z, calculateRelevanceScore host m "cars" = Returns z
                      /\ 10 <= z).
  { intros m [<-|[<-|[<-|[<-|[]]]]]; rewrite calculateRelevanceScore_by_name;
      [rewrite Da; exists 100 | rewrite Db; exists 90
       | rewrite Dc; exists 90 | rewrite Dd; exists 80];
      (split; [reflexivity | lia]). }
  assert (Hkey : forall r, In (item r) [a; b; c; d] ->
            franchiseKey (toLowerCase "cars") r = Some "cars"
            \/ franchiseKey (toLowerCase "cars") r = None).
  { intros r [E|[E|[E|[E|[]]]]]; rewrite franchiseKey_by_name, <- E;
      [rewrite Da | rewrite Db | rewrite Dc | rewrite Dd];
      [left | left | left | right]; reflexivity. }
  assert (Fa : franchisedItem "cars" a = true).
  { unfold franchisedItem, franchised.
    rewrite (franchiseKey_by_name _ (bare a)); simpl item.
    now rewrite Da. }
  assert (Fb : franchisedItem "cars" b = true).
  { unfold franchisedItem, franchised.
    rewrite (franchiseKey_by_name _ (bare b)); simpl item.
    now rewrite Db. }
  assert (Fc : franchisedItem "cars" c = true).
  { unfold franchisedItem, franchised.
    rewrite (franchiseKey_by_name _ (bare c)); simpl item.
    now rewrite Dc. }
  assert (Fd : franchisedItem "cars" d = false).
  { unfold franchisedItem, franchised.
    rewrite (franchiseKey_by_name _ (bare d)); simpl item.
    now rewrite Dd. }
  destruct (mapIndexed_scoreResult_returns host clock "cars" results eq_refl
              0%nat) as [scored Hs].
  destruct (mapIndexed_scoreResult_fields _ _ _ _ _ _ Hs) as [Hitems Hfields].
  rewrite Forall_forall in Hfields.
  assert (Hin : forall r, In r scored -> In (item r) [a; b; c; d]).
  { intros r Hr. apply (Permutation_in _ Hperm). rewrite <- Hitems.
    now apply in_map. }
  assert (Hkeep : filter keeps scored = scored).
  { apply forallb_filter_id, forallb_forall. intros r Hr.
    destruct (Hrel _ (Hin r Hr)) as [z [Hz Hge]].
    destruct (Hfields r Hr) as [_ Hcalc]. rewrite Hz in Hcalc.
    injection Hcalc as Hcalc. unfold keeps. rewrite <- Hcalc.
    now apply Z.leb_le. }
  set (L := sort compareResults scored).
  assert (HL : Permutation L scored) by apply sort_perm.
  assert (Hout : processSearchResults host clock results "cars"
                 = Returns (groupFranchiseResults L "cars")).
  { destruct results as [|m rest];
      [apply Permutation_nil in Hperm; discriminate|].
    unfold processSearchResults, rankedBeforeGrouping. rewrite Hs.
    simpl bindO. fold keeps. now rewrite Hkeep. }
  rewrite (groupFranchiseResults_single "cars" "cars" L eq_refl) in Hout
    by (intros r Hr; apply Hkey, Hin, (Permutation_in _ HL), Hr).
  assert (Hitems' : Permutation (map item L) [a; b; c; d]).
  { eapply perm_trans; [apply Permutation_map, HL|]. now rewrite Hitems. }
  assert (Hlast : Permutation
            (map item (filter (fun r => negb (franchised "cars" r)) L)) [d]).
  { change (fun r => negb (franchised "cars" r))
      with (fun r => (fun m => negb (franchisedItem "cars" m)) (item r)).
    rewrite <- filter_map_swap.
    eapply perm_trans; [apply Permutation_filter, Hitems'|].
    simpl. rewrite Fa, Fb, Fc, Fd. apply Permutation_refl. }
  assert (Hgroup : Permutation (map item (filter (franchised "cars") L))
                     [a; b; c]).
  { change (franchised "cars")
      with (fun r => franchisedItem "cars" (item r)).
    rewrite <- filter_map_swap.
    eapply perm_trans; [apply Permutation_filter, Hitems'|].
    simpl. rewrite Fa, Fb, Fc, Fd. apply Permutation_refl. }
  destruct (singleton_item _ _ Hlast) as [last [Elast Hlast']].
  rewrite Elast in Hout.
  exists (sort compareYears (filter (franchised "cars") L)), last.
  assert (Hsorted : Permutation
            (map item (sort compareYears (filter (franchised "cars") L)))
            [a; b; c]).
  { eapply perm_trans; [apply Permutation_map, sort_perm | exact Hgroup]. }
  split; [exact Hout | split; [exact Hsorted | split; [|exact Hlast']]].
  apply (Sorted_weaken (notAfter compareYears) ascendingYear
           (fun r => knownYear (item r))).
  - intros x y; apply notAfter_ascendingYear.
  - apply Forall_forall. intros r Hr.
    assert (Hi : In (item r) [a; b; c])
      by (apply (Permutation_in _ Hsorted); now apply in_map).
    destruct Hi as [<-|[<-|[<-|[]]]]; assumption.
  - apply sort_sorted, compareYears_antisym.
Qed.

Lemma cars_franchise_group_witness :
  exists (group : list SearchResult) (last : SearchResult),
    processSearchResults sampleHost (steadyClock 2025)
      [carsB; carsA; carsC; carsD] "cars"
      = Returns (group ++ [last])%list
    /\ Permutation (map item group) [carsA; carsB; carsC]
    /\ Sorted ascendingYear group
    /\ item last = carsD.
Proof.
  apply (cars_franchise_group sampleHost (steadyClock 2025)
           carsA carsB carsC carsD [carsB; carsA; carsC; carsD]);
    try reflexivity.
  apply perm_swap.
Defined.

End FranchiseGroup.

(* ===================================================================== *)
(** * Properties of the backend *)
(* ===================================================================== *)

Section HashExtraction.
Import RustStr Backend.
Local Open Scope nat_scope.

Lemma starts_with_append (pat suf : string) :
  starts_with (pat ++ suf)%string pat = true.
Proof.
  induction pat as [|c pat IH]; simpl; [now destruct suf|].
  now rewrite Ascii.eqb_refl.
Qed.

Lemma starts_with_split (s pat : string) :
  starts_with s pat = true -> exists suf, s = (pat ++ suf)%string.
Proof.
  revert s; induction pat as [|c pat IH]; intros s H.
  - now exists s.
  - destruct s as [|b s]; simpl in H; [discriminate|].
    apply andb_true_iff in H as [Hc H]. apply Ascii.eqb_eq in Hc as ->.
    destruct (IH _ H) as [suf ->]. now exists suf.
Qed.

Lemma find_unfold (s pat : string) :
  find s pat
  = if starts_with s pat then Some 0
    else match s with
         | EmptyString => None
         | String _ r => option_map S (find r pat)
         end.
Proof. destruct s; reflexivity. Qed.

(** [find] gives an occurrence of the pattern... *)
Lemma find_occurs (s pat : string) (n : nat) :
  find s pat = Some n -> occursAt pat s n.
Proof.
  revert n; induction s as [|c s IH]; intros n H; rewrite find_unfold in H.
  - destruct (starts_with "" pat) eqn:E; [|discriminate H].
    injection H as <-. destruct (starts_with_split _ _ E) as [suf Hs].
    exists ""%string, suf. now split.
  - destruct (starts_with (String c s) pat) eqn:E.
    + injection H as <-. destruct (starts_with_split _ _ E) as [suf Hs].
      exists ""%string, suf. now split.
    + destruct (find s pat) as [k|] eqn:Ek; [|discriminate H].
      injection H as <-. destruct (IH k eq_refl) as [pre [suf [-> Hlen]]].
      exists (String c pre), suf. simpl. now rewrite Hlen.
Qed.

(** ...the first one... *)
Lemma find_first (s pat : string) (n m : nat) :
  find s pat = Some n -> m < n -> ~ occursAt pat s m.
Proof.
  revert n m; induction s as [|c s IH]; intros n m H Hm;
    rewrite find_unfold in H.
  - destruct (starts_with "" pat); [injection H as <-; lia | discriminate H].
  - destruct (starts_with (String c s) pat) eqn:E;
      [injection H as <-; lia|].
    destruct (find s pat) as [k|] eqn:Ek; [|discriminate H].
    injection H as <-. intros [pre [suf [Hs Hlen]]].
    destruct pre as [|b pre]; simpl in Hs, Hlen.
    + rewrite Hs, starts_with_append in E. discriminate E.
    + injection Hs as _ Hs. subst m.
      apply (IH k (String.length pre) eq_refl); [lia|].
      now exists pre, suf.
Qed.

(** ...and finds nothing only when there is none. *)
Lemma find_none (s pat : string) :
  find s pat = None -> forall n, ~ occursAt pat s n.
Proof.
  induction s as [|c s IH]; intros H n [pre [suf [Hs Hlen]]];
    rewrite find_unfold in H.
  - destruct (starts_with "" pat) eqn:E; [discriminate H|].
    destruct pre; [|discriminate Hs]. simpl in Hs.
    rewrite Hs, starts_with_append in E. discriminate E.
  - destruct (starts_with (String c s) pat) eqn:E; [discriminate H|].
    destruct (find s pat) eqn:Ek; [discriminate H|].
    destruct pre as [|b pre]; simpl in Hs.
    + rewrite Hs, starts_with_append in E. discriminate E.
    + injection Hs as _ Hs. apply (IH eq_refl (String.length pre)).
      now exists pre, suf.
Qed.

Lemma length_append (a b : string) :
  String.length (a ++ b) = String.length a + String.length b.
Proof. induction a as [|c a IH]; simpl; [reflexivity | now rewrite IH]. Qed.

Lemma skip_append (a b : string) : skip (String.length a) (a ++ b) = b.
Proof. induction a as [|c a IH]; simpl; [reflexivity | exact IH]. Qed.

Lemma take_append (a b : string) : take (String.length a) (a ++ b) = a.
Proof. induction a as [|c a IH]; simpl; [now destruct b | now rewrite IH]. Qed.

Lemma append_assoc (a b c : string) : ((a ++ b) ++ c = a ++ (b ++ c))%string.
Proof. induction a as [|x a IH]; simpl; [reflexivity | now rewrite IH]. Qed.


Lemma find_char_append (h rest : string) (c : ascii) :
  find_char h c = None ->
  find_char (h ++ rest) c = option_map (Nat.add (String.length h))
                              (find_char rest c).
Proof.
  induction h as [|b h IH]; simpl; intros H.
  - now destruct (find_char rest c).
  - destruct (Ascii.eqb b c); [discriminate|].
    destruct (find_char h c); [discriminate|].
    rewrite (IH eq_refl). now destruct (find_char rest c).
Qed.

Lemma find_char_head (rest : string) (c : ascii) :
  starts_with rest (String c "") = true -> find_char rest c = Some 0.
Proof.
  destruct rest as [|b rest]; cbn [starts_with find_char]; intros H;
    [discriminate H|].
  apply andb_true_iff in H as [Hc _]. apply Ascii.eqb_eq in Hc. subst b.
  now rewrite Ascii.eqb_refl.
Qed.

Lemma extract_after_marker (ul : string -> string) (pre h rest : string) :
  find (pre ++ "btih:" ++ h ++ rest) "btih:" = Some (String.length pre) ->
  find_char h "&" = None ->
  rest = ""%string \/ starts_with rest "&" = true ->
  extract_torrent_hash ul (pre ++ "btih:" ++ h ++ rest)
  = Ok (to_lowercase ul h).
Proof.
  intros Hfind Hh Hrest. unfold extract_torrent_hash. rewrite Hfind.
  cbv zeta. unfold slice, slice_from.
  assert (Hskip : skip (String.length pre + 5) (pre ++ "btih:" ++ h ++ rest)
                  = (h ++ rest)%string).
  { rewrite <- (append_assoc pre "btih:" (h ++ rest)).
    change 5 with (String.length "btih:").
    rewrite <- length_append. apply skip_append. }
  rewrite Hskip, (find_char_append h rest "&" Hh).
  destruct Hrest as [->|Hamp].
  - simpl find_char. simpl option_map. cbv iota.
    rewrite !length_append. simpl String.length.
    replace (String.length pre + (5 + (String.length h + 0))
             - (String.length pre + 5)) with (String.length h) by lia.
    now rewrite take_append.
  - rewrite (find_char_head rest "&" Hamp). simpl option_map. cbv iota.
    replace (String.length pre + 5 + (String.length h + 0)
             - (String.length pre + 5)) with (String.length h) by lia.
    now rewrite take_append.
Qed.

(** C6.  The hash is the lower-cased text between the end of the first
    "btih:" and the next '&', or the end of the link when no '&' follows;
    a link without the marker is an error, and nothing else is; the
    descriptor of the example gives "abcdef0123". *)
Theorem hash_extraction :
  forall unicode_lowercase : string -> string,
    (forall pre h rest : string,
        find (pre ++ "btih:" ++ h ++ rest) "btih:" = Some (String.length pre) ->
        find_char h "&" = None ->
        rest = ""%string \/ starts_with rest "&" = true ->
        extract_torrent_hash unicode_lowercase (pre ++ "btih:" ++ h ++ rest)
        = Ok (to_lowercase unicode_lowercase h))
    /\ (forall d : string,
          find d "btih:" = None ->
          extract_torrent_hash unicode_lowercase d = Err missing_marker_error)
    /\ (forall (d e : string),
          extract_torrent_hash unicode_lowercase d = Err e ->
          forall n, ~ occursAt "btih:" d n)
    /\ extract_torrent_hash unicode_lowercase
         "swarm:?xt=urn:btih:ABCDEF0123&dn=Movie"
       = Ok "abcdef0123"%string.
Proof.
  intros ul; split; [|split; [|split]].
  - apply extract_after_marker.
  - intros d H. unfold extract_torrent_hash. now rewrite H.
  - intros d e H. apply find_none. unfold extract_torrent_hash in H.
    destruct (find d "btih:"); [discriminate | reflexivity].
  - reflexivity.
Qed.

Lemma hash_extraction_witness :
  extract_torrent_hash asciiOnly
    ("magnet:?xt=urn:" ++ "btih:" ++ "20EDD4CD63EB1833" ++ "&dn=The.Godfather")
  = Ok "20edd4cd63eb1833"%string
  /\ extract_torrent_hash asciiOnly "magnet:?xt=urn:sha1:20EDD4CD63EB1833"
     = Err missing_marker_error.
Proof.
  split.
  - apply (proj1 (hash_extraction asciiOnly)
             "magnet:?xt=urn:" "20EDD4CD63EB1833" "&dn=The.Godfather").
    + reflexivity.
    + reflexivity.
    + right; reflexivity.
  - apply (proj1 (proj2 (hash_extraction asciiOnly))). reflexivity.
Defined.

End HashExtraction.

Section DegradedFallback.
Import RustStr Backend.
Local Open Scope nat_scope.

Lemma contains_In (l : list string) (s : string) :
  contains l s = true -> In s l.
Proof.
  unfold contains; intros H. apply existsb_exists in H as [x [Hx E]].
  apply String.eqb_eq in E. now subst.
Qed.

Lemma first_video_none (ul : string -> string) (windows : bool)
  (dir : string) (entries : list (result DirEntry string)) :
  noVideoFile ul (Ok entries) -> first_video ul windows dir entries = None.
Proof.
  induction entries as [|[e|err] rest IH]; intros H; simpl; [reflexivity| |].
  - assert (Hv : is_video ul e = false).
    { unfold is_video. destruct (is_file e) eqn:Ef; [|reflexivity].
      cbn [andb].
      destruct (extension (file_name e)) as [ext|] eqn:Ee; [|reflexivity].
      destruct (contains video_extensions (to_lowercase ul ext)) eqn:Ec;
        [|reflexivity].
      exfalso. apply (H e ext (or_introl eq_refl) Ef Ee).
      now apply contains_In. }
    rewrite Hv. apply IH. intros e' ext Hin. apply H. now right.
  - apply IH. intros e' ext Hin. apply H. now right.
Qed.

Lemma find_video_file_fails (ul : string -> string) (windows : bool)
  (read_dir : string -> ReadDir) (dir : string) :
  noVideoFile ul (read_dir dir) ->
  exists e, find_video_file_in_hash_dir ul windows read_dir dir = Err e.
Proof.
  unfold find_video_file_in_hash_dir; intros H.
  destruct (read_dir dir) as [entries|err]; [|eauto].
  rewrite (first_video_none ul windows dir entries H). eauto.
Qed.

Lemma wait_for_video_file_fails (ul : string -> string) (windows : bool)
  (read_dir_at : nat -> string -> ReadDir) (dir : string) (attempts : nat) :
  forall t0,
    (forall t, t < attempts -> noVideoFile ul (read_dir_at (t0 + t) dir)) ->
    exists e,
      wait_for_video_file ul windows read_dir_at dir attempts t0 = Err e.
Proof.
  induction attempts as [|n IH]; intros t0 H; simpl; [eauto|].
  destruct (find_video_file_fails ul windows (read_dir_at t0) dir) as [e ->].
  { specialize (H 0). rewrite Nat.add_0_r in H. apply H. lia. }
  destruct n as [|n]; [eauto|].
  apply IH. intros t Ht. replace (S t0 + t) with (t0 + S t) by lia.
  apply H. lia.
Qed.

(** C7.  When no video file shows up in the hash directory at any of the
    readings of the bounded wait, Resolve ends in the degraded outcome
    with the helper's own endpoint; it fails only when the descriptor has
    no hash or the helper cannot be started, never for the missing
    file. *)
Theorem degraded_fallback :
  forall (unicode_lowercase : string -> string) (windows : bool)
         (os : Answers) (read_dir_at : nat -> string -> ReadDir)
         (attempts : nat) (w : World) (stream_url : string),
    (forall hash t,
        extract_torrent_hash unicode_lowercase stream_url = Ok hash ->
        t < attempts ->
        noVideoFile unicode_lowercase
          (read_dir_at t (join windows (base_dir windows) hash))) ->
    match fst (resolve_swarm unicode_lowercase windows os read_dir_at attempts
                 w stream_url) with
    | Ok media =>
        media = degradedOutcome
        /\ fst (fst (start_stream os w stream_url)) = Ok local_stream_url
    | Err e =>
        extract_torrent_hash unicode_lowercase stream_url = Err e
        \/ fst (fst (start_stream os w stream_url)) = Err e
    end.
Proof.
  intros ul windows os read_dir_at attempts w url H.
  unfold resolve_swarm.
  destruct (extract_torrent_hash ul url) as [hash|e] eqn:Eh; [|now left].
  assert (Hurl : forall r w1 ev, start_stream os w url = (Ok r, w1, ev) ->
                                 r = local_stream_url).
  { unfold start_stream. intros r w1 ev.
    destruct (stop_stream os w) as [[[u|e] w0] ev0]; [|discriminate].
    destruct (spawn_ok os); [|discriminate]. now intros [= <- _ _]. }
  destruct (start_stream os w url) as [[[local|e] w1] ev] eqn:Es;
    [|now right].
  rewrite (Hurl _ _ _ eq_refl).
  destruct (wait_for_video_file_fails ul windows read_dir_at
              (join windows (base_dir windows) hash) attempts 0) as [e ->].
  { intros t Ht. now apply H. }
  simpl. now split.
Qed.

Lemma degraded_fallback_witness :
  match fst (resolve_swarm asciiOnly false allGood noVideoYet 10 initial_world
               "magnet:?xt=urn:btih:20EDD4CD63EB1833&dn=The.Godfather") with
  | Ok media =>
      media = degradedOutcome
      /\ fst (fst (start_stream allGood initial_world
                     "magnet:?xt=urn:btih:20EDD4CD63EB1833&dn=The.Godfather"))
         = Ok local_stream_url
  | Err e =>
      extract_torrent_hash asciiOnly
        "magnet:?xt=urn:btih:20EDD4CD63EB1833&dn=The.Godfather" = Err e
      \/ fst (fst (start_stream allGood initial_world
                     "magnet:?xt=urn:btih:20EDD4CD63EB1833&dn=The.Godfather"))
         = Err e
  end.
Proof.
  apply (degraded_fallback asciiOnly false allGood noVideoYet 10 initial_world
           "magnet:?xt=urn:btih:20EDD4CD63EB1833&dn=The.Godfather").
  intros hash t _ _ e ext [E|[E|[E|[]]]] Hf Hx;
    try discriminate E; injection E as <-; simpl in Hf, Hx;
    try discriminate Hf.
  injection Hx as <-. vm_compute. intuition discriminate.
Defined.

End DegradedFallback.

Section PlayerFallback.
Import RustStr Backend.
Local Open Scope list_scope.

Lemma launch_all_fail (spawn : Player -> bool) (players : list Player) :
  (forall p, In p players -> spawn p = false) ->
  launch_external_player spawn players
  = (Err no_player_error, map SpawnFailed players).
Proof.
  induction players as [|p rest IH]; intros H; simpl; [reflexivity|].
  rewrite (H p (or_introl eq_refl)), IH; [reflexivity|].
  intros q Hq; apply H; now right.
Qed.

Lemma launch_first_success (spawn : Player -> bool)
  (before after : list Player) (p : Player) :
  (forall q, In q before -> spawn q = false) -> spawn p = true ->
  launch_external_player spawn (before ++ p :: after)
  = (Ok p, map SpawnFailed before ++ [SpawnOk p]).
Proof.
  induction before as [|q before IH]; intros Hb Hp; simpl.
  - now rewrite Hp.
  - rewrite (Hb q (or_introl eq_refl)), IH; [reflexivity| |exact Hp].
    intros q' Hq'; apply Hb; now right.
Qed.

(** Where the first candidate that spawns stands in the list. *)
Lemma first_spawn_split (spawn : Player -> bool) (players : list Player) :
  (forall p, In p players -> spawn p = false)
  \/ exists before p after,
       players = before ++ p :: after
       /\ (forall q, In q before -> spawn q = false) /\ spawn p = true.
Proof.
  induction players as [|p rest IH]; [left; intros p []|].
  destruct (spawn p) eqn:Ep.
  - right. exists [], p, rest. repeat split; [intros q []|exact Ep].
  - destruct IH as [Hall|[before [p' [after [-> [Hb Hp]]]]]].
    + left. intros q [<-|Hq]; [exact Ep | now apply Hall].
    + right. exists (p :: before), p', after. repeat split; [|exact Hp].
      intros q [<-|Hq]; [exact Ep | now apply Hb].
Qed.

(** C8.  The launcher tries the candidates in list order.  Either every
    spawn fails, each candidate has been tried once, and the result is
    the "No video player found" error; or the result is the first
    candidate whose spawn succeeds, the ones before it have been tried
    and have failed, and none after it has been tried.  No spawned
    process is waited for. *)
Theorem player_fallback :
  forall (spawn : Player -> bool) (players : list Player),
    ((forall p, In p players -> spawn p = false)
     /\ launch_external_player spawn players
        = (Err no_player_error, map SpawnFailed players)
     \/ exists before p after,
          players = before ++ p :: after
          /\ (forall q, In q before -> spawn q = false)
          /\ spawn p = true
          /\ launch_external_player spawn players
             = (Ok p, map SpawnFailed before ++ [SpawnOk p]))
    /\ (fst (launch_external_player spawn players) = Err no_player_error
        <-> forall p, In p players -> spawn p = false)
    /\ (forall p, ~ In (WaitExit p)
                    (snd (launch_external_player spawn players)))
    /\ starts_with no_player_error "No video player found" = true.
Proof.
  intros spawn players.
  assert (Hcases :
    (forall p, In p players -> spawn p = false)
     /\ launch_external_player spawn players
        = (Err no_player_error, map SpawnFailed players)
     \/ exists before p after,
          players = before ++ p :: after
          /\ (forall q, In q before -> spawn q = false)
          /\ spawn p = true
          /\ launch_external_player spawn players
             = (Ok p, map SpawnFailed before ++ [SpawnOk p])).
  { destruct (first_spawn_split spawn players)
      as [Hall|[before [p [after [-> [Hb Hp]]]]]].
    - left. split; [exact Hall | now apply launch_all_fail].
    - right. exists before, p, after.
      repeat split; try assumption. now apply launch_first_success. }
  split; [exact Hcases|]. split; [|split; [|reflexivity]].
  - destruct Hcases as [[Hall ->]|[before [p [after [E [Hb [Hp ->]]]]]]];
      simpl; split; auto; try discriminate.
    intros Hall. rewrite (Hall p) in Hp; [discriminate|].
    rewrite E. apply in_or_app. right. now left.
  - intros q.
    destruct Hcases as [[Hall ->]|[before [p [after [E [Hb [Hp ->]]]]]]];
      simpl; intros Hin.
    + apply in_map_iff in Hin as [x [Hx _]]. discriminate.
    + apply in_app_or in Hin as [Hin|[Hin|[]]]; [|discriminate].
      apply in_map_iff in Hin as [x [Hx _]]. discriminate.
Qed.

Lemma player_fallback_witness :
  launch_external_player onlyVlc
    (native_players "The Godfather (1972)" "/tmp/torrent-stream/h/movie.mp4")
  = (Ok {| binary := "vlc";
           args := ["--meta-title"; "The Godfather (1972)"; "--fullscreen";
                    "--play-and-exit"; "/tmp/torrent-stream/h/movie.mp4"]
                   %string |},
     [SpawnFailed
        {| binary := "mpv";
           args := ["--force-media-title"; "The Godfather (1972)";
                    "--fullscreen"; "/tmp/torrent-stream/h/movie.mp4"]
                   %string |};
      SpawnOk
        {| binary := "vlc";
           args := ["--meta-title"; "The Godfather (1972)"; "--fullscreen";
                    "--play-and-exit"; "/tmp/torrent-stream/h/movie.mp4"]
                   %string |}]).
Proof.
  destruct (proj1 (player_fallback onlyVlc
              (native_players "The Godfather (1972)"
                 "/tmp/torrent-stream/h/movie.mp4")))
    as [[Hall _]|[before [p [after [E [Hb [Hp H]]]]]]].
  - specialize (Hall _ (or_intror (or_introl eq_refl))). discriminate Hall.
  - reflexivity.
Defined.

End PlayerFallback.

Section SingleFlight.
Import RustStr Backend.
Local Open Scope nat_scope.

Lemma remove_pid_self (p : pid) : remove_pid p [p] = [].
Proof. unfold remove_pid; simpl. now rewrite Nat.eqb_refl. Qed.

Lemma stop_stream_singleFlight (os : Answers) (w : World) :
  singleFlight w ->
  let '(r, w', events) := stop_stream os w in
  singleFlight w'
  /\ next_pid w' = next_pid w
  /\ match r with
     | Ok _ =>
         running w' = [] /\ peerflix_process w' = None
         /\ events = match peerflix_process w with
                     | Some p => [Killed p]
                     | None => []
                     end
     | Err _ => w' = w /\ events = []
     end.
Proof.
  intros Hw; unfold stop_stream.
  destruct (peerflix_process w) as [child|] eqn:Eh.
  - destruct (kill_ok os).
    + assert (Hnone : remove_pid child (running w) = []).
      { destruct Hw as [[->|[p [-> Hp]]] _]; [reflexivity|].
        rewrite Eh in Hp. injection Hp as ->. apply remove_pid_self. }
      unfold singleFlight; simpl. rewrite Hnone.
      repeat split; auto. intros p Hp; discriminate Hp.
    + repeat split; auto; apply Hw.
  - assert (Hr : running w = []).
    { destruct Hw as [[Hr|[p [_ Hp]]] _]; [exact Hr|].
      rewrite Eh in Hp. discriminate Hp. }
    repeat split; auto; apply Hw.
Qed.

Lemma start_stream_singleFlight (os : Answers) (w : World) (url : string) :
  singleFlight w ->
  let '(r, w', events) := start_stream os w url in
  singleFlight w'
  /\ forall q, In (Spawned q) events ->
       events = (match peerflix_process w with
                 | Some p => [Killed p]
                 | None => []
                 end ++ [Spawned q])%list
       /\ running w' = [q] /\ peerflix_process w' = Some q.
Proof.
  intros Hw. pose proof (stop_stream_singleFlight os w Hw) as Hstop.
  unfold start_stream.
  destruct (stop_stream os w) as [[[u|e] w1] ev].
  - destruct Hstop as [Hw1 [Hnext [Hrun [Hh ->]]]].
    destruct (spawn_ok os).
    + split.
      * split; simpl; [right; exists (next_pid w1); now rewrite Hrun|].
        intros p [= <-]. lia.
      * intros q Hq. apply in_app_or in Hq as [Hq|[[= <-]|[]]].
        { destruct (peerflix_process w); simpl in Hq;
            [destruct Hq as [Hq|[]]; discriminate | contradiction]. }
        simpl. now rewrite Hrun.
    + split; [exact Hw1|].
      intros q Hq. destruct (peerflix_process w); simpl in Hq;
        [destruct Hq as [Hq|[]]; discriminate | contradiction].
  - destruct Hstop as [Hw1 [_ [-> ->]]]. split; [exact Hw1|]. intros q [].
Qed.

Lemma step_singleFlight (w w' : World) :
  singleFlight w -> step w w' -> singleFlight w'.
Proof.
  intros Hw Hstep; destruct Hstep as [os w url r w' ev E|os w r w' ev E|w p Hp].
  - pose proof (start_stream_singleFlight os w url Hw) as H.
    rewrite E in H. apply H.
  - pose proof (stop_stream_singleFlight os w Hw) as H.
    rewrite E in H. apply H.
  - destruct Hw as [[Hr|[q [Hr Hq]]] Hpid]; split; simpl; auto.
    + rewrite Hr in Hp. contradiction.
    + rewrite Hr in Hp |- *. destruct Hp as [<-|[]].
      left. apply remove_pid_self.
Qed.

Lemma reachable_singleFlight (w : World) : reachable w -> singleFlight w.
Proof.
  induction 1 as [|w w' _ IH Hstep].
  - split; [now left | intros p Hp; discriminate].
  - eapply step_singleFlight; eassumption.
Qed.

(** C9.  In every reachable state at most one helper process runs, and
    it is the one whose handle is stored.  A call of [start_stream] in
    such a state that spawns a helper first kills the process of the
    stored handle, and leaves the new helper as the only one running. *)
Theorem single_flight :
  forall w : World,
    reachable w ->
    List.length (running w) <= 1
    /\ (forall p, In p (running w) -> peerflix_process w = Some p)
    /\ forall (os : Answers) (magnet_link : string) (q : pid),
         In (Spawned q) (snd (start_stream os w magnet_link)) ->
         snd (start_stream os w magnet_link)
         = (match peerflix_process w with
            | Some p => [Killed p]
            | None => []
            end ++ [Spawned q])%list
         /\ running (snd (fst (start_stream os w magnet_link))) = [q].
Proof.
  intros w Hreach. pose proof (reachable_singleFlight w Hreach) as Hw.
  split; [|split].
  - destruct Hw as [[->|[p [-> _]]] _]; simpl; lia.
  - destruct Hw as [[Hr|[p [Hr Hp]]] _]; intros q Hq; rewrite Hr in Hq.
    + contradiction.
    + destruct Hq as [<-|[]]. exact Hp.
  - intros os url q Hq.
    pose proof (start_stream_singleFlight os w url Hw) as H.
    destruct (start_stream os w url) as [[r w'] ev]; simpl in *.
    destruct H as [_ H]. destruct (H q Hq) as [He [Hr _]]. now split.
Qed.

Lemma single_flight_witness :
  snd (start_stream allGood oneStream "magnet:?xt=urn:btih:abc")
  = [Killed 0; Spawned 1]
  /\ running (snd (fst (start_stream allGood oneStream
                          "magnet:?xt=urn:btih:abc"))) = [1].
Proof.
  assert (Hreach : reachable oneStream).
  { apply (reachable_step initial_world oneStream reachable_initial).
    apply (step_start allGood initial_world "magnet:?xt=urn:btih:abc"
             (Ok local_stream_url) oneStream [Spawned 0]).
    reflexivity. }
  apply (proj2 (proj2 (single_flight oneStream Hreach))
           allGood "magnet:?xt=urn:btih:abc" 1).
  simpl. right. left. reflexivity.
Defined.

End SingleFlight.

(* ===================================================================== *)
(** * Further properties of the ranking pipeline *)
(* ===================================================================== *)

Section ReturnedItems.
Import JsString JsNumber JsArray Ranking.

Lemma mapIndexed_scoreResult_index (host : Host) (clock : nat -> Z)
  (searchTerm : string) (results : list Movie) :
  forall i scored,
    mapIndexed (scoreResult host clock searchTerm) i results = Returns scored ->
    map originalIndex scored = seq i (List.length results)
    /\ Forall (fun r => nth_error results (originalIndex r - i)
                        = Some (item r)) scored.
Proof.
  induction results as [|m rest IH]; intros i scored H; simpl in H.
  - injection H as <-. split; [reflexivity | constructor].
  - unfold scoreResult at 1 in H.
    destruct (calculateRelevanceScore host m searchTerm) as [z|];
      [|discriminate H].
    simpl in H.
    destruct (mapIndexed (scoreResult host clock searchTerm) (S i) rest)
      as [tl|] eqn:Etl; [|discriminate H].
    injection H as <-. destruct (IH _ _ Etl) as [Hidx Hnth].
    split; [simpl; now rewrite Hidx|].
    constructor; [simpl; now rewrite Nat.sub_diag|].
    assert (Hge : Forall (fun r => (S i <= originalIndex r)%nat) tl).
    { apply Forall_forall. intros r Hr.
      assert (Hin : In (originalIndex r) (seq (S i) (List.length rest)))
        by (rewrite <- Hidx; now apply in_map).
      apply in_seq in Hin. lia. }
    rewrite Forall_forall in Hnth, Hge |- *. intros r Hr.
    specialize (Hnth r Hr). specialize (Hge r Hr).
    replace (originalIndex r - i)%nat with (S (originalIndex r - S i)) by lia.
    exact Hnth.
Qed.

(** Filtering keeps distinct keys distinct. *)
Lemma filter_keeps_distinct {K V : Type} (key : V -> K) (keep : V -> bool)
  (items : list V) (Hdistinct : NoDup (map key items)) :
  NoDup (map key (filter keep items)).
Proof.
  induction items as [|v items IH]; cbn [filter map]; [constructor|].
  cbn [map] in Hdistinct. apply NoDup_cons_iff in Hdistinct as [Hv Hrest].
  destruct (keep v); cbn [map]; [|now apply IH].
  apply NoDup_cons; [|now apply IH].
  intros Hin. apply Hv. apply in_map_iff in Hin as [w [Hw Hin]].
  apply filter_In in Hin as [Hin _]. apply in_map_iff. now exists w.
Qed.

(** X1.  Every returned result is one of the raw items, and its
    [originalIndex] is the position that item has in the raw list; no
    position is returned twice, so the returned list is never longer than
    the raw one. *)
Theorem returned_results_are_inputs :
  forall (host : Host) (clock : nat -> Z) (results : list Movie)
         (searchTerm : string) (out : list SearchResult),
    processSearchResults host clock results searchTerm = Returns out ->
    Forall (fun r => nth_error results (originalIndex r) = Some (item r)) out
    /\ NoDup (map originalIndex out)
    /\ (List.length out <= List.length results)%nat.
Proof.
  intros host clock results searchTerm out H.
  destruct (processSearchResults_inv _ _ _ _ _ H) as [scored [Hs ->]].
  destruct (mapIndexed_scoreResult_index _ _ _ _ _ _ Hs) as [Hidx Hnth].
  assert (Hperm : Permutation
            (groupFranchiseResults (sort compareResults (filter keeps scored))
               searchTerm)
            (filter keeps scored)).
  { eapply perm_trans; [apply groupFranchiseResults_perm | apply sort_perm]. }
  assert (Hnd : NoDup (map originalIndex (filter keeps scored))).
  { apply filter_keeps_distinct. rewrite Hidx. apply seq_NoDup. }
  split; [|split].
  - eapply Permutation_Forall; [apply Permutation_sym, Hperm|].
    apply Forall_forall. intros r Hr. apply filter_In in Hr as [Hr _].
    rewrite Forall_forall in Hnth. specialize (Hnth r Hr).
    now rewrite Nat.sub_0_r in Hnth.
  - eapply Permutation_NoDup; [apply Permutation_map, Permutation_sym, Hperm|].
    exact Hnd.
  - rewrite (Permutation_length Hperm).
    assert (Hlen : List.length scored = List.length results).
    { rewrite <- (length_map originalIndex scored), Hidx. apply length_seq. }
    rewrite <- Hlen. apply filter_length_le.
Qed.

Lemma returned_results_are_inputs_witness :
  match processSearchResults sampleHost (steadyClock 2025) carsCatalog "cars"
  with
  | Returns out =>
      Forall (fun r => nth_error carsCatalog (originalIndex r)
                       = Some (item r)) out
  | Throws => False
  end.
Proof.
  destruct (processSearchResults sampleHost (steadyClock 2025) carsCatalog
              "cars") as [out|] eqn:E.
  - exact (proj1 (returned_results_are_inputs _ _ _ _ _ E)).
  - vm_compute in E; discriminate E.
Defined.

End ReturnedItems.

Section PatternFacts.
Import JsString RegExp Ranking.

Lemma fullMatch_Never (s : string) : fullMatch Never s = false.
Proof. induction s as [|c s IH]; [reflexivity | exact IH]. Qed.

Lemma fullMatch_Eps (s : string) : fullMatch Eps s = true -> s = EmptyString.
Proof.
  destruct s as [|c s]; [reflexivity|]. simpl. now rewrite fullMatch_Never.
Qed.

Lemma fullMatch_Alt (s : string) :
  forall a b, fullMatch (Alt a b) s = fullMatch a s || fullMatch b s.
Proof.
  induction s as [|c s IH]; intros a b; [reflexivity | apply IH].
Qed.

Lemma fullMatch_Chr (c : ascii) (s : string) :
  fullMatch (Chr c) s = true ->
  exists x, s = String x EmptyString /\ canonUnit c = canonUnit x.
Proof.
  destruct s as [|x s]; [discriminate|]. simpl.
  destruct (Ascii.eqb (canonUnit c) (canonUnit x)) eqn:E.
  - intros H. apply fullMatch_Eps in H. subst s. exists x.
    split; [reflexivity | now apply Ascii.eqb_eq].
  - now rewrite fullMatch_Never.
Qed.

Lemma fullMatch_Seq (s : string) :
  forall a b, fullMatch (Seq a b) s = true ->
  exists s1 s2, s = s1 ++ s2 /\ fullMatch a s1 = true /\ fullMatch b s2 = true.
Proof.
  induction s as [|c s IH]; intros a b H.
  - simpl in H. apply andb_true_iff in H as [Ha Hb].
    exists EmptyString, EmptyString. now repeat split.
  - simpl in H. destruct (nullable a) eqn:Na.
    + rewrite fullMatch_Alt in H. apply orb_true_iff in H as [H|H].
      * destruct (IH _ _ H) as [s1 [s2 [-> [H1 H2]]]].
        exists (String c s1), s2.
        split; [reflexivity | split; [exact H1 | exact H2]].
      * exists EmptyString, (String c s).
        split; [reflexivity | split; [exact Na | exact H]].
    + destruct (IH _ _ H) as [s1 [s2 [-> [H1 H2]]]].
      exists (String c s1), s2.
        split; [reflexivity | split; [exact H1 | exact H2]].
Qed.

Lemma matchesPrefix_fullMatch (s : string) :
  forall r, matchesPrefix r s = true ->
  exists s1 s2, s = s1 ++ s2 /\ fullMatch r s1 = true.
Proof.
  induction s as [|c s IH]; intros r H; simpl in H.
  - rewrite orb_false_r in H. exists EmptyString, EmptyString. now split.
  - apply orb_true_iff in H as [H|H].
    + exists EmptyString, (String c s). split; [reflexivity | exact H].
    + destruct (IH _ H) as [s1 [s2 [-> H1]]].
      exists (String c s1), s2. split; [reflexivity | exact H1].
Qed.





End PatternFacts.

Section CaseFacts.
Import JsString RegExp Ranking.

Lemma allUnits_complete (a : ascii) : In a allUnits.
Proof.
  unfold allUnits. apply in_map_iff. exists (nat_of_ascii a).
  split; [apply ascii_nat_embedding|].
  apply in_seq. pose proof (nat_ascii_bounded a). lia.
Qed.

Lemma lowerUnit_fixed (c : ascii) : lowerFixed (lowerUnit c) = true.
Proof.
  assert (H : forallb (fun c => lowerFixed (lowerUnit c)) allUnits = true)
    by (vm_compute; reflexivity).
  rewrite forallb_forall in H. apply H, allUnits_complete.
Qed.


Lemma unitsAll_toLowerCase (s : string) :
  unitsAll lowerFixed (toLowerCase s) = true.
Proof.
  induction s as [|c s IH]; [reflexivity|].
  change (lowerFixed (lowerUnit c) && unitsAll lowerFixed (toLowerCase s)
          = true).
  now rewrite lowerUnit_fixed, IH.
Qed.

Lemma unitsAll_trimStart (p : ascii -> bool) (s : string) :
  unitsAll p s = true -> unitsAll p (trimStart s) = true.
Proof.
  induction s as [|c s IH]; [reflexivity|]. intros H. simpl.
  destruct (isWhiteSpace c); [|exact H].
  simpl in H. apply andb_true_iff in H as [_ H]. now apply IH.
Qed.

Lemma unitsAll_trimEnd (p : ascii -> bool) (s : string) :
  unitsAll p s = true -> unitsAll p (trimEnd s) = true.
Proof.
  induction s as [|c s IH]; [reflexivity|]. intros H. simpl in H.
  apply andb_true_iff in H as [Hc Hs]. specialize (IH Hs). simpl.
  destruct (trimEnd s) as [|d r].
  - destruct (isWhiteSpace c); [reflexivity|]. simpl. now rewrite Hc.
  - change (p c && unitsAll p (String d r) = true). now rewrite Hc, IH.
Qed.

Lemma unitsAll_trim (p : ascii -> bool) (s : string) :
  unitsAll p s = true -> unitsAll p (trim s) = true.
Proof. intros H. now apply unitsAll_trimEnd, unitsAll_trimStart. Qed.

Lemma toLowerCase_fixed (s : string) :
  unitsAll lowerFixed s = true -> toLowerCase s = s.
Proof.
  induction s as [|c s IH]; [reflexivity|]. intros H. simpl in H.
  apply andb_true_iff in H as [Hc Hs]. apply Ascii.eqb_eq in Hc.
  change (String (lowerUnit c) (toLowerCase s) = String c s).
  now rewrite Hc, IH.
Qed.

(** What the scoring compares is already in lower case. *)
Lemma toLowerCase_trimmed (s : string) :
  toLowerCase (trim (toLowerCase s)) = trim (toLowerCase s).
Proof. apply toLowerCase_fixed, unitsAll_trim, unitsAll_toLowerCase. Qed.


Lemma startsWith_includes (s p : string) :
  startsWith s p = true -> includes s p = true.
Proof. intros H. destruct s; simpl in *; now rewrite H. Qed.

Lemma includes_tail (c : ascii) (s p : string) :
  includes s p = true -> includes (String c s) p = true.
Proof. intros H. simpl. rewrite H. apply orb_true_r. Qed.


End CaseFacts.

Section ScoringFacts.
Import JsString JsNumber JsArray RegExp Ranking.

Lemma startsWith_spec (p : string) :
  forall s, startsWith s p = true <-> exists b, s = p ++ b.
Proof.
  induction p as [|a p IH]; intros s.
  - split; [intros _; now exists s | intros _; now destruct s].
  - destruct s as [|c s]; simpl.
    + split; [discriminate | intros [b Hb]; discriminate Hb].
    + rewrite andb_true_iff, Ascii.eqb_eq, IH. split.
      * intros [-> [b ->]]. now exists b.
      * intros [b Hb]. injection Hb as -> ->. split; [reflexivity | now exists b].
Qed.

Lemma includes_spec (p s : string) :
  includes s p = true <-> exists a b, s = a ++ p ++ b.
Proof.
  induction s as [|c s IH].
  - change (startsWith EmptyString p || false = true
            <-> exists a b, EmptyString = a ++ p ++ b).
    rewrite orb_false_r, startsWith_spec. split.
    + intros [b Hb]. now exists EmptyString, b.
    + intros [a [b H]]. destruct a; [now exists b | discriminate H].
  - change (startsWith (String c s) p || includes s p = true
            <-> exists a b, String c s = a ++ p ++ b).
    rewrite orb_true_iff, startsWith_spec, IH. split.
    + intros [[b Hb]|[a [b Hs]]]; [now exists EmptyString, b|].
      exists (String c a), b. simpl. now rewrite Hs.
    + intros [[|x a] [b H]]; [left; now exists b|].
      right. injection H as _ ->. now exists a, b.
Qed.




Lemma scoreTerm_ge (title : string) (score : Z) (t : term) :
  score <= scoreTerm title score t.
Proof.
  unfold scoreTerm.
  repeat match goal with |- context [if ?b then _ else _] => destruct b end;
    lia.
Qed.


Lemma fold_scoreTerm_ge (title : string) (terms : list term) :
  forall score, score <= fold_left (scoreTerm title) terms score.
Proof.
  induction terms as [|t terms IH]; intros score; simpl; [lia|].
  pose proof (scoreTerm_ge title score t). specialize (IH (scoreTerm title score t)).
  lia.
Qed.



End ScoringFacts.

Section ReturnedScores.
Import JsString JsNumber JsArray RegExp Ranking.

Lemma detectFranchiseBoost_values (host : Host) (title searchTerm : string)
  (boost : Z) :
  detectFranchiseBoost host title searchTerm = Returns boost ->
  boost = 0 \/ boost = 15.
Proof.
  unfold detectFranchiseBoost.
  destruct (buildAll _) as [patterns|]; [|discriminate].
  simpl. intros H. injection H as <-.
  match goal with |- context [if ?b then _ else _] => destruct b end; auto.
Qed.

Lemma buildAll_plain (host : Host) (searchLower : string)
  (ps : list (string * regex)) :
  hasSyntaxChar searchLower = false ->
  buildAll (map (newRegExp host searchLower) ps)
  = Returns (map (fun p => test (Seq (lit searchLower) (snd p))) ps).
Proof.
  intros H. induction ps as [|p ps IH]; [reflexivity|].
  simpl. unfold newRegExp at 1. rewrite H, IH. reflexivity.
Qed.



(** The parts of a score that the call returns. *)
Lemma calculateRelevanceScore_parts (host : Host) (movie : Movie)
  (searchTerm : string) (score : Z) :
  calculateRelevanceScore host movie searchTerm = Returns score ->
  exists boost,
    detectFranchiseBoost host (scoredTitle movie)
      (trim (toLowerCase searchTerm)) = Returns boost
    /\ (boost = 0 \/ boost = 15)
    /\ score = baseScore host movie searchTerm + boost.
Proof.
  unfold calculateRelevanceScore, scoredTitle. intros H.
  destruct (detectFranchiseBoost host _ _) as [boost|] eqn:E;
    [|discriminate H].
  simpl in H. injection H as <-. exists boost.
  destruct (detectFranchiseBoost_values _ _ _ _ E) as [->| ->];
    (split; [reflexivity | split; [auto | simpl; lia]]).
Qed.

Lemma returned_result_inv (host : Host) (clock : nat -> Z)
  (results : list Movie) (searchTerm : string) (out : list SearchResult) :
  processSearchResults host clock results searchTerm = Returns out ->
  Forall (fun r =>
            keeps r = true
            /\ calculateRelevanceScore host (item r) searchTerm
               = Returns (relevanceScore r)
            /\ secondaryScore r
               = getSecondaryScore (clock (originalIndex r)) (item r)) out.
Proof.
  intros H.
  destruct (processSearchResults_inv _ _ _ _ _ H) as [scored [Hs ->]].
  destruct (mapIndexed_scoreResult_fields _ _ _ _ _ _ Hs) as [_ Hf].
  eapply Permutation_Forall.
  { apply Permutation_sym. eapply perm_trans;
      [apply groupFranchiseResults_perm | apply sort_perm]. }
  apply Forall_forall. intros r Hr. apply filter_In in Hr as [Hr Hk].
  rewrite Forall_forall in Hf. destruct (Hf r Hr) as [H2 H1]. auto.
Qed.

End ReturnedScores.

Section SearchSoundness.
Import JsString JsNumber JsArray RegExp Ranking.






(** X4.  Under a clock that shows a finite year, the secondary score of
    every returned result is a number that is not NaN and not negative,
    whatever the year and rating fields of the item hold. *)
Theorem returned_secondary_scores :
  forall (host : Host) (clock : nat -> Z) (results : list Movie)
         (searchTerm : string) (out : list SearchResult),
    (forall i, finiteNumber (ofZ (clock i)) = true) ->
    processSearchResults host clock results searchTerm = Returns out ->
    Forall (fun r => nonneg (secondaryScore r)) out.
Proof.
  intros host clock results searchTerm out Hclock H.
  pose proof (returned_result_inv _ _ _ _ _ H) as Hinv.
  eapply Forall_impl; [|exact Hinv]. intros r [_ [_ ->]].
  apply getSecondaryScore_nonneg, Hclock.
Qed.

Lemma returned_secondary_scores_witness :
  match processSearchResults sampleHost (steadyClock 2025) carsCatalog "cars"
  with
  | Returns out => Forall (fun r => nonneg (secondaryScore r)) out
  | Throws => False
  end.
Proof.
  destruct (processSearchResults sampleHost (steadyClock 2025) carsCatalog
              "cars") as [out|] eqn:E.
  - apply (returned_secondary_scores sampleHost (steadyClock 2025)
             carsCatalog "cars" out); [|exact E].
    intros i. vm_compute. reflexivity.
  - vm_compute in E; discriminate E.
Defined.

End SearchSoundness.

Section ExactMatch.
Import JsString JsNumber JsArray RegExp Ranking.

Lemma fullMatch_lit_length (t : string) :
  forall s, fullMatch (lit t) s = true -> String.length s = String.length t.
Proof.
  induction t as [|c t IH]; intros s H.
  - now rewrite (fullMatch_Eps s H).
  - simpl in H. apply fullMatch_Seq in H as [s1 [s2 [-> [H1 H2]]]].
    apply fullMatch_Chr in H1 as [x [-> _]]. simpl. now rewrite (IH _ H2).
Qed.

Lemma test_fullMatch (r : regex) (s : string) :
  test r s = true ->
  exists s0 s1 s2, s = s0 ++ s1 ++ s2 /\ fullMatch r s1 = true.
Proof.
  induction s as [|c s IH]; intros H.
  - change (matchesPrefix r EmptyString || false = true) in H.
    rewrite orb_false_r in H.
    apply matchesPrefix_fullMatch in H as [s1 [s2 [E H]]].
    now exists EmptyString, s1, s2.
  - change (matchesPrefix r (String c s) || test r s = true) in H.
    apply orb_true_iff in H as [H|H].
    + apply matchesPrefix_fullMatch in H as [s1 [s2 [E H]]].
      now exists EmptyString, s1, s2.
    + destruct (IH H) as [s0 [s1 [s2 [-> H1]]]].
      now exists (String c s0), s1, s2.
Qed.

(** Each pattern asks for something after the query, so it only matches
    inside a name that is longer than the query. *)
Lemma test_lit_longer (t : string) (p : regex) (s : string) :
  nullable p = false -> test (Seq (lit t) p) s = true ->
  (String.length t < String.length s)%nat.
Proof.
  intros Hp H. apply test_fullMatch in H as [s0 [s1 [s2 [-> H]]]].
  apply fullMatch_Seq in H as [u [v [-> [Hu Hv]]]].
  apply fullMatch_lit_length in Hu. rewrite !length_append, Hu.
  destruct v as [|x v]; [simpl in Hv; congruence|]. simpl. lia.
Qed.

Lemma length_toLowerCase (s : string) :
  String.length (toLowerCase s) = String.length s.
Proof.
  induction s as [|c s IH]; [reflexivity|].
  change (S (String.length (toLowerCase s)) = S (String.length s)).
  now rewrite IH.
Qed.

Lemma detectFranchiseBoost_short (host : Host) (title searchTerm : string) :
  hasSyntaxChar (toLowerCase searchTerm) = false ->
  (String.length title <= String.length searchTerm)%nat ->
  detectFranchiseBoost host title searchTerm = Returns 0.
Proof.
  intros Hq Hlen. unfold detectFranchiseBoost.
  rewrite (buildAll_plain host _ _ Hq).
  change (Returns (if existsb (fun pattern => pattern (toLowerCase title))
                        (map (fun p => test (Seq (lit (toLowerCase searchTerm))
                                               (snd p))) sequelPatterns)
                   then 15 else 0) = Returns 0).
  destruct (existsb (fun pattern => pattern (toLowerCase title))
              (map (fun p => test (Seq (lit (toLowerCase searchTerm)) (snd p)))
                 sequelPatterns)) eqn:E; [|reflexivity].
  apply existsb_exists in E as [f [Hf Ht]].
  apply in_map_iff in Hf as [p [<- Hp]].
  assert (Hn : nullable (snd p) = false).
  { assert (Hall : forallb (fun p => negb (nullable (snd p))) sequelPatterns
                   = true) by reflexivity.
    rewrite forallb_forall in Hall. specialize (Hall p Hp).
    now apply negb_true_iff in Hall. }
  apply (test_lit_longer _ _ _ Hn) in Ht.
  rewrite !length_toLowerCase in Ht. lia.
Qed.

Lemma baseScore_exact (host : Host) (movie : Movie) (searchTerm : string) :
  trim (toLowerCase searchTerm) <> EmptyString ->
  scoredTitle movie = trim (toLowerCase searchTerm) ->
  baseScore host movie searchTerm = 100.
Proof.
  intros Hne Heq. unfold baseScore. fold (scoredTitle movie). rewrite Heq.
  set (t := trim (toLowerCase searchTerm)) in *.
  assert (Hfirst : filter termTruthy
                     [TermString t; preprocessSearchTerm host searchTerm]
                   = TermString t
                     :: filter termTruthy [preprocessSearchTerm host searchTerm]).
  { cbn [filter termTruthy]. destruct t; [now elim Hne | reflexivity]. }
  rewrite Hfirst. cbn [fold_left].
  assert (Hone : scoreTerm t 0 (TermString t) = 100).
  { unfold scoreTerm, strictEqual. now rewrite String.eqb_refl. }
  rewrite Hone.
  pose proof (fold_scoreTerm_ge t
                (filter termTruthy [preprocessSearchTerm host searchTerm]) 100).
  assert (Ht : tier (fold_left (scoreTerm t)
                       (filter termTruthy [preprocessSearchTerm host searchTerm])
                       100))
    by (apply fold_scoreTerm_tier; unfold tier; lia).
  unfold tier in Ht. lia.
Qed.

End ExactMatch.

Section ExactMatchReturned.
Import JsString JsNumber JsArray RegExp Ranking.

(** X5.  For a query without syntax characters whose trimmed form is not
    empty, the search returns, and an item whose lower-cased, trimmed name
    is the lower-cased, trimmed query is among the results with a
    relevance score of exactly 100: it gets the top base score, and no
    boost, because every sequel pattern needs something after the
    query. *)
Theorem exact_match_is_returned :
  forall (host : Host) (clock : nat -> Z) (results : list Movie)
         (searchTerm : string) (movie : Movie),
    plainQuery searchTerm ->
    trim (toLowerCase searchTerm) <> EmptyString ->
    In movie results ->
    scoredTitle movie = trim (toLowerCase searchTerm) ->
    exists out r,
      processSearchResults host clock results searchTerm = Returns out
      /\ In r out /\ item r = movie /\ relevanceScore r = 100.
Proof.
  intros host clock results searchTerm movie Hq Hne Hin Heq.
  destruct (processSearchResults_returns host clock results searchTerm Hq)
    as [out H].
  destruct (processSearchResults_inv _ _ _ _ _ H) as [scored [Hs Hout]].
  destruct (mapIndexed_scoreResult_fields _ _ _ _ _ _ Hs) as [Hitems Hf].
  rewrite <- Hitems in Hin. apply in_map_iff in Hin as [r [Hr Hin]].
  rewrite Forall_forall in Hf. destruct (Hf r Hin) as [_ Hc].
  destruct (calculateRelevanceScore_parts _ _ _ _ Hc) as [b [Hd [_ Hsc]]].
  rewrite Hr in Hd, Hsc.
  rewrite (detectFranchiseBoost_short host _ _ Hq) in Hd
    by (rewrite Heq; lia).
  injection Hd as <-. rewrite (baseScore_exact host _ _ Hne Heq) in Hsc.
  exists out, r. split; [exact H|]. split; [|split; [exact Hr | lia]].
  rewrite Hout. eapply Permutation_in.
  { apply Permutation_sym. eapply perm_trans;
      [apply groupFranchiseResults_perm | apply sort_perm]. }
  apply filter_In. split; [exact Hin|]. unfold keeps. rewrite Hsc.
  reflexivity.
Qed.

Lemma exact_match_is_returned_witness :
  exists out r,
    processSearchResults sampleHost (steadyClock 2025) carsCatalog " CARS "
    = Returns out
    /\ In r out /\ item r = carsA /\ relevanceScore r = 100.
Proof.
  apply (exact_match_is_returned sampleHost (steadyClock 2025) carsCatalog
           " CARS " carsA).
  - vm_compute. reflexivity.
  - vm_compute. discriminate.
  - simpl. now left.
  - vm_compute. reflexivity.
Defined.

End ExactMatchReturned.

Section GroupingIdentity.
Import JsString JsNumber JsArray RegExp Ranking.

Lemma fold_classify_unfranchised (searchTerm : string)
  (l : list SearchResult) :
  (forall r, In r l -> franchised searchTerm r = false) ->
  forall groups standalone,
    fold_left (classify (toLowerCase searchTerm)) l (groups, standalone)
    = (groups, (standalone ++ l)%list).
Proof.
  induction l as [|r l IH]; intros Hall groups standalone; cbn [fold_left].
  - now rewrite app_nil_r.
  - assert (E : classify (toLowerCase searchTerm) (groups, standalone) r
                = (groups, (standalone ++ [r])%list)).
    { specialize (Hall r (or_introl eq_refl)). unfold franchised in Hall.
      unfold classify.
      destruct (franchiseKey (toLowerCase searchTerm) r) as [key|];
        [now rewrite Hall | reflexivity]. }
    rewrite E, IH by (intros x Hx; apply Hall; now right).
    now rewrite <- app_assoc.
Qed.

Lemma startsWith_nil (s : string) : startsWith s EmptyString = true.
Proof. now destruct s. Qed.

(** A name that does not contain the query has no franchise key, and for
    the empty query the key is the empty string, which counts as none. *)
Lemma franchised_needs_query (searchTerm : string) (r : SearchResult) :
  includes (toLowerCase (displayName (item r))) (toLowerCase searchTerm)
    = false
  \/ toLowerCase searchTerm = EmptyString ->
  franchised searchTerm r = false.
Proof.
  unfold franchised, franchiseKey. intros [H|H].
  - destruct (startsWith _ _) eqn:E;
      [apply startsWith_includes in E; congruence|].
    now rewrite H.
  - rewrite H, startsWith_nil. reflexivity.
Qed.

(** X6.  The grouping pass gives back its input unchanged when no name
    contains the lower-cased query, and also for the empty query: then
    nothing has a franchise key. *)
Theorem grouping_without_franchise :
  forall (results : list SearchResult) (searchTerm : string),
    (forall r, In r results ->
       includes (toLowerCase (displayName (item r))) (toLowerCase searchTerm)
         = false
       \/ toLowerCase searchTerm = EmptyString) ->
    groupFranchiseResults results searchTerm = results.
Proof.
  intros results searchTerm Hall. unfold groupFranchiseResults.
  rewrite fold_classify_unfranchised
    by (intros r Hr; apply franchised_needs_query, Hall, Hr).
  reflexivity.
Qed.

Lemma grouping_without_franchise_witness :
  groupFranchiseResults (map bare carsCatalog) "dune" = map bare carsCatalog.
Proof.
  apply (grouping_without_franchise (map bare carsCatalog) "dune").
  intros r Hr. left. simpl in Hr.
  repeat (destruct Hr as [<-|Hr]; [vm_compute; reflexivity|]). elim Hr.
Defined.

End GroupingIdentity.

Section FranchiseBlocks.
Import JsString JsNumber JsArray RegExp Ranking.

Lemma pushGroup_keys (key : string) (r : SearchResult) (groups : groupMap) :
  (In key (map fst groups)
   /\ map fst (pushGroup key r groups) = map fst groups)
  \/ (~ In key (map fst groups)
      /\ map fst (pushGroup key r groups) = (map fst groups ++ [key])%list).
Proof.
  induction groups as [|[k g] rest IH]; simpl.
  - right. split; [tauto | reflexivity].
  - destruct (String.eqb k key) eqn:E.
    + apply String.eqb_eq in E. left. split; [now left | reflexivity].
    + apply String.eqb_neq in E. destruct IH as [[Hin Hk]|[Hin Hk]].
      * left. split; [now right | simpl; now rewrite Hk].
      * right. split; [tauto | simpl; now rewrite Hk].
Qed.

Lemma pushGroup_In (key : string) (r : SearchResult) (groups : groupMap)
  (k : string) (g : list SearchResult) :
  NoDup (map fst groups) ->
  In (k, g) (pushGroup key r groups) ->
  (k <> key /\ In (k, g) groups)
  \/ (k = key
      /\ ((exists g0, In (key, g0) groups /\ g = (g0 ++ [r])%list)
          \/ (~ In key (map fst groups) /\ g = [r]))).
Proof.
  induction groups as [|[k0 g0] rest IH]; simpl; intros Hnd Hin.
  - destruct Hin as [Hin|[]]. injection Hin as <- <-.
    right. split; [reflexivity | right; split; [tauto | reflexivity]].
  - inversion Hnd as [|? ? Hk0 Hrest]; subst.
    destruct (String.eqb k0 key) eqn:E.
    + apply String.eqb_eq in E. subst k0. destruct Hin as [Hin|Hin].
      * injection Hin as <- <-. right. split; [reflexivity|].
        left. exists g0. split; [now left | reflexivity].
      * left. split; [|now right]. intros ->. apply Hk0.
        apply in_map_iff. now exists (key, g).
    + apply String.eqb_neq in E. destruct Hin as [Hin|Hin].
      * injection Hin as <- <-. left. split; [exact E | now left].
      * destruct (IH Hrest Hin) as [[Hne Hin']|[-> [[g1 [Hg1 ->]]|[Hno ->]]]].
        -- left. split; [exact Hne | now right].
        -- right. split; [reflexivity|]. left. exists g1.
           split; [now right | reflexivity].
        -- right. split; [reflexivity|]. right.
           split; [|reflexivity]. intros [H|H]; [now apply E | now apply Hno].
Qed.

Lemma filter_snoc {A : Type} (p : A -> bool) (l : list A) (x : A) :
  filter p (l ++ [x]) = (filter p l ++ if p x then [x] else [])%list.
Proof. now rewrite filter_app. Qed.

Lemma groupsOf_keyed (searchTerm key : string) (r : SearchResult)
  (groups : groupMap) (seen : list SearchResult) :
  franchiseKey (toLowerCase searchTerm) r = Some key -> truthy key = true ->
  groupsOf searchTerm groups seen ->
  groupsOf searchTerm (pushGroup key r groups) (seen ++ [r]).
Proof.
  intros Hk Ht [Hnd [Hgroups Hnew]].
  assert (Hself : keyIs searchTerm key r = true)
    by (unfold keyIs; rewrite Hk; apply String.eqb_refl).
  assert (Hother : forall k, k <> key -> keyIs searchTerm k r = false).
  { intros k Hne. unfold keyIs. rewrite Hk. apply String.eqb_neq.
    congruence. }
  split; [|split].
  - destruct (pushGroup_keys key r groups) as [[_ ->]|[Hno ->]];
      [exact Hnd|].
    apply NoDup_app; [exact Hnd | repeat constructor; tauto|].
    intros x Hx [<-|[]]. now apply Hno.
  - intros k g Hin.
    destruct (pushGroup_In _ _ _ _ _ Hnd Hin)
      as [[Hne Hin']|[-> [[g0 [Hg0 ->]]|[Hno ->]]]].
    + destruct (Hgroups k g Hin') as [H1 [H2 H3]].
      split; [exact H1 | split; [exact H2|]].
      now rewrite filter_snoc, (Hother k Hne), app_nil_r.
    + destruct (Hgroups key g0 Hg0) as [H1 [H2 H3]].
      split; [exact H1 | split; [now destruct g0|]].
      now rewrite filter_snoc, Hself, <- H3.
    + split; [exact Ht | split; [discriminate|]].
      now rewrite filter_snoc, Hself, (Hnew key Ht Hno).
  - intros k Hkt Hno.
    assert (Hne : k <> key).
    { intros ->. apply Hno.
      destruct (pushGroup_keys key r groups) as [[Hin ->]|[_ ->]];
        [exact Hin | apply in_or_app; right; now left]. }
    rewrite filter_snoc, (Hother k Hne), app_nil_r. apply Hnew; [exact Hkt|].
    intros Hin. apply Hno.
    destruct (pushGroup_keys key r groups) as [[_ ->]|[_ ->]];
      [exact Hin | apply in_or_app; now left].
Qed.

Lemma groupsOf_unkeyed (searchTerm : string) (r : SearchResult)
  (groups : groupMap) (seen : list SearchResult) :
  franchised searchTerm r = false ->
  groupsOf searchTerm groups seen ->
  groupsOf searchTerm groups (seen ++ [r]).
Proof.
  intros Hf [Hnd [Hgroups Hnew]].
  assert (Hother : forall k, truthy k = true -> keyIs searchTerm k r = false).
  { intros k Hk. unfold keyIs. unfold franchised in Hf.
    destruct (franchiseKey (toLowerCase searchTerm) r) as [k'|];
      [|reflexivity].
    apply String.eqb_neq. intros ->. congruence. }
  split; [exact Hnd | split].
  - intros k g Hin. destruct (Hgroups k g Hin) as [H1 [H2 H3]].
    split; [exact H1 | split; [exact H2|]].
    now rewrite filter_snoc, (Hother k H1), app_nil_r.
  - intros k Hk Hno.
    rewrite filter_snoc, (Hother k Hk), app_nil_r. now apply Hnew.
Qed.

End FranchiseBlocks.

Section FranchiseBlocksTheorem.
Import JsString JsNumber JsArray RegExp Ranking.

Lemma fold_classify_groupsOf (searchTerm : string) (l : list SearchResult) :
  forall seen groups standalone groups' standalone',
    groupsOf searchTerm groups seen ->
    fold_left (classify (toLowerCase searchTerm)) l (groups, standalone)
      = (groups', standalone') ->
    groupsOf searchTerm groups' (seen ++ l).
Proof.
  induction l as [|r l IH];
    intros seen groups standalone groups' standalone' Hinv H;
    cbn [fold_left] in H.
  - injection H as <- _. now rewrite app_nil_r.
  - replace (seen ++ r :: l)%list with ((seen ++ [r]) ++ l)%list
      by (now rewrite <- app_assoc).
    destruct (franchiseKey (toLowerCase searchTerm) r) as [key|] eqn:Ek.
    + destruct (truthy key) eqn:Et.
      * destruct (classify_keyed searchTerm key r groups standalone Ek Et)
          as [E _].
        rewrite E in H. eapply IH; [|exact H].
        now apply groupsOf_keyed.
      * assert (E : classify (toLowerCase searchTerm) (groups, standalone) r
                    = (groups, (standalone ++ [r])%list))
          by (unfold classify; now rewrite Ek, Et).
        rewrite E in H. eapply IH; [|exact H].
        apply groupsOf_unkeyed; [|exact Hinv].
        unfold franchised. now rewrite Ek.
    + destruct (classify_unkeyed searchTerm r groups standalone Ek) as [E Hf].
      rewrite E in H. eapply IH; [|exact H].
      now apply groupsOf_unkeyed.
Qed.

Lemma flat_map_sorted_groups (groups : groupMap) :
  flat_map (fun entry => sort compareYears (snd entry)) groups
  = flat_map snd
      (map (fun entry => (fst entry, sort compareYears (snd entry))) groups).
Proof.
  induction groups as [|e groups IH]; [reflexivity|].
  simpl. now rewrite IH.
Qed.

(** The blocks of the grouping pass. *)
Lemma groupFranchiseResults_blocks :
  forall (results : list SearchResult) (searchTerm : string),
  exists blocks : list (string * list SearchResult),
    groupFranchiseResults results searchTerm
    = (flat_map snd blocks
       ++ filter (fun r => negb (franchised searchTerm r)) results)%list
    /\ NoDup (map fst blocks)
    /\ Forall (fun b =>
                 truthy (fst b) = true
                 /\ snd b <> []
                 /\ Permutation (snd b)
                      (filter (keyIs searchTerm (fst b)) results)
                 /\ Sorted ascendingYearKey (snd b)) blocks
    /\ (forall r key,
          In r results ->
          franchiseKey (toLowerCase searchTerm) r = Some key ->
          truthy key = true -> In key (map fst blocks)).
Proof.
  intros results searchTerm. unfold groupFranchiseResults.
  destruct (fold_left (classify (toLowerCase searchTerm)) results ([], []))
    as [groups standalone] eqn:E.
  assert (Hinit : groupsOf searchTerm [] []).
  { split; [constructor | split]; [intros k g [] | reflexivity]. }
  destruct (fold_classify_groupsOf _ _ _ _ _ _ _ Hinit E)
    as [Hnd [Hgroups Hnew]].
  cbn [app] in Hgroups, Hnew.
  apply fold_classify_standalone in E. cbn [app] in E. subst standalone.
  pose proof (sort_perm compareGroups groups) as Hperm.
  exists (map (fun entry => (fst entry, sort compareYears (snd entry)))
            (sort compareGroups groups)).
  assert (Hkeys : map fst (map (fun entry : string * list SearchResult =>
                                  (fst entry, sort compareYears (snd entry)))
                             (sort compareGroups groups))
                  = map fst (sort compareGroups groups)).
  { rewrite map_map. apply map_ext. reflexivity. }
  split; [now rewrite flat_map_sorted_groups|].
  split; [|split].
  - rewrite Hkeys. eapply Permutation_NoDup; [|exact Hnd].
    apply Permutation_map, Permutation_sym, Hperm.
  - apply Forall_forall. intros b Hb.
    apply in_map_iff in Hb as [[k g] [<- Hin]]. cbn [fst snd].
    apply (Permutation_in _ Hperm) in Hin.
    destruct (Hgroups k g Hin) as [H1 [H2 H3]].
    pose proof (sort_perm compareYears g) as Hg.
    split; [exact H1 | split; [|split]].
    + intros Hnil. rewrite Hnil in Hg. apply Permutation_nil in Hg.
      now apply H2.
    + rewrite <- H3. exact Hg.
    + apply (Sorted_weaken (notAfter compareYears) ascendingYearKey
               (fun _ => True)).
      * intros x y _ _; apply notAfter_ascendingYearKey.
      * apply Forall_forall; auto.
      * apply sort_sorted, compareYears_antisym.
  - intros r key Hr Hk Ht. rewrite Hkeys.
    apply (Permutation_in _ (Permutation_map fst (Permutation_sym Hperm))).
    destruct (in_dec string_dec key (map fst groups)) as [Hin|Hno];
      [exact Hin|].
    specialize (Hnew key Ht Hno).
    assert (Hin : In r (filter (keyIs searchTerm key) results)).
    { apply filter_In. split; [exact Hr|]. unfold keyIs. rewrite Hk.
      apply String.eqb_refl. }
    rewrite Hnew in Hin. elim Hin.
Qed.


(** X7.  The franchise grouping puts the results of one franchise key in
    one block: the returned list is a row of blocks followed by the
    results without a key; no two blocks have the same key, every key
    that a result has is the key of a block, and the block of a key holds
    exactly the results with that key, in ascending order of the year
    key. *)
Theorem franchise_blocks :
  forall (results : list SearchResult) (searchTerm : string),
  exists blocks : list (string * list SearchResult),
    groupFranchiseResults results searchTerm
    = (flat_map snd blocks
       ++ filter (fun r => negb (franchised searchTerm r)) results)%list
    /\ NoDup (map fst blocks)
    /\ Forall (fun b =>
                 truthy (fst b) = true
                 /\ snd b <> []
                 /\ Permutation (snd b)
                      (filter (keyIs searchTerm (fst b)) results)
                 /\ Sorted ascendingYearKey (snd b)) blocks
    /\ (forall r key,
          In r results ->
          franchiseKey (toLowerCase searchTerm) r = Some key ->
          truthy key = true -> In key (map fst blocks)).
Proof. exact groupFranchiseResults_blocks. Qed.

End FranchiseBlocksTheorem.

Section SortedThenGrouped.
Import JsString JsNumber JsArray RegExp Ranking.

(** C2, as the code has it.  Under a clock that shows a finite year, the
    list that the pipeline has sorted, before the franchise grouping, is
    ordered by falling relevance score and, at equal relevance, by
    falling secondary score.  The list it returns is the grouping of that
    list: a rearrangement that starts with the franchise groups - one
    block for each franchise key that a result has, holding exactly the
    results with that key, in ascending order of the year key - and ends
    with the items without a franchise key, in their sorted order. *)
Theorem sorted_before_grouping :
  forall (host : Host) (clock : nat -> Z) (results : list Movie)
         (searchTerm : string) (sorted : list SearchResult),
    (forall i, finiteNumber (ofZ (clock i)) = true) ->
    rankedBeforeGrouping host clock results searchTerm = Returns sorted ->
    Sorted rankedOrder sorted
    /\ processSearchResults host clock results searchTerm
       = Returns (groupFranchiseResults sorted searchTerm)
    /\ Permutation (groupFranchiseResults sorted searchTerm) sorted
    /\ exists blocks : list (string * list SearchResult),
         groupFranchiseResults sorted searchTerm
         = (flat_map snd blocks
            ++ filter (fun r => negb (franchised searchTerm r)) sorted)%list
         /\ NoDup (map fst blocks)
         /\ Forall (fun b =>
                      truthy (fst b) = true
                      /\ snd b <> []
                      /\ Permutation (snd b)
                           (filter (keyIs searchTerm (fst b)) sorted)
                      /\ Sorted ascendingYearKey (snd b)) blocks
         /\ (forall r key,
               In r sorted ->
               franchiseKey (toLowerCase searchTerm) r = Some key ->
               truthy key = true -> In key (map fst blocks)).
Proof.
  intros host clock results searchTerm sorted Hclock H.
  split; [|split; [|split]].
  - destruct (rankedBeforeGrouping_inv _ _ _ _ _ H) as [scored [Hs ->]].
    apply (Sorted_weaken (notAfter compareResults) rankedOrder
             (fun r => secondaryScore r <> NaN)).
    + intros x y Hx Hy; now apply notAfter_rankedOrder.
    + eapply Permutation_Forall; [apply Permutation_sym, sort_perm|].
      apply Forall_forall; intros r Hr. apply filter_In in Hr as [Hr _].
      destruct (mapIndexed_scoreResult_fields _ _ _ _ _ _ Hs) as [_ Hf].
      rewrite Forall_forall in Hf. destruct (Hf r Hr) as [-> _].
      apply nonneg_not_nan, getSecondaryScore_nonneg, Hclock.
    + apply sort_sorted, compareResults_antisym.
  - destruct results as [|m rest].
    + cbv in H. injection H as <-. reflexivity.
    + unfold processSearchResults. now rewrite H.
  - apply groupFranchiseResults_perm.
  - apply groupFranchiseResults_blocks.
Qed.

Lemma sorted_before_grouping_witness :
  match rankedBeforeGrouping sampleHost (steadyClock 2025) carsCatalog "cars"
  with
  | Returns sorted =>
      Sorted rankedOrder sorted
      /\ processSearchResults sampleHost (steadyClock 2025) carsCatalog "cars"
         = Returns (groupFranchiseResults sorted "cars")
  | Throws => False
  end.
Proof.
  destruct (rankedBeforeGrouping sampleHost (steadyClock 2025) carsCatalog
              "cars") as [sorted|] eqn:E.
  - pose proof (sorted_before_grouping sampleHost (steadyClock 2025)
                  carsCatalog "cars" sorted (fun _ => eq_refl) E) as H.
    exact (conj (proj1 H) (proj1 (proj2 H))).
  - vm_compute in E; discriminate E.
Defined.

End SortedThenGrouped.

(* ===================================================================== *)
(** * Properties of the search results view *)
(* ===================================================================== *)

Section ResultValidation.
Import JsString Display.
Local Open Scope list_scope.
Local Open Scope nat_scope.

Lemma validationIssues_wellFormed (result : option ResultObject) :
  validationIssues result = [] <-> wellFormedResult result = true.
Proof.
  destruct result as [r|]; simpl; [|split; discriminate].
  destruct (falsy (id r) && falsy (imdb_id r));
    destruct (falsy (name r) && falsy (title r)); simpl;
    split; intros H; try reflexivity; discriminate H.
Qed.

Lemma validateOne_fields (v : Validation) (index : nat)
  (result : option ResultObject) :
  let v' := fst (validateOne (v, index) result) in
  validResults v'
  = validResults v ++ (if wellFormedResult result then [result] else [])
  /\ invalidCount v'
     = invalidCount v + (if wellFormedResult result then 0 else 1)
  /\ snd (validateOne (v, index) result) = S index.
Proof.
  pose proof (validationIssues_wellFormed result) as Hw.
  unfold validateOne.
  destruct (validationIssues result) as [|i rest].
  - rewrite (proj1 Hw eq_refl). simpl. repeat split. lia.
  - destruct (wellFormedResult result);
      [destruct Hw as [_ Hw]; discriminate (Hw eq_refl)|].
    simpl. rewrite app_nil_r. repeat split. lia.
Qed.

Lemma fold_validateOne (results : list (option ResultObject)) :
  forall (v : Validation) (index : nat),
    let v' := fst (fold_left validateOne results (v, index)) in
    validResults v' = validResults v ++ filter wellFormedResult results
    /\ invalidCount v' + List.length (filter wellFormedResult results)
       = invalidCount v + List.length results.
Proof.
  induction results as [|r results IH]; intros v index; cbn [fold_left].
  - simpl. rewrite app_nil_r. split; [reflexivity | lia].
  - destruct (validateOne (v, index) r) as [v1 i1] eqn:E.
    destruct (validateOne_fields v index r) as [H1 [H2 _]].
    rewrite E in H1, H2. cbn [fst] in H1, H2.
    destruct (IH v1 i1) as [G1 G2]. cbn zeta in *.
    rewrite G1, H1, <- app_assoc. cbn [filter].
    destruct (wellFormedResult r); cbn [app List.length] in *;
      (split; [reflexivity | lia]).
Qed.

Lemma filter_idem {A : Type} (p : A -> bool) (l : list A) :
  filter p (filter p l) = filter p l.
Proof.
  induction l as [|x l IH]; [reflexivity|]. simpl.
  destruct (p x) eqn:E; [simpl; now rewrite E, IH | exact IH].
Qed.

(** X8.  The validation keeps, in their order, exactly the results that
    are objects with an identifier ([id] or [imdb_id]) and a name ([name]
    or [title]); it counts every other element as invalid, and running it
    on its own output changes nothing. *)
Theorem validation_keeps_well_formed :
  forall results : list (option ResultObject),
    validateAndFilterSearchResults results = filter wellFormedResult results
    /\ invalidCount (validateAll results)
       + List.length (validateAndFilterSearchResults results)
       = List.length results
    /\ validateAndFilterSearchResults (validateAndFilterSearchResults results)
       = validateAndFilterSearchResults results.
Proof.
  assert (Hfilter : forall results,
            validateAndFilterSearchResults results
            = filter wellFormedResult results).
  { intros results. unfold validateAndFilterSearchResults, validateAll.
    now destruct (fold_validateOne results
                    {| validResults := []; invalidCount := 0; issues := [] |}
                    0) as [-> _]. }
  intros results. split; [apply Hfilter | split].
  - rewrite Hfilter. unfold validateAll.
    destruct (fold_validateOne results
                {| validResults := []; invalidCount := 0; issues := [] |} 0)
      as [_ H]. exact H.
  - rewrite !Hfilter. apply filter_idem.
Qed.

Lemma tab_partition (l : list (option ResultObject)) :
  Forall (fun r => tabbedKind r = true) l ->
  Permutation l
    (filter (fun r => String.eqb (contentType r) "movie") l
     ++ filter (fun r => String.eqb (contentType r) "series") l
     ++ filter (fun r => String.eqb (contentType r) "anime") l).
Proof.
  induction 1 as [|x l Hx _ IH]; [constructor|].
  unfold tabbedKind in Hx. cbn [existsb] in Hx. cbn [filter].
  rewrite (String.eqb_sym (contentType x) "movie"),
    (String.eqb_sym (contentType x) "series"),
    (String.eqb_sym (contentType x) "anime") in Hx |- *.
  destruct (String.eqb "movie" (contentType x)) eqn:E1.
  - apply String.eqb_eq in E1. rewrite <- E1. simpl. now constructor.
  - destruct (String.eqb "series" (contentType x)) eqn:E2.
    + apply String.eqb_eq in E2. rewrite <- E2. simpl.
      now apply Permutation_cons_app.
    + destruct (String.eqb "anime" (contentType x)) eqn:E3;
        [|discriminate Hx].
      cbn [app]. rewrite app_assoc. apply Permutation_cons_app.
      now rewrite <- app_assoc.
Qed.

(** X9.  When every valid result is a movie, a series or an anime - a
    result without a [type] counts as a movie - the three tabs split the
    list of the tab 'all': each result of 'all' is shown under exactly one
    of 'movies', 'series' and 'anime'. *)
Theorem tabs_split_results :
  forall results : list (option ResultObject),
    Forall (fun r => tabbedKind r = true) (filteredResults "all" results) ->
    Permutation (filteredResults "all" results)
      (filteredResults "movies" results
       ++ filteredResults "series" results
       ++ filteredResults "anime" results).
Proof.
  intros results H. unfold filteredResults in *. cbn in H |- *.
  now apply tab_partition.
Qed.

Lemma tabs_split_results_witness :
  let results :=
    [ sampleResult "tt1" "Cars" ""; None; sampleResult "tt2" "Lost" "series";
      sampleResult "" "Nameless" "movie"; sampleResult "tt3" "Akira" "anime" ]
  in
  Permutation (filteredResults "all" results)
    (filteredResults "movies" results
     ++ filteredResults "series" results
     ++ filteredResults "anime" results).
Proof.
  apply tabs_split_results. vm_compute. repeat constructor.
Defined.

End ResultValidation.

(* ===================================================================== *)
(** * Properties of the continue-watching list *)
(* ===================================================================== *)

Section ContinueWatchingFacts.
Import ContinueWatching.
Local Open Scope list_scope.
Local Open Scope nat_scope.

Lemma strictEq_eq (a b : option string) : strictEq a b = true <-> a = b.
Proof.
  destruct a as [x|], b as [y|]; simpl; try (split; congruence).
  rewrite String.eqb_eq. split; congruence.
Qed.

Lemma findIndex_Some {A : Type} (p : A -> bool) (l : list A) :
  forall i, findIndex p l = Some i ->
  exists x, nth_error l i = Some x /\ p x = true.
Proof.
  induction l as [|y l IH]; intros i H; simpl in H; [discriminate|].
  destruct (p y) eqn:E.
  - injection H as <-. now exists y.
  - destruct (findIndex p l) as [j|]; [|discriminate].
    injection H as <-. now apply IH.
Qed.

Lemma findIndex_None {A : Type} (p : A -> bool) (l : list A) :
  findIndex p l = None -> forall x, In x l -> p x = false.
Proof.
  induction l as [|y l IH]; intros H x Hx; [elim Hx|]. simpl in H.
  destruct (p y) eqn:E; [discriminate|].
  destruct (findIndex p l) as [j|]; [discriminate|].
  destruct Hx as [<-|Hx]; [exact E | now apply IH].
Qed.

Lemma setAt_length {A : Type} (x : A) (l : list A) :
  forall i, List.length (setAt i x l) = List.length l.
Proof.
  induction l as [|y l IH]; intros [|i]; simpl; try reflexivity.
  now rewrite IH.
Qed.

Lemma setAt_map {A B : Type} (f : A -> B) (x : A) (l : list A) :
  forall i y, nth_error l i = Some y -> f y = f x ->
  map f (setAt i x l) = map f l.
Proof.
  induction l as [|z l IH]; intros [|i] y H E; simpl in *; try discriminate.
  - injection H as ->. now rewrite E.
  - now rewrite (IH i y H E).
Qed.

Lemma setAt_In {A : Type} (x : A) (l : list A) :
  forall i y, nth_error l i = Some y ->
  In x (setAt i x l) /\ forall z, In z (setAt i x l) -> z = x \/ In z l.
Proof.
  induction l as [|w l IH]; intros [|i] y H; simpl in *; try discriminate.
  - split; [now left|]. intros z [<-|Hz]; auto.
  - destruct (IH i y H) as [H1 H2]. split; [now right|].
    intros z [<-|Hz]; [auto|]. destruct (H2 z Hz); auto.
Qed.

Lemma firstn_NoDup {A : Type} (n : nat) (l : list A) :
  NoDup l -> NoDup (firstn n l).
Proof.
  revert n. induction l as [|x l IH]; intros [|n] H; simpl;
    try constructor.
  - inversion H as [|? ? Hx Hl]; subst. intros Hin. apply Hx.
    rewrite <- (firstn_skipn n l). apply in_or_app. now left.
  - inversion H; subst. now apply IH.
Qed.

End ContinueWatchingFacts.

Section ContinueWatchingTheorems.
Import ContinueWatching.
Local Open Scope list_scope.
Local Open Scope nat_scope.

(** X10.  Adding a selection keeps the continue-watching list tidy: if
    no two entries had the same identifier and there were at most ten
    entries, this still holds afterwards; the new entry of the selected
    title is in the list, and every other entry was there before. *)
Theorem continue_watching_stays_tidy :
  forall (now : string) (content : Content) (contentType : string)
         (progress : Z) (l : list ContinueItem),
    tidy l ->
    let l' := addToContinueWatching now content contentType progress l in
    tidy l'
    /\ In (entryOf now content contentType progress) l'
    /\ (forall x, In x l' ->
          x = entryOf now content contentType progress \/ In x l).
Proof.
  intros now content contentType progress l [Hnd Hlen].
  unfold addToContinueWatching. fold (entryOf now content contentType progress).
  set (e := entryOf now content contentType progress).
  destruct (findIndex (fun item => strictEq (item_id item) (id content)) l)
    as [i|] eqn:E; cbn zeta.
  - apply findIndex_Some in E as [y [Hy Hp]]. apply strictEq_eq in Hp.
    destruct (setAt_In e l i y Hy) as [H1 H2].
    split; [split|split]; trivial.
    + now rewrite (setAt_map item_id e l i y Hy Hp).
    + now rewrite setAt_length.
  - pose proof (findIndex_None _ _ E) as Hnone.
    split; [split|split].
    + rewrite <- firstn_map. apply firstn_NoDup. simpl.
      constructor; [|exact Hnd].
      intros Hin. apply in_map_iff in Hin as [x [Hx Hin]].
      specialize (Hnone x Hin). cbn beta in Hnone.
      rewrite (proj2 (strictEq_eq _ _) Hx) in Hnone. discriminate Hnone.
    + apply firstn_le_length.
    + simpl. now left.
    + intros x Hx. simpl in Hx. destruct Hx as [<-|Hx]; [now left|].
      right. rewrite <- (firstn_skipn 9 l). apply in_or_app. now left.
Qed.

Lemma continue_watching_stays_tidy_witness :
  let l := addToContinueWatching "2025-01-01T00:00:00.000Z"
             (sampleContent "tt1" "Cars") "movie" 0 [] in
  tidy l
  /\ tidy (addToContinueWatching "2025-01-02T00:00:00.000Z"
             (sampleContent "tt2" "Lost") "series" 0 l).
Proof.
  assert (H0 : tidy []) by (split; [constructor | simpl; lia]).
  pose proof (continue_watching_stays_tidy "2025-01-01T00:00:00.000Z"
                (sampleContent "tt1" "Cars") "movie" 0%Z [] H0) as [H1 _].
  split; [exact H1|].
  exact (proj1 (continue_watching_stays_tidy "2025-01-02T00:00:00.000Z"
                  (sampleContent "tt2" "Lost") "series" 0%Z _ H1)).
Defined.

Lemma setAt_as_map (k : option string) (e : ContinueItem)
  (l : list ContinueItem) :
  NoDup (map item_id l) ->
  forall i, findIndex (fun item => strictEq (item_id item) k) l = Some i ->
  setAt i e l = map (fun y => if strictEq (item_id y) k then e else y) l.
Proof.
  induction l as [|w l IH]; intros Hnd i H; simpl in H; [discriminate|].
  inversion Hnd as [|? ? Hw Hl]; subst.
  destruct (strictEq (item_id w) k) eqn:E.
  - injection H as <-. simpl. rewrite E. f_equal.
    rewrite <- (map_id l) at 1. apply map_ext_in. intros y Hy.
    destruct (strictEq (item_id y) k) eqn:Ey; [|reflexivity].
    apply strictEq_eq in E, Ey. exfalso. apply Hw.
    rewrite E, <- Ey. now apply in_map.
  - destruct (findIndex (fun item => strictEq (item_id item) k) l)
      as [j|] eqn:Ej; [|discriminate].
    injection H as <-. simpl. rewrite E. f_equal. now apply IH.
Qed.

(** X11.  Selecting a title that is already in a tidy list does not move
    it to the front: its entry is replaced where it stands by the new one
    (progress and time stamp included) and every other entry keeps its
    place. *)
Theorem reselected_title_keeps_place :
  forall (now : string) (content : Content) (contentType : string)
         (progress : Z) (l : list ContinueItem),
    tidy l ->
    In (id content) (map item_id l) ->
    addToContinueWatching now content contentType progress l
    = map (fun y => if strictEq (item_id y) (id content)
                    then entryOf now content contentType progress else y) l.
Proof.
  intros now content contentType progress l [Hnd _] Hin.
  unfold addToContinueWatching. fold (entryOf now content contentType progress).
  destruct (findIndex (fun item => strictEq (item_id item) (id content)) l)
    as [i|] eqn:E.
  - now apply setAt_as_map.
  - apply in_map_iff in Hin as [x [Hx Hin]].
    pose proof (findIndex_None _ _ E x Hin) as Hnone. cbn beta in Hnone.
    rewrite (proj2 (strictEq_eq _ _) Hx) in Hnone. discriminate Hnone.
Qed.

Lemma reselected_title_keeps_place_witness :
  let l := [ entryOf "t1" (sampleContent "tt1" "Cars") "movie" 40;
             entryOf "t0" (sampleContent "tt2" "Lost") "series" 10 ] in
  addToContinueWatching "t2" (sampleContent "tt2" "Lost") "series" 0 l
  = [ entryOf "t1" (sampleContent "tt1" "Cars") "movie" 40;
      entryOf "t2" (sampleContent "tt2" "Lost") "series" 0 ].
Proof.
  intros l.
  rewrite (reselected_title_keeps_place "t2" (sampleContent "tt2" "Lost")
             "series" 0%Z l).
  - reflexivity.
  - split; [|simpl; lia]. simpl. repeat constructor; simpl; intuition congruence.
  - simpl. now right; left.
Defined.

End ContinueWatchingTheorems.

(* ===================================================================== *)
(** * Properties of the stream list *)
(* ===================================================================== *)

Section QualityLabel.
Import JsString Ranking Streams.
Local Open Scope list_scope.

Lemma takeUnits_spells (w : string) :
  forall s, startsWithFold s w = true ->
  spells (takeUnits (String.length w) s) w
  /\ startsWith s (takeUnits (String.length w) s) = true.
Proof.
  induction w as [|a w IH]; intros s H.
  - split; [split; [reflexivity | reflexivity] | now destruct s].
  - destruct s as [|b s]; [discriminate|]. simpl in H.
    apply andb_true_iff in H as [H1 H2].
    destruct (IH s H2) as [[L1 L2] L3]. split; [split|]; simpl.
    + f_equal. exact L1.
    + rewrite H1. exact L2.
    + rewrite Ascii.eqb_refl. exact L3.
Qed.

Lemma matchHere_None (alternatives : list string) (s : string) :
  matchHere alternatives s = None ->
  forall w, In w alternatives -> startsWithFold s w = false.
Proof.
  induction alternatives as [|a r IH]; intros H w Hw; [elim Hw|].
  simpl in H. destruct (startsWithFold s a) eqn:E; [discriminate|].
  destruct Hw as [<-|Hw]; [exact E | now apply IH].
Qed.

Lemma matchHere_Some (alternatives : list string) (s m : string) :
  matchHere alternatives s = Some m ->
  exists w, In w alternatives /\ spells m w /\ startsWith s m = true.
Proof.
  induction alternatives as [|a r IH]; intros H; [discriminate|].
  simpl in H. destruct (startsWithFold s a) eqn:E.
  - injection H as <-. exists a. split; [now left|].
    now apply takeUnits_spells.
  - destruct (IH H) as [w [Hw Hm]]. exists w. split; [now right | exact Hm].
Qed.

Lemma matchFirst_None (alternatives : list string) (s : string) :
  matchFirst alternatives s = None -> absent s alternatives.
Proof.
  induction s as [|c s IH]; intros H w Hw.
  - simpl in H. destruct (matchHere alternatives EmptyString) eqn:E;
      [discriminate|].
    change (startsWithFold EmptyString w || false = false).
    now rewrite (matchHere_None _ _ E w Hw).
  - simpl in H. destruct (matchHere alternatives (String c s)) eqn:E;
      [discriminate|].
    change (startsWithFold (String c s) w || includesFold s w = false).
    now rewrite (matchHere_None _ _ E w Hw), (IH H w Hw).
Qed.

Lemma matchFirst_Some (alternatives : list string) (s m : string) :
  matchFirst alternatives s = Some m ->
  exists w, In w alternatives /\ spells m w /\ includes s m = true.
Proof.
  induction s as [|c s IH]; intros H.
  - simpl in H. destruct (matchHere alternatives EmptyString) eqn:E;
      [|discriminate].
    injection H as <-. destruct (matchHere_Some _ _ _ E) as [w [Hw [Hs Hi]]].
    exists w. repeat split; try assumption; try apply Hs.
    now apply startsWith_includes.
  - simpl in H. destruct (matchHere alternatives (String c s)) eqn:E.
    + injection H as <-.
      destruct (matchHere_Some _ _ _ E) as [w [Hw [Hs Hi]]].
      exists w. repeat split; try assumption; try apply Hs.
      now apply startsWith_includes.
    + destruct (IH H) as [w [Hw [Hs Hi]]].
      exists w. repeat split; try assumption; try apply Hs.
      now apply includes_tail.
Qed.

Lemma firstQuality_spec (title : string) (patterns : list (list string)) :
  match firstQuality patterns title with
  | None => forall pattern, In pattern patterns -> absent title pattern
  | Some q =>
      exists before pattern after w m,
        patterns = before ++ pattern :: after
        /\ In w pattern /\ q = ("Quality: " ++ m)%string
        /\ spells m w /\ includes title m = true
        /\ forall earlier, In earlier before -> absent title earlier
  end.
Proof.
  induction patterns as [|p patterns IH]; simpl; [intros ? []|].
  destruct (matchFirst p title) as [m|] eqn:E.
  - destruct (matchFirst_Some _ _ _ E) as [w [Hw [Hs Hi]]].
    exists [], p, patterns, w, m. repeat split; try assumption; try apply Hs.
    intros ? [].
  - pose proof (matchFirst_None _ _ E) as Hp.
    destruct (firstQuality patterns title) as [q|].
    + destruct IH as [before [pattern [after [w [m [-> [Hw [-> [Hs [Hi Hb]]]]]]]]]].
      exists (p :: before), pattern, after, w, m.
      repeat split; try assumption; try apply Hs.
      intros earlier [<-|He]; [exact Hp | now apply Hb].
    + intros pattern [<-|Hin]; [exact Hp | now apply IH].
Qed.

(** X12.  The quality label of a stream is taken from the first of the
    nine patterns - 4K or 2160p, 1080p, 720p, 480p, CAM, TS, HDRip,
    BluRay, WEBRip, in this order - that occurs anywhere in the title,
    letter case aside, and spells the word as the title does; there is no
    label exactly when none of the words occurs. *)
Theorem quality_label_priority :
  forall title : string,
    match extractQuality (Some title) with
    | None => forall pattern, In pattern qualityPatterns -> absent title pattern
    | Some q =>
        exists before pattern after w m,
          qualityPatterns = before ++ pattern :: after
          /\ In w pattern /\ q = ("Quality: " ++ m)%string
          /\ spells m w /\ includes title m = true
          /\ forall earlier, In earlier before -> absent title earlier
    end.
Proof.
  intros title. unfold extractQuality.
  destruct title as [|c title]; [|apply firstQuality_spec].
  cbn [truthy negb]. intros pattern Hp w Hw.
  cbn [In qualityPatterns] in Hp.
  repeat (destruct Hp as [<-|Hp];
          [cbn [In] in Hw;
           repeat (destruct Hw as [<-|Hw]; [reflexivity|]); elim Hw|]).
  elim Hp.
Qed.

End QualityLabel.

Section PlaybackRouting.
Import JsString Streams.

Lemma startsWith_head (s p : string) (c d : ascii) :
  startsWith s (String c p) = true -> Ascii.eqb d c = false ->
  forall q, startsWith s (String d q) = false.
Proof.
  destruct s as [|x s]; [discriminate|]. simpl. intros H Hd q.
  apply andb_true_iff in H as [H _]. apply Ascii.eqb_eq in H. subst x.
  now rewrite Hd.
Qed.

Lemma http_not_magnet (s : string) :
  startsWith s "http://" = true \/ startsWith s "https://" = true ->
  startsWith s "magnet:" = false.
Proof.
  intros [H|H]; exact (startsWith_head _ _ _ "m"%char H eq_refl _).
Qed.

(** X13.  The built-in player is only ever given an http or https
    address, never a magnet link: it gets either the address of the
    stream itself, when that passes the test for a direct video, or the
    local address the backend answered for a magnet link. *)
Theorem built_in_player_source :
  forall (invoke : string -> Settled) (url src : string),
    playStream invoke url = BuiltInPlayer src ->
    (startsWith src "http://" = true \/ startsWith src "https://" = true)
    /\ startsWith src "magnet:" = false
    /\ (src = url
        \/ (startsWith url "magnet:" = true /\ invoke url = Resolved src)).
Proof.
  intros invoke url src H.
  assert (Hhttp : (startsWith src "http://" = true
                   \/ startsWith src "https://" = true)
                  /\ (src = url
                      \/ (startsWith url "magnet:" = true
                          /\ invoke url = Resolved src))).
  { unfold playStream in H. destruct (directVideo url) eqn:Ed.
    - injection H as <-. unfold directVideo in Ed.
      apply andb_true_iff in Ed as [Ed _].
      apply andb_true_iff in Ed as [Ed _].
      apply andb_true_iff in Ed as [_ Ed].
      apply orb_true_iff in Ed. auto.
    - assert (Ht : tryExternalPlayer invoke url = BuiltInPlayer src)
        by (destruct (truthy url && startsWith url "magnet:"); exact H).
      unfold tryExternalPlayer in Ht.
      destruct (invoke url) as [result|errorMsg]; [|discriminate Ht].
      destruct (startsWith url "magnet:") eqn:Em; [|discriminate Ht].
      destruct (truthy result); [|discriminate Ht].
      destruct (startsWith result "http://127.0.0.1:") eqn:El;
        [|discriminate Ht].
      injection Ht as <-. split; [|now right].
      left. now apply (startsWith_append result "http://" "127.0.0.1:"). }
  destruct Hhttp as [H1 H2].
  split; [exact H1 | split; [now apply http_not_magnet | exact H2]].
Qed.

Lemma built_in_player_source_witness :
  let invoke := fun _ : string => Resolved "http://127.0.0.1:8888/" in
  startsWith "http://127.0.0.1:8888/" "magnet:" = false
  /\ playStream invoke "https://cdn.example/film.mp4"
     = BuiltInPlayer "https://cdn.example/film.mp4".
Proof.
  intros invoke. split; [|reflexivity].
  apply (built_in_player_source invoke "magnet:?xt=urn:btih:c0ffee"
           "http://127.0.0.1:8888/").
  reflexivity.
Defined.

End PlaybackRouting.

(* ===================================================================== *)
(** * Properties of the movie shelf and of the search box *)
(* ===================================================================== *)

Section RetryPolicy.
Import Catalog.
Local Open Scope list_scope.

Variable Item : Type.

(** X14.  Loading the movie shelf asks the backend at most three times,
    waiting 1000 ms after the first failure and 2000 ms after the second
    (a rejected call and an empty list both count as failures): every
    failed attempt but the third is followed at once by its wait, and
    nothing else is in between.  The shelf shows the first answer that is
    not a failure; the error is shown only after the third failure, with
    retry count 2. *)
Theorem load_movies_retry_policy :
  forall (fetch : nat -> option (list Item)) (fuel : nat),
    (3 <= fuel)%nat ->
    exists trace,
      loadMovies fuel fetch 0 = Some trace
      /\ (invocations trace <= 3)%nat
      /\ waits trace = firstn (invocations trace - 1) [1000; 2000]
      /\ match last trace (ShowError 0) with
         | ShowMovies movies =>
             exists k, (k <= 2)%nat /\ fetch k = Some movies
                       /\ failed (fetch k) = false
                       /\ (forall j, (j < k)%nat -> failed (fetch j) = true)
                       /\ invocations trace = S k
                       /\ trace = retried k ++ [Invoke k; ShowMovies movies]
         | ShowError retryCount =>
             retryCount = 2%nat
             /\ (forall k, (k <= 2)%nat -> failed (fetch k) = true)
             /\ invocations trace = 3%nat
             /\ trace = retried 2 ++ [Invoke 2; ShowError 2]
         | _ => False
         end.
Proof.
  intros fetch fuel Hfuel.
  destruct fuel as [|[|[|fuel]]]; try (exfalso; lia).
  cbn [loadMovies].
  destruct (fetch 0%nat) as [[|m0 l0]|] eqn:E0;
    destruct (fetch 1%nat) as [[|m1 l1]|] eqn:E1;
    destruct (fetch 2%nat) as [[|m2 l2]|] eqn:E2;
    cbn; eexists; (split; [reflexivity|]); cbn;
    (split; [lia|]); (split; [reflexivity|]);
    first
      [ (* the error *)
        split; [reflexivity|]; split; [|split; reflexivity];
        intros k Hk; destruct k as [|[|[|k]]]; try (exfalso; lia);
        rewrite ?E0, ?E1, ?E2; reflexivity
      | exists 0%nat; rewrite ?E0; repeat split; try lia;
        intros j Hj; exfalso; lia
      | exists 1%nat; rewrite ?E1; repeat split; try lia;
        intros j Hj; destruct j as [|j]; [|exfalso; lia];
        rewrite E0; reflexivity
      | exists 2%nat; rewrite ?E2; repeat split; try lia;
        intros j Hj; destruct j as [|[|j]]; try (exfalso; lia);
        rewrite ?E0, ?E1; reflexivity ].
Qed.

End RetryPolicy.

Lemma load_movies_retry_policy_witness :
  exists trace,
    Catalog.loadMovies 3
      (fun k => if (k <? 2)%nat then None else Some ["tt0317219"]) 0
    = Some trace
    /\ waits trace = [1000; 2000]%list
    /\ trace = [ Catalog.Invoke 0; Catalog.Wait 1000; Catalog.Invoke 1;
                 Catalog.Wait 2000; Catalog.Invoke 2;
                 Catalog.ShowMovies ["tt0317219"] ]%list.
Proof.
  destruct (load_movies_retry_policy string
              (fun k => if (k <? 2)%nat then None else Some ["tt0317219"])
              3 (le_n 3)) as [trace [H _]].
  exists trace. split; [exact H|].
  vm_compute in H. injection H as <-. split; reflexivity.
Defined.

Section Debounce.
Import JsString SearchBox.
Local Open Scope list_scope.
Local Open Scope nat_scope.

Lemma run_snoc (events : list Event) (e : Event) :
  run (events ++ [e]) = step (run events) e.
Proof. unfold run. now rewrite fold_left_app. Qed.

Lemma typed_snoc (events : list Event) (e : Event) :
  typed (events ++ [e]) = typed events ++ typed [e].
Proof.
  induction events as [|x events IH]; [reflexivity|].
  destruct x as [value| |id]; simpl; rewrite ?IH; try reflexivity.
  now destruct (truthy (trim value)).
Qed.

Lemma clearTimeout_stored (s : State) :
  oneTimer s ->
  match searchTimeout s with
  | Some id => clearTimeout id (timers s)
  | None => timers s
  end = [].
Proof.
  intros [H|[id [query [H1 H2]]]].
  - rewrite H. now destruct (searchTimeout s).
  - rewrite H1, H2. unfold clearTimeout. simpl. now rewrite Nat.eqb_refl.
Qed.

Lemma step_oneTimer (s : State) (e : Event) :
  oneTimer s -> oneTimer (step s e).
Proof.
  intros H. destruct e as [value| |id]; simpl.
  - unfold handleSearchInput. destruct (truthy (trim value)); simpl.
    + right. exists (next_timer s), (trim value).
      now rewrite (clearTimeout_stored s H).
    + exact H.
  - left. unfold clearSearch. simpl. now apply clearTimeout_stored.
  - unfold fire. destruct H as [H|[id' [query [H1 H2]]]].
    + rewrite H. simpl. now left.
    + rewrite H1. unfold clearTimeout. cbn [find filter fst].
      destruct (Nat.eqb id' id) eqn:E.
      * left. reflexivity.
      * right. now exists id', query.
Qed.

Lemma run_oneTimer (events : list Event) : oneTimer (run events).
Proof.
  induction events as [|e events IH] using rev_ind; [now left|].
  rewrite run_snoc. now apply step_oneTimer.
Qed.

End Debounce.

Section DebounceTheorem.
Import JsString SearchBox.
Local Open Scope list_scope.
Local Open Scope nat_scope.

Lemma step_accounted (s : State) (events : list Event) (e : Event) :
  oneTimer s ->
  List.length (searches s) + List.length (timers s)
    <= List.length (typed events) ->
  (forall q, In q (searches s ++ pendingQueries s) -> In q (typed events)) ->
  List.length (searches (step s e)) + List.length (timers (step s e))
    <= List.length (typed (events ++ [e]))
  /\ (forall q, In q (searches (step s e) ++ pendingQueries (step s e)) ->
        In q (typed (events ++ [e]))).
Proof.
  intros Hone Hcount Hin. rewrite typed_snoc.
  destruct e as [value| |id]; cbn [step typed].
  - unfold handleSearchInput.
    destruct (truthy (trim value)) eqn:Et; cbn [negb].
    + cbn [searches timers]. rewrite (clearTimeout_stored s Hone).
      rewrite !length_app. cbn [List.length app]. split; [lia|].
      intros q Hq. apply in_app_or in Hq as [Hq|Hq].
      * apply in_or_app. left. apply Hin. apply in_or_app. now left.
      * unfold pendingQueries in Hq. cbn [timers app map snd] in Hq.
        destruct Hq as [<-|[]]. apply in_or_app. right. now left.
    + rewrite app_nil_r. split; [exact Hcount | exact Hin].
  - rewrite app_nil_r. unfold clearSearch, pendingQueries.
    cbn [searches timers]. rewrite (clearTimeout_stored s Hone).
    cbn [List.length map]. split; [lia|].
    intros q Hq. apply Hin. apply in_app_or in Hq as [Hq|[]].
    apply in_or_app. now left.
  - rewrite app_nil_r. unfold fire.
    destruct Hone as [H|[id' [query [H1 H2]]]].
    + rewrite H. cbn [find]. split; [exact Hcount | exact Hin].
    + rewrite H1. cbn [find fst]. destruct (Nat.eqb id' id) eqn:E.
      * unfold pendingQueries, clearTimeout. cbn [searches timers filter fst].
        rewrite E. cbn [negb List.length map].
        rewrite H1 in Hcount. cbn [List.length] in Hcount.
        rewrite !length_app. cbn [List.length]. split; [lia|].
        intros q Hq. rewrite app_nil_r in Hq. apply Hin.
        apply in_app_or in Hq as [Hq|[<-|[]]].
        -- apply in_or_app. now left.
        -- apply in_or_app. right. unfold pendingQueries.
           rewrite H1. now left.
      * split; [exact Hcount | exact Hin].
Qed.

(** X15.  The 300 ms debounce of the search box, for any sequence of
    inputs, clicks on the clear button and timers firing: at most one
    search is waiting at any time; every search that was started or is
    waiting is for a query that was typed, and there are never more of
    them than queries typed; and right after an input that is not blank,
    the one search waiting is the search for that input, trimmed. *)
Theorem debounce_keeps_one_search :
  forall events : list Event,
    oneTimer (run events)
    /\ List.length (searches (run events))
       + List.length (timers (run events)) <= List.length (typed events)
    /\ (forall q, In q (searches (run events) ++ pendingQueries (run events))
          -> In q (typed events))
    /\ (forall value, truthy (trim value) = true ->
          pendingQueries (run (events ++ [Input value])) = [trim value]).
Proof.
  intros events.
  assert (Hacc : List.length (searches (run events))
                 + List.length (timers (run events))
                 <= List.length (typed events)
                 /\ (forall q,
                       In q (searches (run events)
                             ++ pendingQueries (run events)) ->
                       In q (typed events))).
  { induction events as [|e events IH] using rev_ind.
    - split; [simpl; lia | intros q []].
    - rewrite run_snoc. destruct IH as [H1 H2].
      apply step_accounted; trivial. apply run_oneTimer. }
  destruct Hacc as [H1 H2].
  split; [apply run_oneTimer | split; [exact H1 | split; [exact H2|]]].
  intros value Hv. rewrite run_snoc. cbn [step].
  unfold handleSearchInput, pendingQueries. rewrite Hv. cbn [negb timers].
  now rewrite (clearTimeout_stored _ (run_oneTimer events)).
Qed.

End DebounceTheorem.

(* ===================================================================== *)
(** * Properties of the keyboard navigation *)
(* ===================================================================== *)

Section NavigationFacts.
Import Navigation.
Local Open Scope list_scope.

Lemma nth_error_in_range {A : Type} (l : list A) (n : nat) :
  (n < List.length l)%nat -> exists x, nth_error l n = Some x /\ In x l.
Proof.
  intros H. destruct (nth_error l n) as [x|] eqn:E.
  - exists x. split; [reflexivity | now apply nth_error_In with n].
  - apply nth_error_None in E. lia.
Qed.

Lemma indexOf_Some (x : element) (l : list element) :
  forall i, indexOf x l = Some i -> nth_error l i = Some x.
Proof.
  induction l as [|y l IH]; intros i H; simpl in H; [discriminate|].
  destruct (Nat.eqb y x) eqn:E.
  - injection H as <-. apply Nat.eqb_eq in E. now subst.
  - destruct (indexOf x l) as [j|]; [|discriminate].
    injection H as <-. now apply IH.
Qed.

Lemma locateFrom_Some (rest : list (list element)) (c : element) :
  forall i si ci, locateFrom i rest c = Some (si, ci) ->
  exists section, nth_error rest (si - i) = Some section
                  /\ nth_error section ci = Some c /\ (i <= si)%nat.
Proof.
  induction rest as [|s rest IH]; intros i si ci H; simpl in H;
    [discriminate|].
  destruct (indexOf c s) as [j|] eqn:E.
  - injection H as <- <-. exists s. rewrite Nat.sub_diag.
    split; [reflexivity | split; [now apply indexOf_Some | lia]].
  - destruct (IH _ _ _ H) as [section [H1 [H2 H3]]].
    exists section. replace (si - i)%nat with (S (si - S i)) by lia.
    split; [exact H1 | split; [exact H2 | lia]].
Qed.

Lemma sections_shown (grids : list Grid) (section : list element) :
  In section (sections grids) ->
  section <> []
  /\ exists g, In g grids /\ hidden g = false /\ cards g = section.
Proof.
  unfold sections. intros H. apply in_map_iff in H as [g [<- Hg]].
  apply filter_In in Hg as [Hg Hp]. apply andb_true_iff in Hp as [Hh Hl].
  apply negb_true_iff in Hh. apply Z.ltb_lt in Hl.
  split; [|now exists g].
  intros Hnil. rewrite Hnil in Hl. simpl in Hl. lia.
Qed.

(** The current position is a card of a section, whenever a section is
    there. *)
Lemma locate_valid (grids : list Grid) (focusedCard : option element) :
  sections grids <> [] ->
  exists section,
    nth_error (sections grids) (fst (locate (sections grids) focusedCard))
    = Some section
    /\ (snd (locate (sections grids) focusedCard) < List.length section)%nat.
Proof.
  intros Hne.
  assert (Hzero : exists section,
             nth_error (sections grids) 0 = Some section
             /\ (0 < List.length section)%nat).
  { destruct (sections grids) as [|s rest] eqn:E; [now elim Hne|].
    exists s. split; [reflexivity|].
    assert (Hs : In s (sections grids)) by (rewrite E; now left).
    apply sections_shown in Hs as [Hs _]. destruct s; [now elim Hs|].
    simpl. lia. }
  unfold locate. destruct focusedCard as [c|]; [|exact Hzero].
  destruct (locateFrom 0 (sections grids) c) as [[si ci]|] eqn:E;
    [|exact Hzero].
  apply locateFrom_Some in E as [section [H1 [H2 _]]].
  rewrite Nat.sub_0_r in H1. exists section. split; [exact H1|].
  apply nth_error_Some. cbn [snd]. congruence.
Qed.

End NavigationFacts.

Section NavigationSafety.
Import Navigation.
Local Open Scope list_scope.

Lemma focusOn_in_range (l : list element) (n : nat) :
  (n < List.length l)%nat ->
  exists c, focusOn (nth_error l n) = FocusOn c /\ In c l.
Proof.
  intros H. destruct (nth_error_in_range l n H) as [c [-> Hc]].
  now exists c.
Qed.

Lemma handleKeyboard_lands (key : Key) (grids : list Grid)
  (focusedCard : option element) :
  match handleKeyboard key grids focusedCard with
  | TypeError => False
  | FocusOn c => exists section, In section (sections grids) /\ In c section
  | Unchanged => True
  end.
Proof.
  unfold handleKeyboard.
  destruct (sections grids) as [|s0 rest] eqn:E; [exact I|].
  assert (Hne : sections grids <> []) by (rewrite E; discriminate).
  destruct (locate_valid grids focusedCard Hne) as [section [H1 H2]].
  assert (Hshown : forall s, In s (s0 :: rest) -> s <> []).
  { intros s Hs. rewrite <- E in Hs. now apply sections_shown in Hs. }
  rewrite E in H1, H2. set (secs := s0 :: rest) in *.
  destruct (locate secs focusedCard) as [si ci]. cbn [fst snd] in H1, H2.
  assert (Hsi : (si < List.length secs)%nat)
    by (apply nth_error_Some; congruence).
  destruct key.
  - destruct (0 <? ci)%nat eqn:Ec; [|exact I]. apply Nat.ltb_lt in Ec.
    rewrite H1.
    destruct (focusOn_in_range section (ci - 1)) as [c [-> Hc]]; [lia|].
    exists section. split; [now apply nth_error_In with si | exact Hc].
  - rewrite H1.
    destruct (Z.of_nat ci <? Z.of_nat (List.length section) - 1) eqn:Ec;
      [|exact I].
    apply Z.ltb_lt in Ec.
    destruct (focusOn_in_range section (ci + 1)) as [c [-> Hc]]; [lia|].
    exists section. split; [now apply nth_error_In with si | exact Hc].
  - destruct (0 <? si)%nat eqn:Es; [|exact I]. apply Nat.ltb_lt in Es.
    destruct (nth_error_in_range secs (si - 1)) as [newSection [-> Hn]];
      [lia|].
    pose proof (Hshown newSection Hn) as Hlen.
    assert (0 < List.length newSection)%nat
      by (destruct newSection; [now elim Hlen | simpl; lia]).
    cbn zeta.
    destruct (Z.min (Z.of_nat ci) (Z.of_nat (List.length newSection) - 1) <? 0)
      eqn:Em; [apply Z.ltb_lt in Em; lia|].
    destruct (focusOn_in_range newSection
                (Z.to_nat (Z.min (Z.of_nat ci)
                             (Z.of_nat (List.length newSection) - 1))))
      as [c [-> Hc]]; [lia|].
    exists newSection. split; [exact Hn | exact Hc].
  - destruct (Z.of_nat si <? Z.of_nat (List.length secs) - 1) eqn:Es;
      [|exact I].
    apply Z.ltb_lt in Es.
    destruct (nth_error_in_range secs (si + 1)) as [newSection [-> Hn]];
      [lia|].
    pose proof (Hshown newSection Hn) as Hlen.
    assert (0 < List.length newSection)%nat
      by (destruct newSection; [now elim Hlen | simpl; lia]).
    cbn zeta.
    destruct (Z.min (Z.of_nat ci) (Z.of_nat (List.length newSection) - 1) <? 0)
      eqn:Em; [apply Z.ltb_lt in Em; lia|].
    destruct (focusOn_in_range newSection
                (Z.to_nat (Z.min (Z.of_nat ci)
                             (Z.of_nat (List.length newSection) - 1))))
      as [c [-> Hc]]; [lia|].
    exists newSection. split; [exact Hn | exact Hc].
Qed.

Lemma indexOfZ_range (focused : option element) (l : list element) :
  -1 <= indexOfZ focused l < Z.of_nat (List.length l).
Proof.
  unfold indexOfZ. destruct focused as [e|]; [|lia].
  destruct (indexOf e l) as [i|] eqn:E; [|lia].
  apply indexOf_Some in E.
  assert (i < List.length l)%nat by (apply nth_error_Some; congruence).
  lia.
Qed.

Lemma handleModalKeyboard_lands (key : Key) (streamItems : list element)
  (focused : option element) :
  match handleModalKeyboard key streamItems focused with
  | TypeError => False
  | FocusOn c => In c streamItems
  | Unchanged => True
  end.
Proof.
  pose proof (indexOfZ_range focused streamItems) as Hi.
  unfold handleModalKeyboard. destruct key; try exact I.
  - destruct (0 <? Z.of_nat (List.length streamItems)) eqn:El; [|exact I].
    apply Z.ltb_lt in El. cbn zeta.
    destruct (focusOn_in_range streamItems
                (Z.to_nat (Z.max 0 (indexOfZ focused streamItems - 1))))
      as [c [-> Hc]]; [lia | exact Hc].
  - destruct (0 <? Z.of_nat (List.length streamItems)) eqn:El; [|exact I].
    apply Z.ltb_lt in El. cbn zeta.
    destruct (Z.min (Z.of_nat (List.length streamItems) - 1)
                (indexOfZ focused streamItems + 1) <? 0) eqn:Em;
      [apply Z.ltb_lt in Em; lia|].
    destruct (focusOn_in_range streamItems
                (Z.to_nat (Z.min (Z.of_nat (List.length streamItems) - 1)
                             (indexOfZ focused streamItems + 1))))
      as [c [-> Hc]]; [lia | exact Hc].
Qed.

(** X16.  An arrow key never moves the focus to an element that is not
    there: on the page the new focus, if any, is a card of a shelf that
    is shown, and in the stream dialog it is one of the listed streams -
    whatever was focused before, also when nothing or something else
    was. *)
Theorem arrow_keys_stay_on_cards :
  forall (key : Key) (grids : list Grid) (streamItems : list element)
         (focused : option element),
    handleKeyboard key grids focused <> TypeError
    /\ handleModalKeyboard key streamItems focused <> TypeError
    /\ (forall c, handleKeyboard key grids focused = FocusOn c ->
          exists g, In g grids /\ hidden g = false /\ In c (cards g))
    /\ (forall c, handleModalKeyboard key streamItems focused = FocusOn c ->
          In c streamItems).
Proof.
  intros key grids streamItems focused.
  pose proof (handleKeyboard_lands key grids focused) as Hk.
  pose proof (handleModalKeyboard_lands key streamItems focused) as Hm.
  repeat split.
  - intros E. now rewrite E in Hk.
  - intros E. now rewrite E in Hm.
  - intros c E. rewrite E in Hk. destruct Hk as [section [Hs Hc]].
    apply sections_shown in Hs as [_ [g [Hg [Hh <-]]]]. now exists g.
  - intros c E. now rewrite E in Hm.
Qed.

End NavigationSafety.

Section NavigationRoundTrip.
Import Navigation.
Local Open Scope list_scope.

Lemma indexOf_None (x : element) (l : list element) :
  ~ In x l -> indexOf x l = None.
Proof.
  induction l as [|y l IH]; intros H; [reflexivity|]. simpl.
  destruct (Nat.eqb y x) eqn:E.
  - apply Nat.eqb_eq in E. elim H. now left.
  - rewrite IH; [reflexivity|]. intros Hin. apply H. now right.
Qed.

Lemma indexOf_NoDup (x : element) (l : list element) :
  NoDup l -> forall j, nth_error l j = Some x -> indexOf x l = Some j.
Proof.
  induction 1 as [|y l Hy Hl IH]; intros [|j] H; simpl in H;
    try discriminate.
  - injection H as ->. simpl. now rewrite Nat.eqb_refl.
  - simpl. destruct (Nat.eqb y x) eqn:E.
    + apply Nat.eqb_eq in E. subst y. elim Hy. now apply nth_error_In with j.
    + now rewrite (IH j H).
Qed.

Lemma NoDup_app_disjoint {A : Type} (l l' : list A) (x : A) :
  NoDup (l ++ l') -> In x l -> In x l' -> False.
Proof.
  induction l as [|y l IH]; intros Hnd Hl Hl'; [elim Hl|].
  simpl in Hnd. inversion Hnd as [|? ? Hy Hrest]; subst.
  destruct Hl as [->|Hl]; [|now apply IH].
  apply Hy. apply in_or_app. now right.
Qed.

Lemma locateFrom_NoDup (secs : list (list element)) :
  NoDup (List.concat secs) ->
  forall i si section j x,
    nth_error secs si = Some section -> nth_error section j = Some x ->
    locateFrom i secs x = Some ((i + si)%nat, j).
Proof.
  induction secs as [|s secs IH]; intros Hnd i si section j x Hs Hx;
    [destruct si; discriminate Hs|].
  simpl in Hnd. destruct si as [|si]; simpl in Hs.
  - injection Hs as ->. simpl.
    rewrite (indexOf_NoDup x section (NoDup_app_remove_r _ _ Hnd) j Hx).
    now rewrite Nat.add_0_r.
  - simpl. rewrite indexOf_None.
    + rewrite (IH (NoDup_app_remove_l _ _ Hnd) (S i) si section j x Hs Hx).
      f_equal. f_equal. lia.
    + intros Hin. apply (NoDup_app_disjoint _ _ x Hnd Hin).
      apply in_concat. exists section.
      split; [now apply nth_error_In with si | now apply nth_error_In with j].
Qed.

(** With every card in one place, the left and right keys read the
    neighbours of the focused card in its own shelf. *)
Lemma handleKeyboard_sideways (grids : list Grid) (si ci : nat)
  (section : list element) (c : element) :
  NoDup (List.concat (sections grids)) ->
  nth_error (sections grids) si = Some section ->
  nth_error section ci = Some c ->
  handleKeyboard ArrowLeft grids (Some c)
  = (if (0 <? ci)%nat then focusOn (nth_error section (ci - 1))
     else Unchanged)
  /\ handleKeyboard ArrowRight grids (Some c)
     = (if Z.of_nat ci <? Z.of_nat (List.length section) - 1
        then focusOn (nth_error section (ci + 1)) else Unchanged).
Proof.
  intros Hnd Hs Hc. unfold handleKeyboard, locate.
  rewrite (locateFrom_NoDup _ Hnd 0%nat si section ci c Hs Hc).
  cbn [Nat.add]. rewrite Hs.
  destruct (sections grids); [destruct si; discriminate Hs|].
  split; reflexivity.
Qed.

(** X17.  When no card is listed twice, the left and right keys undo
    each other: if one of them moves the focus from a card of the page to
    another card, the other one moves it back. *)
Theorem left_and_right_undo_each_other :
  forall (grids : list Grid) (c c' : element),
    NoDup (List.concat (sections grids)) ->
    In c (List.concat (sections grids)) ->
    (handleKeyboard ArrowRight grids (Some c) = FocusOn c' ->
     handleKeyboard ArrowLeft grids (Some c') = FocusOn c)
    /\ (handleKeyboard ArrowLeft grids (Some c) = FocusOn c' ->
        handleKeyboard ArrowRight grids (Some c') = FocusOn c).
Proof.
  intros grids c c' Hnd Hin.
  apply in_concat in Hin as [section [Hs Hc]].
  apply In_nth_error in Hs as [si Hs]. apply In_nth_error in Hc as [ci Hc].
  destruct (handleKeyboard_sideways grids si ci section c Hnd Hs Hc)
    as [HL HR].
  assert (Hlen : (ci < List.length section)%nat)
    by (apply nth_error_Some; congruence).
  split; intros H.
  - rewrite HR in H.
    destruct (Z.of_nat ci <? Z.of_nat (List.length section) - 1) eqn:E;
      [|discriminate H].
    destruct (nth_error section (ci + 1)) as [x|] eqn:Ex;
      [|discriminate H].
    injection H as ->.
    destruct (handleKeyboard_sideways grids si (ci + 1) section c' Hnd Hs Ex)
      as [HL' _].
    rewrite HL'. replace (0 <? ci + 1)%nat with true
      by (symmetry; apply Nat.ltb_lt; lia).
    replace (ci + 1 - 1)%nat with ci by lia. now rewrite Hc.
  - rewrite HL in H. destruct (0 <? ci)%nat eqn:E; [|discriminate H].
    apply Nat.ltb_lt in E.
    destruct (nth_error section (ci - 1)) as [x|] eqn:Ex;
      [|discriminate H].
    injection H as ->.
    destruct (handleKeyboard_sideways grids si (ci - 1) section c' Hnd Hs Ex)
      as [_ HR'].
    rewrite HR'.
    replace (Z.of_nat (ci - 1) <? Z.of_nat (List.length section) - 1)
      with true by (symmetry; apply Z.ltb_lt; lia).
    replace (ci - 1 + 1)%nat with ci by lia. now rewrite Hc.
Qed.

Lemma left_and_right_undo_each_other_witness :
  let grids := [ {| hidden := false; cards := [10; 11; 12]%nat |};
                 {| hidden := true; cards := [20]%nat |};
                 {| hidden := false; cards := [30; 31]%nat |} ] in
  handleKeyboard ArrowRight grids (Some 11%nat) = FocusOn 12%nat
  /\ handleKeyboard ArrowLeft grids (Some 12%nat) = FocusOn 11%nat.
Proof.
  intros grids. split; [reflexivity|].
  apply (left_and_right_undo_each_other grids 11%nat 12%nat).
  - vm_compute. repeat constructor; simpl; intuition lia.
  - vm_compute. tauto.
  - reflexivity.
Defined.

End NavigationRoundTrip.

(* ===================================================================== *)
(** * Further properties of the backend *)
(* ===================================================================== *)

Section VideoFileSearch.
Import RustStr Backend.
Local Open Scope list_scope.




(** How [join] writes the path of an entry. *)
Example join_after_separator :
  join false "/tmp/one/" "movie.WebM" = "/tmp/one/movie.WebM"%string
  /\ join false "/tmp/one" "movie.WebM" = "/tmp/one/movie.WebM"%string
  /\ join false "" "movie.WebM" = "movie.WebM"%string
  /\ join false "/tmp/one" "/etc/passwd" = "/etc/passwd"%string.
Proof. repeat split. Qed.

Example join_on_windows :
  join true (base_dir true) "c0ffee" = "C:/tmp/torrent-stream\c0ffee"%string
  /\ join true "C:/tmp/one/" "movie.mkv" = "C:/tmp/one/movie.mkv"%string
  /\ join true "C:\tmp\one\" "movie.mkv" = "C:\tmp\one\movie.mkv"%string
  /\ join true "C:" "movie.mkv" = "C:movie.mkv"%string
  /\ join true "C:\tmp" "D:\films" = "D:\films"%string
  /\ join true "C:\tmp" "\films" = "C:\films"%string.
Proof. repeat split. Qed.




End VideoFileSearch.

Section MagnetRoundTrip.
Import RustStr Backend AddonClient.

Lemma lowerHexByte_plain (c : ascii) :
  lowerHexByte c = true ->
  is_ascii_byte c = true /\ to_ascii_lowercase_byte c = c
  /\ Ascii.eqb c "&" = false.
Proof.
  assert (H : forallb (fun c => implb (lowerHexByte c)
                         (is_ascii_byte c
                          && Ascii.eqb (to_ascii_lowercase_byte c) c
                          && negb (Ascii.eqb c "&"))) allUnits = true)
    by (vm_compute; reflexivity).
  rewrite forallb_forall in H. specialize (H c (allUnits_complete c)).
  intros Hc. rewrite Hc in H. simpl in H.
  apply andb_true_iff in H as [H H3]. apply andb_true_iff in H as [H1 H2].
  apply Ascii.eqb_eq in H2. apply negb_true_iff in H3. auto.
Qed.

Lemma lowerHex_plain (h : string) :
  unitsAll lowerHexByte h = true ->
  is_ascii h = true
  /\ JsString.mapUnits to_ascii_lowercase_byte h = h
  /\ find_char h "&" = None.
Proof.
  induction h as [|c h IH]; [now repeat split|]. intros H. simpl in H.
  apply andb_true_iff in H as [Hc Hh].
  destruct (lowerHexByte_plain c Hc) as [H1 [H2 H3]].
  destruct (IH Hh) as [G1 [G2 G3]]. simpl.
  now rewrite H1, H2, H3, G1, G2, G3.
Qed.

Lemma find_skip_head (a c : ascii) (s p : string) :
  Ascii.eqb a c = false ->
  find (String c s) (String a p) = option_map S (find s (String a p)).
Proof. intros H. rewrite find_unfold. simpl. now rewrite H. Qed.

Lemma find_at_marker (h : string) :
  find ("magnet:?xt=urn:" ++ "btih:" ++ h) "btih:" = Some 15%nat.
Proof.
  cbn [append].
  do 15 (rewrite find_skip_head by reflexivity).
  rewrite find_unfold.
  change (String "b" (String "t" (String "i" (String "h" (String ":" h)))))
    with ("btih:" ++ h)%string.
  now rewrite starts_with_append.
Qed.

(** X19.  A magnet link made from an info hash and a tracker list gives
    the hash back: the hash extracted from it is the info hash in lower
    case, for every info hash without '&' and every tracker list, and the
    info hash itself when that is written in digits and the letters a to
    f. *)
Theorem magnet_round_trip :
  forall (unicode_lowercase : string -> string) (info_hash : string)
         (trackers : list string),
    find_char info_hash "&" = None ->
    extract_torrent_hash unicode_lowercase (magnet info_hash trackers)
    = Ok (to_lowercase unicode_lowercase info_hash)
    /\ (unitsAll lowerHexByte info_hash = true ->
        extract_torrent_hash unicode_lowercase (magnet info_hash trackers)
        = Ok info_hash).
Proof.
  intros ul info_hash trackers Hamp.
  assert (H : extract_torrent_hash ul (magnet info_hash trackers)
              = Ok (to_lowercase ul info_hash)).
  { change (magnet info_hash trackers)
      with ("magnet:?xt=urn:" ++ "btih:" ++ info_hash
            ++ ("&tr=" ++ join "&tr=" trackers))%string.
    apply extract_after_marker;
      [apply find_at_marker | exact Hamp | now right]. }
  split; [exact H|]. intros Hhex. rewrite H.
  destruct (lowerHex_plain info_hash Hhex) as [H1 [H2 _]].
  unfold to_lowercase. now rewrite H1, H2.
Qed.

Lemma magnet_round_trip_witness :
  extract_torrent_hash asciiOnly
    (magnet "c0ffee0123456789abcdef0123456789abcdef01"
       ["udp://tracker.example:1337"; "udp://open.example:80"])
  = Ok "c0ffee0123456789abcdef0123456789abcdef01"%string.
Proof.
  apply (magnet_round_trip asciiOnly
           "c0ffee0123456789abcdef0123456789abcdef01"
           ["udp://tracker.example:1337"; "udp://open.example:80"]).
  - reflexivity.
  - reflexivity.
Defined.

End MagnetRoundTrip.

Section HashForm.
Import RustStr Backend.
Local Open Scope nat_scope.

Lemma is_ascii_skip (s : string) :
  forall n, is_ascii s = true -> is_ascii (skip n s) = true.
Proof.
  induction s as [|c s IH]; intros [|n] H; trivial. simpl in H |- *.
  apply andb_true_iff in H as [_ H]. now apply IH.
Qed.

Lemma is_ascii_take (s : string) :
  forall n, is_ascii s = true -> is_ascii (take n s) = true.
Proof.
  induction s as [|c s IH]; intros [|n] H; trivial. simpl in H |- *.
  apply andb_true_iff in H as [Hc H]. now rewrite Hc, IH.
Qed.

Lemma length_skip (s : string) :
  forall n, String.length (skip n s) <= String.length s.
Proof.
  induction s as [|c s IH]; intros [|n]; simpl; try lia.
  specialize (IH n). lia.
Qed.

Lemma length_take (s : string) :
  forall n, String.length (take n s) <= String.length s.
Proof.
  induction s as [|c s IH]; intros [|n]; simpl; try lia.
  specialize (IH n). lia.
Qed.

Lemma find_char_take_none (s : string) (c : ascii) :
  forall n, find_char s c = None -> find_char (take n s) c = None.
Proof.
  induction s as [|b s IH]; intros [|n] H; trivial. simpl in H |- *.
  destruct (Ascii.eqb b c); [discriminate|].
  destruct (find_char s c) eqn:E; [discriminate|]. now rewrite IH.
Qed.

Lemma find_char_take_before (s : string) (c : ascii) :
  forall pos, find_char s c = Some pos -> find_char (take pos s) c = None.
Proof.
  induction s as [|b s IH]; intros pos H; simpl in H; [discriminate|].
  destruct (Ascii.eqb b c) eqn:E; [now injection H as <-|].
  destruct (find_char s c) as [p|] eqn:Ep; [|discriminate].
  injection H as <-. simpl. now rewrite E, (IH p eq_refl).
Qed.

Lemma lowercase_byte_form (c : ascii) :
  upperByte (to_ascii_lowercase_byte c) = false
  /\ Ascii.eqb (to_ascii_lowercase_byte c) "&" = Ascii.eqb c "&".
Proof.
  assert (H : forallb (fun c =>
                negb (upperByte (to_ascii_lowercase_byte c))
                && Bool.eqb (Ascii.eqb (to_ascii_lowercase_byte c) "&")
                            (Ascii.eqb c "&")) allUnits = true)
    by (vm_compute; reflexivity).
  rewrite forallb_forall in H. specialize (H c (allUnits_complete c)).
  apply andb_true_iff in H as [H1 H2]. apply negb_true_iff in H1.
  apply Bool.eqb_prop in H2. auto.
Qed.

Lemma lowercase_form (s : string) :
  find_char s "&" = None ->
  find_char (JsString.mapUnits to_ascii_lowercase_byte s) "&" = None
  /\ unitsAll (fun c => negb (upperByte c))
       (JsString.mapUnits to_ascii_lowercase_byte s) = true
  /\ String.length (JsString.mapUnits to_ascii_lowercase_byte s)
     = String.length s.
Proof.
  induction s as [|c s IH]; [now repeat split|]. intros H. simpl in H.
  destruct (Ascii.eqb c "&") eqn:E; [discriminate|].
  destruct (find_char s "&") eqn:Ef; [discriminate|].
  destruct (IH eq_refl) as [H1 [H2 H3]].
  destruct (lowercase_byte_form c) as [G1 G2].
  simpl. now rewrite G2, E, H1, G1, H2, H3.
Qed.

(** X20.  The hash taken from an ASCII link has no '&' and no capital
    letter in it, and is not longer than the link: it can name the
    lower-case directory of the download. *)
Theorem extracted_hash_form :
  forall (unicode_lowercase : string -> string) (magnet_link hash : string),
    is_ascii magnet_link = true ->
    extract_torrent_hash unicode_lowercase magnet_link = Ok hash ->
    find_char hash "&" = None
    /\ unitsAll (fun c => negb (upperByte c)) hash = true
    /\ String.length hash <= String.length magnet_link.
Proof.
  intros ul d hash Hascii H. unfold extract_torrent_hash in H.
  destruct (find d "btih:") as [start|]; [|discriminate H].
  cbv zeta in H. injection H as <-. unfold slice, slice_from.
  set (x := skip (start + 5) d).
  assert (Hx : is_ascii x = true) by (apply is_ascii_skip, Hascii).
  assert (Hlx : String.length x <= String.length d) by apply length_skip.
  set (n := match find_char x "&" with
            | Some pos => start + 5 + pos
            | None => String.length d
            end - (start + 5)).
  assert (Hn : find_char (take n x) "&" = None).
  { unfold n. destruct (find_char x "&") as [pos|] eqn:E.
    - replace (start + 5 + pos - (start + 5)) with pos by lia.
      now apply find_char_take_before.
    - now apply find_char_take_none. }
  unfold to_lowercase. rewrite (is_ascii_take x n Hx).
  destruct (lowercase_form _ Hn) as [H1 [H2 H3]].
  split; [exact H1 | split; [exact H2|]].
  rewrite H3. pose proof (length_take x n). lia.
Qed.

Lemma extracted_hash_form_witness :
  find_char "abcdef0123" "&" = None
  /\ unitsAll (fun c => negb (upperByte c)) "abcdef0123" = true
  /\ String.length "abcdef0123"
     <= String.length "magnet:?xt=urn:btih:ABCDEF0123&dn=Movie".
Proof.
  apply (extracted_hash_form asciiOnly
           "magnet:?xt=urn:btih:ABCDEF0123&dn=Movie" "abcdef0123").
  - reflexivity.
  - reflexivity.
Defined.

End HashForm.

Section FirstLauncherFacts.
Import FirstLauncher.
Local Open Scope list_scope.

Lemma try_players_spec (spawn : string -> bool) (candidates : list string) :
  match snd (try_players spawn candidates) with
  | Ok message =>
      exists before player after,
        candidates = before ++ player :: after
        /\ fst (try_players spawn candidates) = before ++ [player]
        /\ spawn player = true
        /\ (forall p, In p before -> spawn p = false)
        /\ message = ("Launched " ++ player ++ " with stream")%string
  | Err e =>
      e = no_player_error
      /\ fst (try_players spawn candidates) = candidates
      /\ (forall p, In p candidates -> spawn p = false)
  end.
Proof.
  induction candidates as [|player rest IH]; simpl.
  - repeat split. intros p [].
  - destruct (spawn player) eqn:E; simpl.
    + exists [], player, rest. repeat split; trivial. intros p [].
    + destruct (try_players spawn rest) as [tried [message|e]]; simpl in *.
      * destruct IH as [before [p [after [-> [-> [Hp [Hb ->]]]]]]].
        exists (player :: before), p, after. repeat split; trivial.
        intros q [<-|Hq]; [exact E | now apply Hb].
      * destruct IH as [-> [-> Hall]]. repeat split.
        intros q [<-|Hq]; [exact E | now apply Hall].
Qed.

(** X21.  The first version of the player launch tries mpv, vlc and
    xdg-open in this order and stops at the first that starts; its answer
    names that player.  It fails only when none of the three starts, and
    the launch error the frontend then shows is the one that asks to
    install a player. *)
Theorem first_launcher_fallback :
  forall spawn : string -> bool,
    match snd (play_video_external spawn) with
    | Ok message =>
        exists before player after,
          players = before ++ player :: after
          /\ fst (play_video_external spawn) = before ++ [player]
          /\ spawn player = true
          /\ (forall p, In p before -> spawn p = false)
          /\ message = ("Launched " ++ player ++ " with stream")%string
    | Err e =>
        fst (play_video_external spawn) = players
        /\ (forall p, In p players -> spawn p = false)
        /\ Streams.launchError e = Streams.NoPlayerFound
    end.
Proof.
  intros spawn. unfold play_video_external.
  pose proof (try_players_spec spawn players) as H.
  destruct (snd (try_players spawn players)) as [message|e]; [exact H|].
  destruct H as [-> [H1 H2]]. split; [exact H1 | split; [exact H2|]].
  vm_compute. reflexivity.
Qed.

End FirstLauncherFacts.

(* ===================================================================== *)
(** * Ties and boosts of the ranking *)
(* ===================================================================== *)

Section TieBreak.
Import JsString JsNumber JsArray Ranking.

Lemma Sorted_distinct {A B : Type} (R R' : A -> A -> Prop) (f : A -> B)
  (l : list A) :
  (forall a b, R a b -> f a <> f b -> R' a b) ->
  NoDup (map f l) -> Sorted R l -> Sorted R' l.
Proof.
  intros HR Hnd Hs. induction Hs as [|a l Hs IH Hhd]; [constructor|].
  simpl in Hnd. inversion Hnd as [|? ? Ha Hl]; subst.
  constructor; [now apply IH|].
  destruct Hhd as [|b l' Hab]; constructor.
  apply HR; [exact Hab|]. intros E. apply Ha. simpl. now left.
Qed.

Lemma notAfter_tieOrder (a b : SearchResult) :
  notAfter compareResults a b -> originalIndex a <> originalIndex b ->
  tieOrder a b.
Proof.
  unfold notAfter, compareResults, tieOrder. intros H Hne Hrel Hsec.
  rewrite Hrel, Z.eqb_refl, Hsec in H. simpl in H.
  apply Z.ltb_ge in H. lia.
Qed.

(** X22.  The sort keeps the order of the raw list among results that
    tie: in the list the pipeline has after its sort step, of two
    neighbours with equal relevance score and equal secondary score the
    one that came first in the raw list stands first. *)
Theorem ties_keep_raw_order :
  forall (host : Host) (clock : nat -> Z) (results : list Movie)
         (searchTerm : string) (sorted : list SearchResult),
    rankedBeforeGrouping host clock results searchTerm = Returns sorted ->
    Sorted tieOrder sorted.
Proof.
  intros host clock results searchTerm sorted H.
  destruct (rankedBeforeGrouping_inv _ _ _ _ _ H) as [scored [Hs ->]].
  destruct (mapIndexed_scoreResult_index _ _ _ _ _ _ Hs) as [Hidx _].
  apply (Sorted_distinct (notAfter compareResults) tieOrder originalIndex).
  - intros a b. apply notAfter_tieOrder.
  - eapply Permutation_NoDup;
      [apply Permutation_map, Permutation_sym, sort_perm|].
    apply filter_keeps_distinct. rewrite Hidx. apply seq_NoDup.
  - apply sort_sorted, compareResults_antisym.
Qed.

Lemma ties_keep_raw_order_witness :
  match rankedBeforeGrouping sampleHost (steadyClock 2025)
          [named "Cars"; named "cars"; named "CARS"] "cars"
  with
  | Returns sorted =>
      Sorted tieOrder sorted /\ map originalIndex sorted = [0; 1; 2]%nat
  | Throws => False
  end.
Proof.
  destruct (rankedBeforeGrouping sampleHost (steadyClock 2025)
              [named "Cars"; named "cars"; named "CARS"] "cars")
    as [sorted|] eqn:E.
  - split; [exact (ties_keep_raw_order _ _ _ _ _ E)|].
    vm_compute in E. injection E as <-. reflexivity.
  - vm_compute in E; discriminate E.
Defined.

End TieBreak.

Section PatternCompleteness.
Import JsString RegExp Ranking.

Lemma fullMatch_Seq_intro (s1 : string) :
  forall a b s2, fullMatch a s1 = true -> fullMatch b s2 = true ->
  fullMatch (Seq a b) (s1 ++ s2) = true.
Proof.
  induction s1 as [|c s1 IH]; intros a b s2 Ha Hb.
  - simpl in Ha. destruct s2 as [|d s2]; simpl.
    + simpl in Hb. now rewrite Ha, Hb.
    + rewrite Ha, fullMatch_Alt. simpl in Hb. rewrite Hb. apply orb_true_r.
  - simpl in Ha |- *. destruct (nullable a).
    + rewrite fullMatch_Alt, (IH _ _ _ Ha Hb). reflexivity.
    + now apply IH.
Qed.

Lemma fullMatch_lit_self (t : string) : fullMatch (lit t) t = true.
Proof.
  induction t as [|c t IH]; [reflexivity|].
  simpl. rewrite Ascii.eqb_refl.
  exact (fullMatch_Seq_intro EmptyString Eps (lit t) t eq_refl IH).
Qed.

Lemma matchesPrefix_intro (m : string) :
  forall r rest, fullMatch r m = true -> matchesPrefix r (m ++ rest) = true.
Proof.
  induction m as [|c m IH]; intros r rest H.
  - simpl in H. destruct rest; simpl; now rewrite H.
  - simpl in H |- *. rewrite (IH _ _ H). apply orb_true_r.
Qed.

Lemma test_intro (r : regex) (before : string) :
  forall rest, matchesPrefix r rest = true -> test r (before ++ rest) = true.
Proof.
  induction before as [|c before IH]; intros rest H.
  - destruct rest; simpl in *; now rewrite H.
  - change (matchesPrefix r (String c (before ++ rest))
            || test r (before ++ rest) = true).
    rewrite (IH rest H). apply orb_true_r.
Qed.

(** A name in which the query is followed by text that matches the rest
    of a pattern passes the pattern. *)
Lemma test_lit_intro (t : string) (p : regex) (s more : string) :
  fullMatch p more = true -> includes s (t ++ more) = true ->
  test (Seq (lit t) p) s = true.
Proof.
  intros Hp Hin. apply includes_spec in Hin as [a [b ->]].
  apply test_intro, matchesPrefix_intro.
  apply fullMatch_Seq_intro; [apply fullMatch_lit_self | exact Hp].
Qed.

End PatternCompleteness.

Section PunctuatedTitles.
Import JsString JsNumber JsArray RegExp Ranking.

Lemma detectFranchiseBoost_punctuated (host : Host) (title searchTerm : string)
  (mark : string) :
  hasSyntaxChar (toLowerCase searchTerm) = false ->
  mark = ":" \/ mark = "-" ->
  includes (toLowerCase title) (toLowerCase searchTerm ++ mark) = true ->
  detectFranchiseBoost host title searchTerm = Returns 15.
Proof.
  intros Hq Hmark Hin. unfold detectFranchiseBoost.
  rewrite (buildAll_plain host _ _ Hq).
  change (Returns (if existsb (fun pattern => pattern (toLowerCase title))
                        (map (fun p => test (Seq (lit (toLowerCase searchTerm))
                                               (snd p))) sequelPatterns)
                   then 15 else 0) = Returns 15).
  assert (E : existsb (fun pattern => pattern (toLowerCase title))
                (map (fun p => test (Seq (lit (toLowerCase searchTerm))
                                       (snd p))) sequelPatterns) = true).
  { apply existsb_exists.
    destruct Hmark as [-> | ->].
    - exists (test (Seq (lit (toLowerCase searchTerm))
                      (snd (nth 2 sequelPatterns (EmptyString, Never))))).
      split.
      + apply in_map_iff.
        exists (nth 2 sequelPatterns (EmptyString, Never)).
        split; [reflexivity | apply nth_In; simpl; lia].
      + apply (test_lit_intro _ _ _ ":"); [reflexivity | exact Hin].
    - exists (test (Seq (lit (toLowerCase searchTerm))
                      (snd (nth 3 sequelPatterns (EmptyString, Never))))).
      split.
      + apply in_map_iff.
        exists (nth 3 sequelPatterns (EmptyString, Never)).
        split; [reflexivity | apply nth_In; simpl; lia].
      + apply (test_lit_intro _ _ _ "-"); [reflexivity | exact Hin]. }
  now rewrite E.
Qed.

Lemma length_trimStart (s : string) :
  (String.length (trimStart s) <= String.length s)%nat.
Proof.
  induction s as [|c s IH]; simpl; [lia|].
  destruct (isWhiteSpace c); simpl; lia.
Qed.

Lemma length_drop (s : string) :
  forall n, (String.length (drop n s) <= String.length s)%nat.
Proof.
  induction s as [|c s IH]; intros [|n]; simpl; try lia.
  specialize (IH n). lia.
Qed.

Lemma matchArticle_length (article s r : string) :
  matchArticle article s = Some r ->
  (String.length r <= String.length s)%nat.
Proof.
  unfold matchArticle. destruct (startsWithFold s article); [|discriminate].
  pose proof (length_drop s (String.length article)) as Hd.
  destruct (drop (String.length article) s) as [|c rest]; [discriminate|].
  destruct (isWhiteSpace c); [|discriminate].
  intros H. injection H as <-. pose proof (length_trimStart rest).
  simpl in Hd. lia.
Qed.

Lemma stripArticle_length (s : string) :
  (String.length (stripArticle s) <= String.length s)%nat.
Proof.
  unfold stripArticle.
  destruct (matchArticle "the" s) eqn:E1;
    [now apply matchArticle_length in E1|].
  destruct (matchArticle "a" s) eqn:E2;
    [now apply matchArticle_length in E2|].
  destruct (matchArticle "an" s) eqn:E3;
    [now apply matchArticle_length in E3 | lia].
Qed.

Lemma pluralMap_length (k v : string) :
  ownProperty pluralMap k = Some v ->
  (String.length v <= String.length k)%nat.
Proof.
  unfold pluralMap. cbn [ownProperty].
  repeat match goal with
         | |- context [String.eqb ?a k] =>
             let E := fresh "E" in
             destruct (String.eqb a k) eqn:E;
             [apply String.eqb_eq in E; subst k; intros H;
              injection H as <-; simpl; lia|]
         end.
  discriminate.
Qed.

(** The preprocessed query is never longer than the trimmed query. *)
Lemma preprocessSearchTerm_length (host : Host) (searchTerm u : string) :
  preprocessSearchTerm host searchTerm = TermString u ->
  (String.length u <= String.length (trim (toLowerCase searchTerm)))%nat.
Proof.
  unfold preprocessSearchTerm.
  destruct (negb (truthy searchTerm));
    [intros H; injection H as <-; simpl; lia|].
  pose proof (stripArticle_length (trim (toLowerCase searchTerm))) as Hs.
  destruct (ownProperty pluralMap (stripArticle (trim (toLowerCase searchTerm))))
    as [v|] eqn:E.
  - intros H. injection H as <-. apply pluralMap_length in E. lia.
  - destruct (prototypeText host _); [discriminate|].
    intros H. injection H as <-. exact Hs.
Qed.

End PunctuatedTitles.

Section PunctuatedScore.
Import JsString JsNumber JsArray RegExp Ranking.

Lemma eqb_longer (s t : string) :
  (String.length t < String.length s)%nat -> String.eqb s t = false.
Proof.
  intros H. apply String.eqb_neq. intros ->. lia.
Qed.

Lemma scoreTerm_not_exact (title : string) (t : term) :
  strictEqual title t = false -> scoreTerm title 90 t = 90.
Proof.
  intros H. unfold scoreTerm. rewrite H.
  repeat match goal with |- context [if ?b then _ else _] => destruct b end;
    reflexivity.
Qed.

Lemma baseScore_prefix (host : Host) (movie : Movie) (searchTerm : string) :
  trim (toLowerCase searchTerm) <> EmptyString ->
  startsWith (scoredTitle movie) (trim (toLowerCase searchTerm)) = true ->
  (String.length (trim (toLowerCase searchTerm))
   < String.length (scoredTitle movie))%nat ->
  baseScore host movie searchTerm = 90.
Proof.
  intros Hne Hstart Hlen. unfold baseScore. fold (scoredTitle movie).
  set (t := trim (toLowerCase searchTerm)) in *.
  set (title := scoredTitle movie) in *.
  assert (Hfirst : scoreTerm title 0 (TermString t) = 90).
  { unfold scoreTerm, strictEqual. rewrite (eqb_longer _ _ Hlen).
    cbn [termText]. now rewrite Hstart. }
  assert (Hsecond : scoreTerm title 90 (preprocessSearchTerm host searchTerm)
                    = 90).
  { apply scoreTerm_not_exact.
    destruct (preprocessSearchTerm host searchTerm) as [u|u] eqn:E;
      [|reflexivity].
    apply preprocessSearchTerm_length in E. fold t in E.
    apply eqb_longer. lia. }
  cbn [filter termTruthy]. destruct t as [|c t']; [now elim Hne|].
  cbn [truthy]. destruct (termTruthy (preprocessSearchTerm host searchTerm));
    cbn [fold_left]; rewrite Hfirst; [exact Hsecond | reflexivity].
Qed.

(** X23.  For a query without syntax characters whose trimmed form is
    not empty, an item whose lower-cased, trimmed name starts with the
    lower-cased, trimmed query directly followed by a colon or a hyphen
    scores 105: 90 for the name that starts with the query, and the boost
    of 15 from the colon or the dash pattern. *)
Theorem punctuated_title_scores_105 :
  forall (host : Host) (movie : Movie) (searchTerm mark : string),
    plainQuery searchTerm ->
    trim (toLowerCase searchTerm) <> EmptyString ->
    mark = ":" \/ mark = "-" ->
    startsWith (scoredTitle movie) (trim (toLowerCase searchTerm) ++ mark)
      = true ->
    calculateRelevanceScore host movie searchTerm = Returns 105.
Proof.
  intros host movie searchTerm mark Hq Hne Hmark Hstart.
  assert (Hboost : detectFranchiseBoost host (scoredTitle movie)
                     (trim (toLowerCase searchTerm)) = Returns 15).
  { apply (detectFranchiseBoost_punctuated host _ _ mark Hq Hmark).
    unfold scoredTitle. rewrite !toLowerCase_trimmed.
    now apply startsWith_includes. }
  assert (Hbase : baseScore host movie searchTerm = 90).
  { apply baseScore_prefix; [exact Hne | |].
    - now apply (startsWith_append _ _ mark).
    - apply startsWith_spec in Hstart as [b ->].
      rewrite !length_append.
      destruct Hmark as [-> | ->]; simpl; lia. }
  unfold calculateRelevanceScore. fold (scoredTitle movie).
  rewrite Hboost, Hbase. reflexivity.
Qed.

Lemma punctuated_title_scores_105_witness :
  calculateRelevanceScore sampleHost (named " Alien: Covenant") "ALIEN "
  = Returns 105.
Proof.
  apply (punctuated_title_scores_105 sampleHost (named " Alien: Covenant")
           "ALIEN " ":").
  - vm_compute. reflexivity.
  - vm_compute. discriminate.
  - now left.
  - vm_compute. reflexivity.
Defined.

End PunctuatedScore.
